(** * FastPitch acoustic model: length regulation, interval averaging,
      splice bounds and the inference fall-back

    Shallow embedding of [python/fastpitch1_1/fastpitch.py].

    Tensors are nested lists: a batch is a list of samples, a sample a list
    of tokens (or frames), a feature vector a list of numbers.  Feature
    tensors have rational entries ([Q]), read in exact arithmetic and
    compared with [Qeq] ([==]).  Where the rounding of the source's float32
    arithmetic decides a result (the adjusted durations of the length
    regulator, the running sums of the averager) the code is also given on
    binary32 numbers ([F32]); the definitions on [Q] are its idealisation.
    Integer tensors ([.long()], token ids, lengths) are [Z].  A Python
    exception is a value [Raise e] of the [result] type. *)

From Stdlib Require Import QArith Qminmax Qabs Qround Lqa.
From Stdlib Require SpecFloat.
From stdpp Require Import base list numbers.

Open Scope Z_scope.

(** ** Exceptions *)

Inductive exn : Set :=
| IndexError
| RuntimeError
| UnboundLocalError
| AttributeError
| KeyError
| AssertionError
| ValueError.

Inductive result (A : Type) : Type :=
| Ok (a : A)
| Raise (e : exn).

Arguments Ok {A} a.
Arguments Raise {A} e.

#[global] Instance result_ret : MRet result := fun A a => Ok a.

#[global] Instance result_bind : MBind result := fun A B k m =>
  match m with
  | Ok a => k a
  | Raise e => Raise e
  end.

Definition is_ok {A} (m : result A) : bool :=
  match m with Ok _ => true | Raise _ => false end.

(** ** Tensor helpers *)

Module Tensor.

(** [x.long()] on a float: truncation toward zero. *)
Definition to_long (q : Q) : Z := Z.quot (Qnum q) (Z.pos (Qden q)).

Definition sumZ (l : list Z) : Z := foldr Z.add 0 l.
Definition sumQ (l : list Q) : Q := foldr Qplus 0%Q l.

(** [torch.cumsum] along the last dimension: running sums, the first
    entry being the first element itself. *)
Fixpoint scan {A} (add : A -> A -> A) (acc : A) (l : list A) : list A :=
  match l with
  | [] => []
  | x :: l' => add acc x :: scan add (add acc x) l'
  end.

Definition cumsum {A} (add : A -> A -> A) (l : list A) : list A :=
  match l with
  | [] => []
  | x :: l' => x :: scan add x l'
  end.

(** [t.max()]: raises on a tensor without elements. *)
Definition tensor_max (l : list Z) : result Z :=
  match l with
  | [] => Raise RuntimeError
  | x :: l' => Ok (foldr Z.max x l')
  end.

(** [torch.arange(n)]: raises when the upper bound is negative. *)
Definition arange (n : Z) : result (list Z) :=
  if n <? 0 then Raise RuntimeError else Ok (seqZ 0 n).

(** Broadcasting along one dimension of two operands: the sizes must agree
    unless one of them is 1. *)
Definition broadcast {A B} (xs : list A) (ys : list B) : result (list (A * B)) :=
  match xs, ys with
  | [x], _ => Ok (map (pair x) ys)
  | _, [y] => Ok (map (fun x => (x, y)) xs)
  | _, _ => if (length xs =? length ys)%nat then Ok (zip xs ys)
            else Raise RuntimeError
  end.

(** Feature dimension of a (tokens x D) matrix. *)
Definition width (e : list (list Q)) : nat :=
  match e with
  | [] => 0%nat
  | v :: _ => length v
  end.

Definition column (d : nat) (e : list (list Q)) : list Q :=
  map (fun v => default 0%Q (v !! d)) e.

Definition dot (row col : list Q) : Q := sumQ (zip_with Qmult row col).

(** One row of [torch.matmul(m, e)]. *)
Definition matmul_row (row : list Q) (e : list (list Q)) : list Q :=
  map (fun d => dot row (column d e)) (seq 0 (width e)).

Definition b2q (b : bool) : Q := if b then 1%Q else 0%Q.

End Tensor.

Import Tensor.

(** Entry-wise equality of numeric tensors. *)
Definition veq : list Q -> list Q -> Prop := Forall2 Qeq.
Definition meq : list (list Q) -> list (list Q) -> Prop := Forall2 veq.
Definition teq : list (list (list Q)) -> list (list (list Q)) -> Prop := Forall2 meq.

(** ** Length regulator ([regulate_len]) *)

(** [(durations.float() / pace + 0.5).long()] for one token. *)
Definition adjusted (pace d : Q) : Z := to_long (d / pace + (1 # 2))%Q.

(** [(reps_cumsum[:-1] <= t) & (reps_cumsum[1:] > t)] for one frame [t]. *)
Definition frame_mask (cs : list Z) (t : Z) : list Q :=
  zip_with (fun lo hi => b2q ((lo <=? t) && (hi >? t))) (removelast cs) (tail cs).

Definition regulate_len (durations : list (list Q)) (enc_out : list (list (list Q)))
    (pace : Q) (mel_max_len : option nat)
  : result (list (list (list Q)) * list Z) :=
  let reps := map (map (adjusted pace)) durations in
  let dec_lens := map sumZ reps in
  max_len ← tensor_max dec_lens;
  let reps_cumsum := map (fun r => cumsum Z.add (0 :: r)) reps in
  range_ ← arange max_len;
  let mult := map (fun cs => (length (tail cs), map (frame_mask cs) range_)) reps_cumsum in
  pairs ← broadcast mult enc_out;
  enc_rep ←
    if forallb (fun '((l, _), e) => (l =? length e)%nat) pairs
    then Ok (map (fun '((_, m), e) => map (fun row => matmul_row row e) m) pairs)
    else Raise RuntimeError;
  match mel_max_len with
  | None => Ok (enc_rep, dec_lens)
  | Some cap => Ok (map (take cap) enc_rep, map (Z.min (Z.of_nat cap)) dec_lens)
  end.

(** *** Specification vocabulary for the length regulator *)

(** Token [k] of a sample with repetitions [r] owns the frames
    [tok_start r k <= t < tok_end r k]. *)
Definition tok_start (r : list Z) (k : nat) : Z := sumZ (take k r).
Definition tok_end (r : list Z) (k : nat) : Z := sumZ (take (S k) r).
Definition owns (r : list Z) (k : nat) (t : Z) : Prop :=
  tok_start r k <= t < tok_end r k.

(** A (tokens x D) matrix whose rows all have the same dimension. *)
Definition rect (e : list (list Q)) : Prop :=
  Forall (fun v => length v = width e) e.

(** The same mask, computed token by token from a running start offset. *)
Fixpoint mask_from (acc : Z) (r : list Z) (t : Z) : list Q :=
  match r with
  | [] => []
  | x :: r' => b2q ((acc <=? t) && (acc + x >? t)) :: mask_from (acc + x) r' t
  end.

(** Frames of one sample, for a batch whose longest sample has [mx] frames. *)
Definition frames_of (pace : Q) (mx : Z) (d : list Q) (e : list (list Q))
  : list (list Q) :=
  map (fun t => matmul_row (mask_from 0 (map (adjusted pace) d) t) e) (seqZ 0 mx).

Definition lens_of (pace : Q) (durations : list (list Q)) : list Z :=
  map (fun d => sumZ (map (adjusted pace) d)) durations.

(** Rounding to the nearest integer, ties upward. *)
Definition round_half_up (q : Q) : Z := Qfloor (q + (1 # 2)).

(** ** Interval averager ([average_pitch]) *)

Fixpoint mapR {A B} (f : A -> result B) (l : list A) : result (list B) :=
  match l with
  | [] => Ok []
  | x :: l' => y ← f x; ys ← mapR f l'; Ok (y :: ys)
  end.

(** [torch.gather] along the last dimension of one row: an index outside
    the row (negative indices included) raises. *)
Definition gather {A} (row : list A) (index : list Z) : result (list A) :=
  mapR (fun i => if i <? 0 then Raise RuntimeError
                 else match row !! Z.to_nat i with
                      | Some x => Ok x
                      | None => Raise RuntimeError
                      end) index.

(** [torch.gather(input, 2, index[:, None, :].expand(bs, n_formants, l))]:
    the index of a sample is used for each of its channels; the index may
    not have more samples than the input. *)
Definition gather3 {A} (input : list (list (list A))) (index : list (list Z))
  : result (list (list (list A))) :=
  if (length input <? length index)%nat then Raise RuntimeError
  else mapR (fun '(idx, chans) => mapR (fun row => gather row idx) chans)
            (zip index input).

Definition zip_with3 {A B C} (f : A -> B -> C)
  : list (list (list A)) -> list (list (list B)) -> list (list (list C)) :=
  zip_with (zip_with (zip_with f)).

(** [pitch != 0.0] as an integer. *)
Definition nonzero (p : Q) : Z := if Qeq_bool p 0 then 0 else 1.

(** [pitch] has shape (batch, channels, frames), [durs] shape (batch, tokens);
    the durations are integer valued. *)
Definition average_pitch (pitch : list (list (list Q))) (durs : list (list Z))
  : result (list (list (list Q))) :=
  let durs_cums_ends := map (cumsum Z.add) durs in
  let durs_cums_starts := map (fun ends => 0 :: removelast ends) durs_cums_ends in
  let pitch_nonzero_cums :=
    map (map (fun row => 0 :: cumsum Z.add (map nonzero row))) pitch in
  let pitch_cums := map (map (fun row => 0%Q :: cumsum Qplus row)) pitch in
  sums_e ← gather3 pitch_cums durs_cums_ends;
  sums_s ← gather3 pitch_cums durs_cums_starts;
  let pitch_sums := zip_with3 Qminus sums_e sums_s in
  nelems_e ← gather3 pitch_nonzero_cums durs_cums_ends;
  nelems_s ← gather3 pitch_nonzero_cums durs_cums_starts;
  let pitch_nelems := zip_with3 Z.sub nelems_e nelems_s in
  let pitch_avg :=
    zip_with3 (fun n s => if n =? 0 then inject_Z n else (s / inject_Z n)%Q)
              pitch_nelems pitch_sums in
  Ok pitch_avg.

(** *** The averager in the words of its contract *)

(** Mean of the non-zero entries of a frame interval, 0 when there are none. *)
Definition mean_nonzero (frames : list Q) : Q :=
  let voiced := List.filter (fun p => negb (Qeq_bool p 0)) frames in
  match voiced with
  | [] => 0%Q
  | _ => (sumQ voiced / inject_Z (Z.of_nat (length voiced)))%Q
  end.

(** Token by token: each token takes the next [d] frames of the signal. *)
Fixpoint interval_means (row : list Q) (durs : list Z) : list Q :=
  match durs with
  | [] => []
  | d :: durs' =>
      mean_nonzero (take (Z.to_nat d) row) :: interval_means (drop (Z.to_nat d) row) durs'
  end.

Definition spec_average_pitch (pitch : list (list (list Q))) (durs : list (list Z))
  : list (list (list Q)) :=
  zip_with (fun d chans => map (fun row => interval_means row d) chans) durs pitch.

(** *** Closed forms used in the proofs about the averager *)

(** Entry [i] of a padded prefix-sum row, as fetched by [gather]. *)
Definition lookQ (row : list Q) (i : Z) : Q := default 0%Q (row !! Z.to_nat i).
Definition lookZ (row : list Z) (i : Z) : Z := default 0 (row !! Z.to_nat i).

(** [where(nelems == 0, nelems, sums / nelems)] for one entry. *)
Definition avg_entry (n : Z) (s : Q) : Q :=
  if n =? 0 then inject_Z n else (s / inject_Z n)%Q.

(** Padded prefix sums of one channel: counts of non-zero frames, and sums. *)
Definition ncums (row : list Q) : list Z := 0 :: cumsum Z.add (map nonzero row).
Definition cums (row : list Q) : list Q := 0%Q :: cumsum Qplus row.

(** The average of the frames from index [s] up to index [e]. *)
Definition tok_avg (row : list Q) (e s : Z) : Q :=
  avg_entry (lookZ (ncums row) e - lookZ (ncums row) s)
            (lookQ (cums row) e - lookQ (cums row) s)%Q.

(** [average_pitch] for one channel of one sample. *)
Definition row_avg (row : list Q) (d : list Z) : list Q :=
  let ends := cumsum Z.add d in
  let starts := 0 :: removelast ends in
  zip_with avg_entry
    (zip_with Z.sub (map (lookZ (ncums row)) ends) (map (lookZ (ncums row)) starts))
    (zip_with Qminus (map (lookQ (cums row)) ends) (map (lookQ (cums row)) starts)).

(** Walk over the tokens with a running end offset. *)
Fixpoint steps {A} (f : Z -> Z -> A) (acc : Z) (d : list Z) : list A :=
  match d with
  | [] => []
  | x :: d' => f (acc + x) acc :: steps f (acc + x) d'
  end.

(** Shapes accepted by the averager: integer durations are non-negative and
    the frames they claim exist in each channel of the sample. *)
Definition durs_fit (durs : list (list Z)) (pitch : list (list (list Q))) : Prop :=
  Forall2 (fun d chans =>
             Forall (fun x => 0 <= x) d
             /\ Forall (fun row => sumZ d <= Z.of_nat (length row)) chans)
          durs pitch.

(** The frames of token [k]: [d_k] frames from the token's start offset. *)
Definition tok_frames (row : list Q) (d : list Z) (k : nat) : list Q :=
  take (Z.to_nat (default 0 (d !! k))) (drop (Z.to_nat (tok_start d k)) row).

(** ** Training pass: the duration-sum check of [FastPitch.forward] *)

(** [attn_hard.sum(2)[:, 0, :]] for one sample: the hard alignment has one
    row per mel frame and [max_text_len] columns; a token's target duration
    is the sum of its column. *)
Definition col_sums (max_text_len : nat) (attn_hard : list (list Z)) : list Z :=
  foldr (zip_with Z.add) (replicate max_text_len 0) attn_hard.

(** [assert torch.all(torch.eq(a, b))]. *)
Definition assert_all_eq (a b : list Z) : result unit :=
  pairs ← broadcast a b;
  if forallb (fun '(x, y) => x =? y) pairs then Ok tt else Raise AssertionError.

(** Lines 208-212 of [forward]: target durations from the hard alignment
    returned by [binarize_attention_parallel], then the fatal check. *)
Definition forward_dur_tgt (attn_hard : list (list (list Z))) (max_text_len : nat)
    (mel_lens : list Z) : result (list (list Z)) :=
  let attn_hard_dur := map (col_sums max_text_len) attn_hard in
  let dur_tgt := attn_hard_dur in
  _ ← assert_all_eq (map sumZ dur_tgt) mel_lens;
  Ok dur_tgt.

(** ** Inference: [infer_using_vals] and [infer_advanced]

    Inference runs on a batch of one sample and one pitch formant: the
    arrays are the rows [x[0]] of the tensors of the source. *)

Module Py.

(** [l[i]] on a sequence: negative indices count from the end. *)
Definition norm_index {A} (l : list A) (i : Z) : result nat :=
  let j := if i <? 0 then i + Z.of_nat (length l) else i in
  if (0 <=? j) && (j <? Z.of_nat (length l)) then Ok (Z.to_nat j)
  else Raise IndexError.

Definition index {A} (l : list A) (i : Z) : result A :=
  j ← norm_index l i;
  match l !! j with
  | Some x => Ok x
  | None => Raise IndexError
  end.

(** [l[i] = v]. *)
Definition store {A} (l : list A) (i : Z) (v : A) : result (list A) :=
  j ← norm_index l i;
  Ok (<[j := v]> l).

(** [range(n)]. *)
Definition range (n : Z) : list Z := seqZ 0 n.

(** A [for] loop over [l] threading the state [s]; a raise ends it. *)
Fixpoint for_each {A S} (l : list A) (s : S) (body : S -> A -> result S) : result S :=
  match l with
  | [] => Ok s
  | x :: l' => s' ← body s x; for_each l' s' body
  end.

(** [x.attr] on a value that may be [None]. *)
Definition deref {A} (x : option A) : result A :=
  match x with
  | Some a => Ok a
  | None => Raise AttributeError
  end.

(** Reading a local variable that may not have been assigned. *)
Definition local {A} (x : option A) : result A :=
  match x with
  | Some a => Ok a
  | None => Raise UnboundLocalError
  end.

(** [d[k]] on a dictionary whose key may have been removed. *)
Definition key {A} (x : option A) : result A :=
  match x with
  | Some a => Ok a
  | None => Raise KeyError
  end.

End Py.

(** The first [i] at which the loop over [range(len(old))] breaks: [new] has
    run out, or the two sequences differ. *)
Fixpoint first_change (i : Z) (old new : list Z) : option Z :=
  match old with
  | [] => None
  | o :: old' =>
      match new with
      | [] => Some i
      | n :: new' => if o =? n then first_change (i + 1) old' new' else Some i
      end
  end.

(** Lines 258-294: the splice bounds. *)
Definition splice_bounds (old_sequence_np new_sequence_np : list Z)
  : result (option Z * option Z) :=
  let len_old := Z.of_nat (length old_sequence_np) in
  o0 ← Py.index old_sequence_np 0;
  n0 ← Py.index new_sequence_np 0;
  let start_index :=
    if o0 =? n0 then
      match first_change 0 old_sequence_np new_sequence_np with
      | Some i => Some (i - 1)
      | None => Some (len_old - 1)
      end
    else None in
  let old_rev := reverse old_sequence_np in
  let new_rev := reverse new_sequence_np in
  o0 ← Py.index old_rev 0;
  n0 ← Py.index new_rev 0;
  let end_index :=
    if o0 =? n0 then
      match first_change 0 old_rev new_rev with
      | Some i => Some (len_old - 1 - i + 1)
      | None => None
      end
    else None in
  Ok (start_index, end_index).

(** [torch.clamp(x, lo, hi)]. *)
Definition clamp (x lo hi : Q) : Q := Qmin (Qmax x lo) hi.
Definition clamp_min (x lo : Q) : Q := Qmax x lo.

(** One step of a splice loop: [dur[i] = dur_existing[i]], then the same for
    the pitch. *)
Definition splice_step (dur_existing pitch_existing : list Q)
    (st : list Q * list Q) (i : Z) : result (list Q * list Q) :=
  let '(dur_pred_np, pitch_pred_np) := st in
  d ← Py.index dur_existing i;
  dur_pred_np ← Py.store dur_pred_np i d;
  p ← Py.index pitch_existing i;
  pitch_pred_np ← Py.store pitch_pred_np i p;
  Ok (dur_pred_np, pitch_pred_np).

(** Lines 323-333: replace the starting values, then the end values. *)
Definition splice_values (start_index end_index : option Z) (len_old : Z)
    (dur_pred pitch_pred dur_existing pitch_existing : list Q)
  : result (list Q * list Q) :=
  st ← match start_index with
       | Some s => Py.for_each (Py.range (s + 1)) (dur_pred, pitch_pred)
                     (splice_step dur_existing pitch_existing)
       | None => Ok (dur_pred, pitch_pred)
       end;
  match end_index with
  | Some e => Py.for_each (map (fun i => - i - 1) (Py.range (len_old - e))) st
                (splice_step dur_existing pitch_existing)
  | None => Ok st
  end.

(** Lines 365-371: the same for the energy. *)
Definition splice_energy (start_index end_index : option Z) (len_old : Z)
    (energy_pred energy_existing : list Q) : result (list Q) :=
  let step (e : list Q) (i : Z) : result (list Q) :=
    v ← Py.index energy_existing i; Py.store e i v in
  e ← match start_index with
      | Some s => Py.for_each (Py.range (s + 1)) energy_pred step
      | None => Ok energy_pred
      end;
  match end_index with
  | Some ei => Py.for_each (map (fun i => - i - 1) (Py.range (len_old - ei))) e step
  | None => Ok e
  end.

(** Addition of two (tokens x D) tensors, with broadcasting. *)
Definition vec_add (u v : list Q) : result (list Q) :=
  pairs ← broadcast u v;
  Ok (map (fun '(a, b) => (a + b)%Q) pairs).

Definition tensor_add (x y : list (list Q)) : result (list (list Q)) :=
  pairs ← broadcast x y;
  mapR (fun '(u, v) => vec_add u v) pairs.

Definition is_none {A} (x : option A) : bool :=
  match x with Some _ => false | None => true end.

Definition is_some {A} (x : option A) : bool := negb (is_none x).

(** The bundle handed to the extension hooks. *)
Record PluginData (Text : Type) : Type := mkPluginData {
  pd_duration : list Q;
  pd_pitch : list Q;
  pd_energy : option (list Q);
  pd_text : Text;
  pd_is_fresh_synth : bool
}.

Arguments mkPluginData {Text}.
Arguments pd_duration {Text}.
Arguments pd_pitch {Text}.
Arguments pd_energy {Text}.
Arguments pd_text {Text}.
Arguments pd_is_fresh_synth {Text}.

(** What [infer_using_vals] returns. *)
Record Inferred (Mel : Type) : Type := mkInferred {
  mel_out : Mel;
  dec_lens : list Z;
  dur_pred : list Q;
  pitch_pred : list Q;
  energy_pred : list Q;
  start_index : Z;
  end_index : Z
}.

Arguments mkInferred {Mel}.
Arguments mel_out {Mel}.
Arguments dec_lens {Mel}.
Arguments dur_pred {Mel}.
Arguments pitch_pred {Mel}.
Arguments energy_pred {Mel}.
Arguments start_index {Mel}.
Arguments end_index {Mel}.

(** The model object: the collaborators of the orchestrator, each an opaque
    function.  [encoder] includes the speaker embedding, [decoder_proj] is
    the decoder followed by the output projection, [torch_exp] is the
    exponential of the tensor library. *)
Class FastPitch (Mask Mel : Type) : Type := {
  encoder : list Z -> option Z -> list (list Q) * Mask;
  duration_predictor : list (list Q) -> Mask -> list Q;
  pitch_predictor : list (list Q) -> Mask -> list Q;
  energy_predictor : list (list Q) -> Mask -> list Q;
  pitch_emb : list Q -> list (list Q);
  energy_emb : list Q -> list (list Q);
  decoder_proj : list (list (list Q)) -> list Z -> Mel;
  torch_exp : Q -> Q
}.

(** The hooks registered for the two checkpoints of a synthesis. *)
Record PluginManager (Text : Type) : Type := mkPluginManager {
  mid : list (PluginData Text -> PluginData Text);
  pre_energy : list (PluginData Text -> PluginData Text)
}.

Arguments mkPluginManager {Text}.
Arguments mid {Text}.
Arguments pre_energy {Text}.

Definition run_plugins {Text} (plist : list (PluginData Text -> PluginData Text))
    (data : PluginData Text) : PluginData Text :=
  foldl (fun d plugin => plugin d) data plist.

(** Lines 257-294 and 317-336 for given fresh predictions: the bounds, then
    the splice when a bound is set. *)
Definition splice_prosody (old_sequence_np new_sequence_np : list Z)
    (dur_pred pitch_pred dur_existing pitch_existing : list Q)
  : result (option Z * option Z * (list Q * list Q)) :=
  '(start_index, end_index) ← splice_bounds old_sequence_np new_sequence_np;
  if is_some start_index || is_some end_index then
    vals ← splice_values start_index end_index (Z.of_nat (length old_sequence_np))
             dur_pred pitch_pred dur_existing pitch_existing;
    Ok (start_index, end_index, vals)
  else Ok (start_index, end_index, (dur_pred, pitch_pred)).

Section Inference.

Context {Mask Mel Text : Type}.
Context (self : FastPitch Mask Mel).
Context (plugin_manager : PluginManager Text).

(** Lines 300-309: the model's own, clamped predictions. *)
Definition own_durations (enc_out : list (list Q)) (enc_mask : Mask)
    (max_duration : Q) : list Q :=
  let log_dur_pred := duration_predictor enc_out enc_mask in
  let dur_pred := map (fun l => clamp (torch_exp l - 1) 0 max_duration) log_dur_pred in
  map (fun d => clamp_min d (1 # 4)) dur_pred.

Definition own_pitch (enc_out : list (list Q)) (enc_mask : Mask) : list Q :=
  map (fun p => clamp p (-3) 3) (pitch_predictor enc_out enc_mask).

(** Line 297. *)
Definition computes_own (dur_pred_existing pitch_pred_existing : option (list Q))
    (old_sequence : option (list Z)) : bool :=
  (is_none dur_pred_existing || is_none pitch_pred_existing) || is_some old_sequence.

(** Lines 296-314: the arrays before any splice; the last component is the
    local [energy_pred], assigned only when the existing values are taken. *)
Definition predict (enc_out : list (list Q)) (enc_mask : Mask) (max_duration : Q)
    (dur_pred_existing pitch_pred_existing energy_pred_existing : option (list Q))
    (old_sequence : option (list Z))
  : result (list Q * list Q * option (list Q)) :=
  if computes_own dur_pred_existing pitch_pred_existing old_sequence
  then Ok (own_durations enc_out enc_mask max_duration,
           own_pitch enc_out enc_mask, None)
  else
    dur_pred ← Py.deref dur_pred_existing;
    pitch_pred ← Py.deref pitch_pred_existing;
    Ok (dur_pred, pitch_pred, energy_pred_existing).

(** Lines 254-339: bounds, predictions and splice.  The last component is
    the local [energy_pred], [None] while it is unassigned. *)
Definition infer_prosody (enc_out : list (list Q)) (enc_mask : Mask) (max_duration : Q)
    (dur_pred_existing pitch_pred_existing energy_pred_existing : option (list Q))
    (old_sequence new_sequence : option (list Z))
  : result (option Z * option Z * list Q * list Q * option (list Q)) :=
  '(start_index, end_index) ←
    match old_sequence with
    | Some old_sequence_np =>
        new_sequence_np ← Py.deref new_sequence;
        splice_bounds old_sequence_np new_sequence_np
    | None => Ok (None, None)
    end;
  '(dur_pred, pitch_pred, energy_pred) ←
    predict enc_out enc_mask max_duration
      dur_pred_existing pitch_pred_existing energy_pred_existing old_sequence;
  if is_some start_index || is_some end_index then
    dur_pred_existing_np ← Py.deref dur_pred_existing;
    pitch_pred_existing_np ← Py.deref pitch_pred_existing;
    let len_old := Z.of_nat (length (default [] old_sequence)) in
    '(dur_pred, pitch_pred) ←
      splice_values start_index end_index len_old
        dur_pred pitch_pred dur_pred_existing_np pitch_pred_existing_np;
    enc ← tensor_add enc_out (pitch_emb pitch_pred);
    let energy_pred := energy_predictor enc enc_mask in
    Ok (start_index, end_index, dur_pred, pitch_pred, Some energy_pred)
  else Ok (start_index, end_index, dur_pred, pitch_pred, energy_pred).

Definition infer_using_vals (sequence : Text) (pace : Q)
    (enc_out : list (list Q)) (max_duration : Q) (enc_mask : Mask)
    (dur_pred_existing pitch_pred_existing energy_pred_existing : option (list Q))
    (old_sequence new_sequence : option (list Z))
  : result (Inferred Mel) :=
  '(start_index, end_index, dur_pred, pitch_pred, energy_pred) ←
    infer_prosody enc_out enc_mask max_duration
      dur_pred_existing pitch_pred_existing energy_pred_existing
      old_sequence new_sequence;
  let is_fresh_synth := is_none pitch_pred_existing && is_none dur_pred_existing in
  let '(dur_pred, pitch_pred) :=
    match mid plugin_manager with
    | [] => (dur_pred, pitch_pred)
    | _ =>
        let plugin_data :=
          run_plugins (mid plugin_manager)
            (mkPluginData dur_pred pitch_pred None sequence is_fresh_synth) in
        (pd_duration plugin_data, pd_pitch plugin_data)
    end in
  enc_out ← tensor_add enc_out (pitch_emb pitch_pred);
  energy_pred ←
    match energy_pred_existing with
    | None => Ok (Some (energy_predictor enc_out enc_mask))
    | Some energy_pred_existing_np =>
        if is_some start_index || is_some end_index then
          energy_pred_np ← Py.local energy_pred;
          let len_old := Z.of_nat (length (default [] old_sequence)) in
          e ← splice_energy start_index end_index len_old
                energy_pred_np energy_pred_existing_np;
          Ok (Some e)
        else Ok energy_pred
    end;
  energy_pred ←
    match pre_energy plugin_manager with
    | [] => Ok energy_pred
    | _ =>
        e ← Py.local energy_pred;
        let plugin_data :=
          run_plugins (pre_energy plugin_manager)
            (mkPluginData dur_pred pitch_pred (Some e) sequence is_fresh_synth) in
        e' ← Py.key (pd_energy plugin_data);
        Ok (Some e')
    end;
  energy_pred ← Py.local energy_pred;
  enc_out ← tensor_add enc_out (energy_emb energy_pred);
  '(len_regulated, dec_lens) ← regulate_len [dur_pred] [enc_out] pace None;
  let mel_out := decoder_proj len_regulated dec_lens in
  Ok (mkInferred mel_out dec_lens dur_pred pitch_pred energy_pred
        (default (-1) start_index) (default (-1) end_index)).

(** Line 412: the side-data bundle is taken only when its three arrays
    are present and non-empty. *)
Definition present (x : option (list Q)) : bool :=
  match x with
  | Some (_ :: _) => true
  | _ => false
  end.

Definition usable
    (pitch_data : option (option (list Q) * option (list Q) * option (list Q))) : bool :=
  match pitch_data with
  | Some (pitch_pred, dur_pred, energy_pred) =>
      present pitch_pred && present dur_pred && present energy_pred
  | None => false
  end.

Definition infer_advanced (cleaned_text : Text) (inputs : list Z)
    (speaker_i : option Z) (pace : Q)
    (pitch_data : option (option (list Q) * option (list Q) * option (list Q)))
    (max_duration : Q) (old_sequence : option (list Z))
  : result (Inferred Mel) :=
  let '(enc_out, enc_mask) := encoder inputs speaker_i in
  match pitch_data with
  | Some (pitch_pred, dur_pred, energy_pred) =>
      if present pitch_pred && present dur_pred && present energy_pred then
        match infer_using_vals cleaned_text pace enc_out max_duration enc_mask
                dur_pred pitch_pred energy_pred old_sequence (Some inputs) with
        | Ok r => Ok r
        | Raise _ =>
            infer_using_vals cleaned_text pace enc_out max_duration enc_mask
              None None None None None
        end
      else
        infer_using_vals cleaned_text pace enc_out max_duration enc_mask
          None None None None None
  | None =>
      infer_using_vals cleaned_text pace enc_out max_duration enc_mask
        None None None None None
  end.

End Inference.


(** *** A small model instance, for the examples

    Two features per token; every log-duration is 0 and the exponential is
    constantly 3, so that each own duration is 2; every raw pitch is 5, so
    that each own pitch is 3; the embeddings copy the value into both
    features; the decoder returns its input. *)
Definition toy : FastPitch unit (list (list (list Q)) * list Z) := {|
  encoder := fun inputs _ => (map (fun _ => [0; 0]%Q) inputs, tt);
  duration_predictor := fun enc _ => map (fun _ => 0%Q) enc;
  pitch_predictor := fun enc _ => map (fun _ => 5%Q) enc;
  energy_predictor := fun enc _ => map (fun _ => 1%Q) enc;
  pitch_emb := fun p => map (fun x => [x; x]) p;
  energy_emb := fun e => map (fun x => [x; x]) e;
  decoder_proj := fun x l => (x, l);
  torch_exp := fun _ => 3%Q
|}.

Definition no_plugins : PluginManager unit := mkPluginManager [] [].

(** *** The length regulator as a repeat

    Each token's feature vector repeated as many times as its adjusted
    duration, in token order. *)
Definition expand (r : list Z) (e : list (list Q)) : list (list Q) :=
  concat (zip_with (fun n v => replicate (Z.to_nat n) v) r e).

(** *** The splice in closed form

    The first [n] and the last [k] entries of the prediction [l] replaced by
    the first [n] and the last [k] entries of the existing array [ex]. *)
Definition spliced {A} (n k : nat) (ex l : list A) : list A :=
  take (length l - k) (take n ex ++ drop n l) ++ drop (length ex - k) ex.

(** Number of leading entries replaced for a start bound, and of trailing
    entries replaced for an end bound. *)
Definition front_count (start_index : option Z) : nat :=
  match start_index with
  | Some s => Z.to_nat (s + 1)
  | None => 0%nat
  end.

Definition back_count (len_old : Z) (end_index : option Z) : nat :=
  match end_index with
  | Some e => Z.to_nat (len_old - e)
  | None => 0%nat
  end.

(** ** Temporal predictor ([TemporalPredictor.forward])

    A tensor of shape (batch, time, features) is a nested list; the mask has
    shape (batch, time, 1). *)

(** Element-wise product of two tensors, with broadcasting. *)
Definition vec_mul (u v : list Q) : result (list Q) :=
  pairs ← broadcast u v;
  Ok (map (fun '(a, b) => (a * b)%Q) pairs).

Definition rows_mul (x y : list (list Q)) : result (list (list Q)) :=
  pairs ← broadcast x y;
  mapR (fun '(u, v) => vec_mul u v) pairs.

Definition tensor_mul (x y : list (list (list Q))) : result (list (list (list Q))) :=
  pairs ← broadcast x y;
  mapR (fun '(u, v) => rows_mul u v) pairs.

(** [x.transpose(1, 2)]. *)
Definition transpose12 (x : list (list (list Q))) : list (list (list Q)) :=
  map (fun m => map (fun d => column d m) (seq 0 (width m))) x.

(** The learned parts of the predictor: the convolution stack and the final
    linear layer, each an opaque function. *)
Record TemporalPredictor : Type := mkTemporalPredictor {
  layers : list (list (list Q)) -> list (list (list Q));
  fc : list (list (list Q)) -> list (list (list Q))
}.

(** Lines 98-102. *)
Definition TemporalPredictor_forward (self : TemporalPredictor)
    (enc_out enc_out_mask : list (list (list Q)))
  : result (list (list (list Q))) :=
  out ← tensor_mul enc_out enc_out_mask;
  let out := transpose12 (layers self (transpose12 out)) in
  tensor_mul (fc self out) enc_out_mask.

(** ** Binary32 arithmetic

    The durations and the pitch signal are float32 tensors.  [F32] is the
    IEEE 754 binary32 format in the standard library's specification of
    floating-point numbers: precision 24, infinities at exponent 128, round
    to nearest with ties to even. *)

Module F32.

Import SpecFloat.

Definition t : Type := spec_float.

Definition prec : Z := 24.
Definition emax : Z := 128.

Definition add : t -> t -> t := SFadd prec emax.
Definition sub : t -> t -> t := SFsub prec emax.
Definition div : t -> t -> t := SFdiv prec emax.

(** Conversion of an integer, rounded when it has more than 24 bits. *)
Definition of_Z (n : Z) : t := binary_normalize prec emax n 0 false.

Definition zero : t := S754_zero false.

(** [0.5] is [2^23 * 2^-24]. *)
Definition half : t := S754_finite false 8388608 (-24).

(** [x != 0.0] as an integer: true of a NaN, false of both zeros. *)
Definition nonzero (x : t) : Z := if SFeqb x zero then 0 else 1.

(** A number, as opposed to an infinity or a NaN. *)
Definition is_number (x : t) : bool :=
  match x with
  | S754_zero _ | S754_finite _ _ _ => true
  | _ => false
  end.

(** The rational value of a number (0 for an infinity or a NaN). *)
Definition to_Q (x : t) : Q :=
  match x with
  | S754_finite s m e =>
      let n := if s then Z.neg m else Z.pos m in
      if 0 <=? e then (n * 2 ^ e) # 1 else n # Z.to_pos (2 ^ (- e))
  | _ => 0%Q
  end.

(** [x.long()]: truncation toward zero; a value outside the int64 range,
    an infinity and a NaN give [-2^63] (the result of the conversion
    instruction of x86-64). *)
Definition to_long (x : t) : Z :=
  match x with
  | S754_zero _ => 0
  | S754_finite _ _ _ =>
      let z := Tensor.to_long (to_Q x) in
      if (- 2 ^ 63 <=? z) && (z <? 2 ^ 63) then z else - 2 ^ 63
  | _ => - 2 ^ 63
  end.

End F32.

(** *** The length regulator on float32 durations *)

(** Two's complement wrap-around of int64 arithmetic. *)
Definition wrap64 (z : Z) : Z := (z + 2 ^ 63) mod 2 ^ 64 - 2 ^ 63.

(** [(durations.float() / pace + 0.5).long()] for one token, [pace] being
    the float32 value of the scalar; the division is the IEEE division of
    the CPU kernel. *)
Definition adjusted_f32 (pace d : F32.t) : Z :=
  F32.to_long (F32.add (F32.div d pace) F32.half).

(** [regulate_len] with the adjusted durations computed in float32 and the
    lengths in int64.  The cumulative sums are compared as integers: their
    conversion to the feature dtype is exact up to [2^24]. *)
Definition regulate_len_f32 (durations : list (list F32.t))
    (enc_out : list (list (list Q))) (pace : F32.t) (mel_max_len : option nat)
  : result (list (list (list Q)) * list Z) :=
  let reps := map (map (adjusted_f32 pace)) durations in
  let dec_lens := map (fun r => wrap64 (sumZ r)) reps in
  max_len ← tensor_max dec_lens;
  let reps_cumsum :=
    map (fun r => cumsum (fun a b => wrap64 (a + b)) (0 :: r)) reps in
  range_ ← arange max_len;
  let mult := map (fun cs => (length (tail cs), map (frame_mask cs) range_)) reps_cumsum in
  pairs ← broadcast mult enc_out;
  enc_rep ←
    if forallb (fun '((l, _), e) => (l =? length e)%nat) pairs
    then Ok (map (fun '((_, m), e) => map (fun row => matmul_row row e) m) pairs)
    else Raise RuntimeError;
  match mel_max_len with
  | None => Ok (enc_rep, dec_lens)
  | Some cap => Ok (map (take cap) enc_rep, map (Z.min (Z.of_nat cap)) dec_lens)
  end.

(** *** The averager on a float32 signal *)

(** [average_pitch] on a float32 signal: the running sums, their differences
    and the quotients are float32 operations, the counts of non-zero frames
    are integers.  The test [pitch_nelems == 0.0] is made on the integer
    count, whose conversion to float32 is zero only for the count 0. *)
Definition average_pitch_f32 (pitch : list (list (list F32.t))) (durs : list (list Z))
  : result (list (list (list F32.t))) :=
  let durs_cums_ends := map (cumsum Z.add) durs in
  let durs_cums_starts := map (fun ends => 0 :: removelast ends) durs_cums_ends in
  let pitch_nonzero_cums :=
    map (map (fun row => 0 :: cumsum Z.add (map F32.nonzero row))) pitch in
  let pitch_cums := map (map (fun row => F32.zero :: cumsum F32.add row)) pitch in
  sums_e ← gather3 pitch_cums durs_cums_ends;
  sums_s ← gather3 pitch_cums durs_cums_starts;
  let pitch_sums := zip_with3 F32.sub sums_e sums_s in
  nelems_e ← gather3 pitch_nonzero_cums durs_cums_ends;
  nelems_s ← gather3 pitch_nonzero_cums durs_cums_starts;
  let pitch_nelems := zip_with3 Z.sub nelems_e nelems_s in
  let pitch_avg :=
    zip_with3 (fun n s => if n =? 0 then F32.of_Z n else F32.div s (F32.of_Z n))
              pitch_nelems pitch_sums in
  Ok pitch_avg.

(** The float32 running sum of the frames [l], as [torch.cumsum] on the
    padded signal has it: 0 for no frame, then one addition per frame. *)
Definition fsum (l : list F32.t) : F32.t :=
  match l with
  | [] => F32.zero
  | x :: l' => foldl F32.add x l'
  end.

(** The frames of token [k] of a float32 channel. *)
Definition tok_frames_f32 (row : list F32.t) (d : list Z) (k : nat) : list F32.t :=
  take (Z.to_nat (default 0 (d !! k))) (drop (Z.to_nat (tok_start d k)) row).

(** Shapes accepted by the averager, for a float32 signal. *)
Definition durs_fit_f32 (durs : list (list Z)) (pitch : list (list (list F32.t))) : Prop :=
  Forall2 (fun d chans =>
             Forall (fun x => 0 <= x) d
             /\ Forall (fun row => sumZ d <= Z.of_nat (length row)) chans)
          durs pitch.

(** Closed forms for the float32 averager: an entry of a padded running-sum
    row as fetched by [gather], one output entry, and one channel. *)
Definition lookF (row : list F32.t) (i : Z) : F32.t :=
  default F32.zero (row !! Z.to_nat i).

Definition avg_entry_f32 (n : Z) (s : F32.t) : F32.t :=
  if n =? 0 then F32.of_Z n else F32.div s (F32.of_Z n).

Definition ncums_f32 (row : list F32.t) : list Z :=
  0 :: cumsum Z.add (map F32.nonzero row).

Definition cums_f32 (row : list F32.t) : list F32.t :=
  F32.zero :: cumsum F32.add row.

Definition row_avg_f32 (row : list F32.t) (d : list Z) : list F32.t :=
  let ends := cumsum Z.add d in
  let starts := 0 :: removelast ends in
  zip_with avg_entry_f32
    (zip_with Z.sub (map (lookZ (ncums_f32 row)) ends) (map (lookZ (ncums_f32 row)) starts))
    (zip_with F32.sub (map (lookF (cums_f32 row)) ends) (map (lookF (cums_f32 row)) starts)).

(** *** Side data as the caller passes it

    An array of the side-data bundle before its conversion to a tensor: a
    list of numbers, or a list of lists of numbers. *)
Inductive py_array : Type :=
| PyFlat (xs : list Q)
| PyNested (xss : list (list Q)).

(** [len(x)]. *)
Definition py_len (x : py_array) : nat :=
  match x with
  | PyFlat xs => length xs
  | PyNested xss => length xss
  end.

(** [x = torch.tensor(x); x.view((1, x.shape[0]))]: a nested list whose rows
    differ in length is no tensor; a view of [shape[0]] entries exists only
    when the tensor has that many entries. *)
Definition to_row (x : py_array) : result (list Q) :=
  match x with
  | PyFlat xs => Ok xs
  | PyNested xss =>
      let c := length (default [] (head xss)) in
      if negb (forallb (fun r => (length r =? c)%nat) xss) then Raise ValueError
      else if (length (concat xss) =? length xss)%nat then Ok (concat xss)
      else Raise RuntimeError
  end.

(** Line 412, for one array of the bundle. *)
Definition py_present (x : option py_array) : bool :=
  match x with
  | Some a => negb (py_len a =? 0)%nat
  | None => false
  end.

Definition py_usable
    (pitch_data : option (option py_array * option py_array * option py_array)) : bool :=
  match pitch_data with
  | Some (pitch_pred, dur_pred, energy_pred) =>
      py_present pitch_pred && py_present dur_pred && py_present energy_pred
  | None => false
  end.

(** The same for an array that may be [None], of which [torch.tensor]
    cannot infer a dtype. *)
Definition to_row_opt (x : option py_array) : result (list Q) :=
  match x with
  | Some a => to_row a
  | None => Raise RuntimeError
  end.

(** Lines 414-419: the conversions, in the order of the source. *)
Definition convert_bundle (pitch_pred dur_pred energy_pred : option py_array)
  : result (list Q * list Q * list Q) :=
  dur_pred ← to_row_opt dur_pred;
  pitch_pred ← to_row_opt pitch_pred;
  energy_pred ← to_row_opt energy_pred;
  Ok (pitch_pred, dur_pred, energy_pred).

(** [infer_advanced] on the bundle as the caller passes it: the conversions
    of lines 413-419 come before the [try] of line 423. *)
Definition infer_advanced_py {Mask Mel Text : Type}
    (self : FastPitch Mask Mel) (plugin_manager : PluginManager Text)
    (cleaned_text : Text) (inputs : list Z)
    (speaker_i : option Z) (pace : Q)
    (pitch_data : option (option py_array * option py_array * option py_array))
    (max_duration : Q) (old_sequence : option (list Z))
  : result (Inferred Mel) :=
  let '(enc_out, enc_mask) := encoder inputs speaker_i in
  match pitch_data with
  | Some (pitch_pred, dur_pred, energy_pred) =>
      if py_present pitch_pred && py_present dur_pred && py_present energy_pred then
        '(pitch_pred, dur_pred, energy_pred) ←
          convert_bundle pitch_pred dur_pred energy_pred;
        match infer_using_vals self plugin_manager cleaned_text pace enc_out max_duration
                enc_mask (Some dur_pred) (Some pitch_pred) (Some energy_pred)
                old_sequence (Some inputs) with
        | Ok r => Ok r
        | Raise _ =>
            infer_using_vals self plugin_manager cleaned_text pace enc_out max_duration
              enc_mask None None None None None
        end
      else
        infer_using_vals self plugin_manager cleaned_text pace enc_out max_duration
          enc_mask None None None None None
  | None =>
      infer_using_vals self plugin_manager cleaned_text pace enc_out max_duration
        enc_mask None None None None None
  end.

(** ** Proofs: length regulator *)

Section RegulateLen.

Lemma to_long_floor q : (0 <= q)%Q -> to_long q = Qfloor q.
Proof.
  destruct q as [n d]. unfold Qle, to_long, Qfloor. simpl. intros H.
  apply Z.quot_div_nonneg; lia.
Qed.

Lemma adjusted_floor pace d :
  (0 < pace)%Q -> (0 <= d)%Q -> adjusted pace d = Qfloor (d / pace + (1 # 2)).
Proof.
  intros Hp Hd. unfold adjusted. apply to_long_floor.
  assert (0 <= d / pace)%Q by (apply Qle_shift_div_l; lra).
  lra.
Qed.

Lemma adjusted_nonneg pace d :
  (0 < pace)%Q -> (0 <= d)%Q -> 0 <= adjusted pace d.
Proof.
  intros Hp Hd. rewrite adjusted_floor by done.
  assert (0 <= d / pace)%Q by (apply Qle_shift_div_l; lra).
  change 0 with (Qfloor 0). apply Qfloor_resp_le. lra.
Qed.

Lemma frame_mask_scan a r t :
  frame_mask (a :: scan Z.add a r) t = mask_from a r t.
Proof.
  revert a. induction r as [|x r IH]; intros a; [done|].
  unfold frame_mask in *. cbn [scan tail mask_from].
  specialize (IH (a + x)). cbn [tail] in IH.
  change (removelast (a :: (a + x) :: scan Z.add (a + x) r))
    with (a :: removelast ((a + x) :: scan Z.add (a + x) r)).
  cbn [zip_with]. by rewrite IH.
Qed.

Lemma frame_mask_cumsum r t :
  frame_mask (cumsum Z.add (0 :: r)) t = mask_from 0 r t.
Proof. apply frame_mask_scan. Qed.

Lemma length_scan {A} (add : A -> A -> A) a l : length (scan add a l) = length l.
Proof. revert a. induction l; intros; simpl; auto. Qed.

Lemma sumZ_nonneg r : Forall (fun x => 0 <= x) r -> 0 <= sumZ r.
Proof. induction 1; simpl; lia. Qed.

(** A frame outside the intervals of [r] selects nothing. *)
Lemma dot_mask_outside acc r t col :
  Forall (fun x => 0 <= x) r ->
  t < acc \/ acc + sumZ r <= t ->
  (dot (mask_from acc r t) col == 0)%Q.
Proof.
  intros Hr. revert acc col. induction Hr as [|x r Hx Hr IH]; intros acc col Ht.
  - reflexivity.
  - destruct col as [|c col]; [reflexivity|].
    cbn [mask_from]. unfold dot. cbn [zip_with sumQ foldr].
    fold (sumQ (zip_with Qmult (mask_from (acc + x) r t) col)).
    fold (dot (mask_from (acc + x) r t) col).
    rewrite IH by (cbn [sumZ foldr] in Ht; fold (sumZ r) in Ht; lia).
    assert (((acc <=? t) && (acc + x >? t)) = false) as ->.
    { cbn [sumZ foldr] in Ht; fold (sumZ r) in Ht.
      pose proof (sumZ_nonneg r Hr).
      apply andb_false_iff. destruct Ht; [left|right]; lia. }
    simpl. ring.
Qed.

Lemma tok_start_cons x r k : tok_start (x :: r) (S k) = x + tok_start r k.
Proof. reflexivity. Qed.

Lemma tok_end_cons x r k : tok_end (x :: r) (S k) = x + tok_end r k.
Proof. reflexivity. Qed.

Lemma tok_start_nonneg r k : Forall (fun x => 0 <= x) r -> 0 <= tok_start r k.
Proof. intros Hr. apply sumZ_nonneg. by apply Forall_take. Qed.

Lemma tok_start_mono r k k' :
  Forall (fun x => 0 <= x) r -> (k <= k')%nat -> tok_start r k <= tok_start r k'.
Proof.
  intros Hr. revert k k'. induction Hr as [|x r Hx Hr IH]; intros k k' Hk.
  - unfold tok_start. by rewrite !take_nil.
  - destruct k as [|k].
    + apply (tok_start_nonneg (x :: r) k'). by constructor.
    + destruct k' as [|k']; [lia|]. rewrite !tok_start_cons.
      specialize (IH k k'). lia.
Qed.

(** A frame below the total length is owned by some token... *)
Lemma owner_exists r t :
  Forall (fun x => 0 <= x) r -> 0 <= t < sumZ r ->
  exists k, (k < length r)%nat /\ owns r k t.
Proof.
  intros Hr. revert t. induction Hr as [|x r Hx Hr IH]; intros t Ht.
  - simpl in Ht. lia.
  - cbn [sumZ foldr] in Ht; fold (sumZ r) in Ht.
    destruct (decide (t < x)) as [Hlt|Hge].
    + exists 0%nat. split; [simpl; lia|]. unfold owns, tok_start, tok_end. simpl. lia.
    + destruct (IH (t - x)) as (k & Hk & Hown); [lia|].
      exists (S k). split; [simpl; lia|]. unfold owns in *.
      rewrite tok_start_cons, tok_end_cons. lia.
Qed.

(** ... and by no other. *)
Lemma owner_unique r t k k' :
  Forall (fun x => 0 <= x) r -> owns r k t -> owns r k' t -> k = k'.
Proof.
  intros Hr [H1 H2] [H3 H4].
  destruct (Nat.lt_trichotomy k k') as [Hlt|[->|Hlt]]; [|done|].
  - pose proof (tok_start_mono r (S k) k' Hr Hlt) as Hm.
    unfold tok_end in H2. unfold tok_start in Hm, H3. lia.
  - pose proof (tok_start_mono r (S k') k Hr Hlt) as Hm.
    unfold tok_end in H4. unfold tok_start in Hm, H1. lia.
Qed.

(** The mask of a frame picks the entry of the token that owns it. *)
Lemma dot_mask_owned acc r t col k c :
  Forall (fun x => 0 <= x) r ->
  col !! k = Some c ->
  acc + tok_start r k <= t < acc + tok_end r k ->
  (dot (mask_from acc r t) col == c)%Q.
Proof.
  intros Hr. revert acc col k.
  induction Hr as [|x r Hx Hr IH]; intros acc col k Hk Ht.
  - unfold tok_start, tok_end in Ht. rewrite !take_nil in Ht. simpl in Ht. lia.
  - destruct col as [|c0 col]; [done|].
    cbn [mask_from]. unfold dot. cbn [zip_with sumQ foldr].
    fold (sumQ (zip_with Qmult (mask_from (acc + x) r t) col)).
    fold (dot (mask_from (acc + x) r t) col).
    destruct k as [|k].
    + injection Hk as ->. unfold tok_start, tok_end in Ht. simpl in Ht.
      rewrite (dot_mask_outside (acc + x) r t col) by (auto; lia).
      assert (((acc <=? t) && (acc + x >? t)) = true) as ->.
      { apply andb_true_iff. lia. }
      simpl. ring.
    + rewrite tok_start_cons, tok_end_cons in Ht.
      pose proof (tok_start_nonneg r k Hr).
      rewrite (IH (acc + x) col k) by (auto; lia).
      assert (((acc <=? t) && (acc + x >? t)) = false) as ->.
      { apply andb_false_iff. right. lia. }
      simpl. ring.
Qed.

Lemma veq_map_seq (f : nat -> Q) v :
  (forall d x, v !! d = Some x -> (f d == x)%Q) ->
  veq (map f (seq 0 (length v))) v.
Proof.
  intros H. apply Forall2_same_length_lookup. split.
  { by rewrite length_map, length_seq. }
  intros d y x Hy Hx. rewrite list_lookup_fmap in Hy.
  destruct (seq 0 (length v) !! d) as [d'|] eqn:Hd; [|done].
  apply lookup_seq in Hd as [-> _]. injection Hy as <-. by apply H.
Qed.

Lemma column_lookup d e k v :
  e !! k = Some v -> column d e !! k = Some (default 0%Q (v !! d)).
Proof. intros H. unfold column. by rewrite list_lookup_fmap, H. Qed.

(** Frames below the sample's length copy the owning token's features. *)
Lemma matmul_row_owned r e t k v :
  Forall (fun x => 0 <= x) r -> rect e ->
  e !! k = Some v -> owns r k t ->
  veq (matmul_row (mask_from 0 r t) e) v.
Proof.
  intros Hr He Hk Hown. unfold matmul_row.
  assert (width e = length v) as ->.
  { unfold rect in He. rewrite Forall_lookup in He. symmetry. by eapply He. }
  apply veq_map_seq. intros d x Hx.
  rewrite (dot_mask_owned 0 r t (column d e) k (default 0%Q (v !! d)));
    [by rewrite Hx | done | by apply column_lookup | unfold owns in Hown; lia].
Qed.

(** Frames at or beyond the sample's length are zero. *)
Lemma matmul_row_outside r e t :
  Forall (fun x => 0 <= x) r -> sumZ r <= t ->
  veq (matmul_row (mask_from 0 r t) e) (replicate (width e) 0%Q).
Proof.
  intros Hr Ht. unfold matmul_row, veq.
  apply Forall2_same_length_lookup. split.
  { by rewrite length_map, length_seq, length_replicate. }
  intros d y x Hy Hx. apply lookup_replicate in Hx as [-> _].
  rewrite list_lookup_fmap in Hy.
  destruct (seq 0 (width e) !! d) as [d'|]; [|done]. injection Hy as <-.
  apply dot_mask_outside; auto.
Qed.

Lemma tensor_max_ok l : l <> [] -> exists m, tensor_max l = Ok m.
Proof. destruct l; [done|]. eauto. Qed.

Lemma foldr_max_ge x l : x <= foldr Z.max x l /\ Forall (fun y => y <= foldr Z.max x l) l.
Proof.
  induction l as [|y l [IH1 IH2]]; simpl; [split; [lia|constructor]|].
  split; [lia|]. constructor; [lia|].
  eapply Forall_impl; [|exact IH2]. simpl. intros; lia.
Qed.

Lemma tensor_max_ge l m x : tensor_max l = Ok m -> In x l -> x <= m.
Proof.
  destruct l as [|y l]; [done|]. simpl. intros [= <-] Hx.
  destruct (foldr_max_ge y l) as [H1 H2].
  destruct Hx as [->|Hx]; [done|].
  rewrite Forall_forall in H2. by apply H2.
Qed.

Lemma tensor_max_clamp c l m :
  tensor_max l = Ok m -> tensor_max (map (Z.min c) l) = Ok (Z.min c m).
Proof.
  destruct l as [|y l]; [done|]. simpl. intros [= <-]. f_equal.
  induction l as [|z l IH]; simpl; [done|]. rewrite IH. lia.
Qed.

Lemma broadcast_same_length {A B} (xs : list A) (ys : list B) :
  length xs = length ys -> broadcast xs ys = Ok (zip xs ys).
Proof.
  intros H. unfold broadcast.
  destruct xs as [|x [|x' xs]], ys as [|y [|y' ys]]; try done;
    simpl in H; try lia.
  assert ((length (x :: x' :: xs) =? length (y :: y' :: ys))%nat = true) as ->; [|done].
  apply Nat.eqb_eq. simpl. lia.
Qed.

(** Closed form of [regulate_len] on tensors of matching shapes. *)
Lemma regulate_len_run durations enc_out pace mel_max_len mx :
  Forall2 (fun d e => length d = length e) durations enc_out ->
  tensor_max (lens_of pace durations) = Ok mx ->
  0 <= mx ->
  regulate_len durations enc_out pace mel_max_len =
    Ok (match mel_max_len with
        | None => (zip_with (frames_of pace mx) durations enc_out,
                   lens_of pace durations)
        | Some cap => (map (take cap) (zip_with (frames_of pace mx) durations enc_out),
                       map (Z.min (Z.of_nat cap)) (lens_of pace durations))
        end).
Proof.
  intros Hshape Hmax Hmx. unfold regulate_len.
  assert (map sumZ (map (map (adjusted pace)) durations) = lens_of pace durations) as ->.
  { unfold lens_of. by rewrite map_map. }
  rewrite Hmax. cbn [mbind result_bind].
  unfold arange. destruct (Z.ltb_spec mx 0) as [|_]; [lia|]. cbn [mbind result_bind].
  rewrite broadcast_same_length
    by (rewrite !length_map; by eapply Forall2_length).
  cbn [mbind result_bind].
  set (mult := map _ (map _ (map _ durations))).
  assert (forallb (fun '(l, _, e) => (l =? length e)%nat) (zip mult enc_out) = true
          /\ map (fun '(_, m, e) => map (fun row => matmul_row row e) m) (zip mult enc_out)
             = zip_with (frames_of pace mx) durations enc_out) as [-> ->].
  { subst mult. clear Hmax. induction Hshape as [|d e ds es Hlen _ [IH1 IH2]]; [done|].
    cbn [map zip zip_with forallb]. rewrite IH1, IH2. split.
    - rewrite andb_true_r. apply Nat.eqb_eq.
      cbn [cumsum tail]. by rewrite length_scan, length_map.
    - f_equal. unfold frames_of. rewrite map_map.
      apply map_ext. intros t. by rewrite frame_mask_cumsum. }
  by destruct mel_max_len.
Qed.

Lemma frames_of_lookup pace mx d e (t : nat) row :
  frames_of pace mx d e !! t = Some row ->
  Z.of_nat t < mx
  /\ row = matmul_row (mask_from 0 (map (adjusted pace) d) (Z.of_nat t)) e.
Proof.
  unfold frames_of. rewrite list_lookup_fmap.
  destruct (seqZ 0 mx !! t) as [z|] eqn:Hz; [|done].
  apply lookup_seqZ in Hz as [-> Hlt]. intros [= <-]. split; [lia|].
  by rewrite Z.add_0_l.
Qed.

Lemma reps_nonneg pace d :
  (0 < pace)%Q -> Forall (fun x => (0 <= x)%Q) d ->
  Forall (fun x => 0 <= x) (map (adjusted pace) d).
Proof.
  intros Hp Hd. apply Forall_map. eapply Forall_impl; [|exact Hd].
  intros x Hx. by apply adjusted_nonneg.
Qed.

Lemma frames_of_spec pace mx d e (t : nat) row :
  (0 < pace)%Q -> Forall (fun x => (0 <= x)%Q) d ->
  length d = length e -> rect e ->
  frames_of pace mx d e !! t = Some row ->
  let r := map (adjusted pace) d in
  (Z.of_nat t < sumZ r ->
     exists k v, e !! k = Some v /\ owns r k (Z.of_nat t)
       /\ (forall k', owns r k' (Z.of_nat t) -> k' = k) /\ veq row v)
  /\ (sumZ r <= Z.of_nat t -> veq row (replicate (width e) 0%Q)).
Proof.
  intros Hp Hd Hlen He Hrow r.
  apply frames_of_lookup in Hrow as [_ ->]. fold r.
  pose proof (reps_nonneg pace d Hp Hd) as Hr. fold r in Hr.
  split.
  - intros Ht. destruct (owner_exists r (Z.of_nat t) Hr) as (k & Hk & Hown); [lia|].
    assert (is_Some (e !! k)) as [v Hv].
    { apply lookup_lt_is_Some. subst r. rewrite length_map in Hk. lia. }
    exists k, v. split; [done|]. split; [done|]. split.
    + intros k' Hk'. by eapply owner_unique.
    + by eapply matmul_row_owned.
  - intros Ht. by apply matmul_row_outside.
Qed.

End RegulateLen.

(** ** Claims about the length regulator *)


(** C8: a sample whose adjusted durations are all 0 does not make
    [regulate_len] raise, and its reported output length is 0. *)
Theorem regulate_len_all_zero_sample
    (durations : list (list Q)) (enc_out : list (list (list Q)))
    (pace : Q) (mel_max_len : option nat) (b : nat) (d : list Q) :
  (0 < pace)%Q ->
  Forall2 (fun d e => length d = length e) durations enc_out ->
  durations !! b = Some d ->
  Forall (fun x => adjusted pace x = 0) d ->
  exists enc_rep dec_lens,
    regulate_len durations enc_out pace mel_max_len = Ok (enc_rep, dec_lens)
    /\ dec_lens !! b = Some 0
    /\ forall m, enc_rep !! b = Some m ->
         Forall (fun row => Forall (fun x => (x == 0)%Q) row) m.
Proof.
  intros _ Hshape Hb Hz.
  assert (sumZ (map (adjusted pace) d) = 0) as Hsum.
  { clear Hb. induction Hz as [|x d Hx _ IH]; [done|]. simpl. rewrite Hx. exact IH. }
  assert (lens_of pace durations !! b = Some 0) as Hlb.
  { unfold lens_of. by rewrite list_lookup_fmap, Hb, <- Hsum. }
  destruct (tensor_max_ok (lens_of pace durations)) as [mx Hmx].
  { intros Hnil. by rewrite Hnil in Hlb. }
  assert (0 <= mx) as Hmx0.
  { eapply tensor_max_ge; [exact Hmx|]. apply list_elem_of_In.
    by eapply list_elem_of_lookup_2. }
  rewrite (regulate_len_run _ _ _ _ mx Hshape Hmx Hmx0).
  assert (forall m, zip_with (frames_of pace mx) durations enc_out !! b = Some m ->
            Forall (fun row => Forall (fun x => (x == 0)%Q) row) m) as Hrows.
  { intros m Hm. rewrite lookup_zip_with, Hb in Hm. simpl in Hm.
    destruct (enc_out !! b) as [e|]; [|done]. injection Hm as <-.
    apply Forall_lookup. intros t row Hrow.
    apply frames_of_lookup in Hrow as [_ ->].
    assert (Forall (fun x => 0 <= x) (map (adjusted pace) d)) as Hr.
    { apply Forall_map. eapply Forall_impl; [|exact Hz]. simpl. intros; lia. }
    pose proof (matmul_row_outside _ e (Z.of_nat t) Hr ltac:(lia)) as Hv.
    unfold veq in Hv. apply Forall_lookup. intros i x Hx.
    destruct (Forall2_lookup_l _ _ _ _ _ Hv Hx) as (z & Hz' & Hxz).
    apply lookup_replicate in Hz' as [-> _]. exact Hxz. }
  destruct mel_max_len as [cap|]; eexists _, _; (split; [reflexivity|]); split.
  - rewrite list_lookup_fmap, Hlb. simpl. f_equal. lia.
  - intros m Hm. rewrite list_lookup_fmap in Hm.
    destruct (zip_with _ _ _ !! b) as [m0|] eqn:Hm0; [|done]. injection Hm as <-.
    apply Forall_take. by apply Hrows.
  - exact Hlb.
  - exact Hrows.
Qed.

Lemma regulate_len_all_zero_sample_witness :
  exists enc_rep dec_lens,
    regulate_len [[2; 3]; [40; 49]]%Q [[[7; 8]; [9; 10]]; [[1; 2]; [3; 4]]]%Q 100 None
    = Ok (enc_rep, dec_lens) /\ dec_lens = [0; 0].
Proof.
  destruct (regulate_len_all_zero_sample
              [[2; 3]; [40; 49]]%Q [[[7; 8]; [9; 10]]; [[1; 2]; [3; 4]]]%Q 100 None
              1%nat [40; 49]%Q)
    as (enc_rep & dec_lens & H & _).
  - reflexivity.
  - repeat constructor.
  - reflexivity.
  - repeat constructor.
  - exists enc_rep, dec_lens. split; [exact H|].
    vm_compute in H. by injection H as _ <-.
Defined.


(** ** Proofs: interval averager *)

Section AveragePitch.

Lemma mapR_ok {A B} (f : A -> result B) (g : A -> B) l :
  Forall (fun x => f x = Ok (g x)) l -> mapR f l = Ok (map g l).
Proof.
  induction 1 as [|x l Hx _ IH]; [done|].
  cbn [mapR map]. rewrite Hx, IH. reflexivity.
Qed.

Lemma gather_ok {A} (dflt : A) (row : list A) (index : list Z) :
  Forall (fun i => 0 <= i < Z.of_nat (length row)) index ->
  gather row index = Ok (map (fun i => default dflt (row !! Z.to_nat i)) index).
Proof.
  intros H. apply mapR_ok. eapply Forall_impl; [|exact H].
  intros i [Hi1 Hi2]. simpl.
  destruct (Z.ltb_spec i 0) as [|_]; [lia|].
  destruct (lookup_lt_is_Some_2 row (Z.to_nat i)) as [x ->]; [lia|done].
Qed.

Lemma gather3_ok {A} (dflt : A) (input : list (list (list A))) (index : list (list Z)) :
  Forall2 (fun idx chans =>
             Forall (fun row => Forall (fun i => 0 <= i < Z.of_nat (length row)) idx) chans)
          index input ->
  gather3 input index =
    Ok (zip_with (fun idx chans =>
                    map (fun row => map (fun i => default dflt (row !! Z.to_nat i)) idx) chans)
                 index input).
Proof.
  intros H. unfold gather3.
  destruct (Nat.ltb_spec (length input) (length index)) as [Hlt|_].
  { apply Forall2_length in H. lia. }
  induction H as [|idx chans index input Hc _ IH]; [done|].
  cbn [zip zip_with mapR]. rewrite IH.
  rewrite (mapR_ok _ (fun row => map (fun i => default dflt (row !! Z.to_nat i)) idx)).
  - reflexivity.
  - eapply Forall_impl; [|exact Hc]. intros row Hrow. by apply gather_ok.
Qed.

Lemma cumsum_Z_scan l : cumsum Z.add l = scan Z.add 0 l.
Proof. by destruct l. Qed.

Lemma scan_lookup_Z acc l (n : nat) :
  (n < length l)%nat -> scan Z.add acc l !! n = Some (acc + sumZ (take (S n) l)).
Proof.
  revert acc n. induction l as [|x l IH]; intros acc n Hn; simpl in Hn; [lia|].
  destruct n as [|n].
  - simpl. f_equal. lia.
  - cbn [scan lookup list_lookup]. rewrite IH by lia.
    f_equal. cbn [take sumZ foldr]. fold (sumZ (take (S n) l)). lia.
Qed.

Lemma padded_cumsum_Z l (n : nat) :
  (n <= length l)%nat -> (0 :: cumsum Z.add l) !! n = Some (sumZ (take n l)).
Proof.
  intros Hn. destruct n as [|n]; [done|].
  rewrite cumsum_Z_scan. cbn [lookup list_lookup].
  rewrite scan_lookup_Z by lia. by rewrite Z.add_0_l.
Qed.

Lemma scan_lookup_Q acc l (n : nat) :
  (n < length l)%nat ->
  exists q, scan Qplus acc l !! n = Some q /\ (q == acc + sumQ (take (S n) l))%Q.
Proof.
  revert acc n. induction l as [|x l IH]; intros acc n Hn; simpl in Hn; [lia|].
  destruct n as [|n].
  - exists (acc + x)%Q. split; [done|]. simpl. ring.
  - destruct (IH (acc + x)%Q n) as (q & Hq & Heq); [lia|].
    exists q. split; [exact Hq|]. rewrite Heq.
    cbn [take sumQ foldr]. fold (sumQ (take (S n) l)). ring.
Qed.

Lemma padded_cumsum_Q l (n : nat) :
  (n <= length l)%nat ->
  exists q, (0%Q :: cumsum Qplus l) !! n = Some q /\ (q == sumQ (take n l))%Q.
Proof.
  intros Hn. destruct n as [|n].
  { exists 0%Q. done. }
  destruct l as [|x l]; [simpl in Hn; lia|].
  destruct n as [|n].
  { exists x. split; [done|]. simpl. ring. }
  destruct (scan_lookup_Q x l n) as (q & Hq & Heq); [simpl in Hn; lia|].
  exists q. split; [exact Hq|]. rewrite Heq. reflexivity.
Qed.

Lemma take_add {A} (l : list A) (a b : nat) :
  take (a + b) l = take a l ++ take b (drop a l).
Proof.
  revert l. induction a as [|a IH]; intros [|x l]; simpl; try done.
  - by rewrite take_nil.
  - by rewrite IH.
Qed.

Lemma sumQ_app l1 l2 : (sumQ (l1 ++ l2) == sumQ l1 + sumQ l2)%Q.
Proof.
  induction l1 as [|x l1 IH]; simpl; [ring|].
  fold (sumQ (l1 ++ l2)). fold (sumQ l1). rewrite IH. ring.
Qed.

Lemma sumZ_app l1 l2 : sumZ (l1 ++ l2) = sumZ l1 + sumZ l2.
Proof.
  induction l1 as [|x l1 IH]; simpl; [done|].
  fold (sumZ (l1 ++ l2)). fold (sumZ l1). lia.
Qed.

(** Zero frames contribute nothing to the sum and are not counted. *)
Lemma sumQ_voiced l :
  (sumQ l == sumQ (List.filter (fun p => negb (Qeq_bool p 0)) l))%Q.
Proof.
  induction l as [|x l IH]; [reflexivity|].
  cbn [sumQ foldr List.filter]. fold (sumQ l). rewrite IH.
  destruct (Qeq_bool x 0) eqn:Hx; cbn [negb].
  - apply Qeq_bool_eq in Hx. rewrite Hx. unfold sumQ. apply Qplus_0_l.
  - reflexivity.
Qed.

Lemma count_voiced l :
  sumZ (map nonzero l) = Z.of_nat (length (List.filter (fun p => negb (Qeq_bool p 0)) l)).
Proof.
  induction l as [|x l IH]; [reflexivity|].
  cbn [map sumZ foldr List.filter]. fold (sumZ (map nonzero l)). rewrite IH.
  unfold nonzero. destruct (Qeq_bool x 0); simpl; lia.
Qed.

Lemma zip_with_steps {A} (f : Z -> Z -> A) acc d :
  zip_with f (scan Z.add acc d) (acc :: removelast (scan Z.add acc d)) = steps f acc d.
Proof.
  revert acc. induction d as [|x d IH]; intros acc; [done|].
  cbn [scan steps]. rewrite <- IH. destruct d as [|y d]; [done|].
  reflexivity.
Qed.

Lemma zip_with_quad {A B C D E} (h : C -> D -> E) (g1 : A -> A -> C) (g2 : B -> B -> D)
    (c : Z -> A) (p : Z -> B) (es ss : list Z) :
  zip_with h (zip_with g1 (map c es) (map c ss)) (zip_with g2 (map p es) (map p ss))
  = zip_with (fun e s => h (g1 (c e) (c s)) (g2 (p e) (p s))) es ss.
Proof.
  revert ss. induction es as [|e es IH]; intros [|s ss]; simpl; try done.
  by rewrite IH.
Qed.

Lemma row_avg_steps row d : row_avg row d = steps (tok_avg row) 0 d.
Proof.
  unfold row_avg. cbv zeta. rewrite zip_with_quad, (cumsum_Z_scan d).
  apply zip_with_steps.
Qed.

Lemma lookZ_prefix row (n : Z) :
  0 <= n <= Z.of_nat (length row) ->
  lookZ (ncums row) n = sumZ (map nonzero (take (Z.to_nat n) row)).
Proof.
  intros Hn. unfold lookZ, ncums.
  rewrite padded_cumsum_Z by (rewrite length_map; lia).
  simpl. by rewrite firstn_map.
Qed.

Lemma lookQ_prefix row (n : Z) :
  0 <= n <= Z.of_nat (length row) ->
  (lookQ (cums row) n == sumQ (take (Z.to_nat n) row))%Q.
Proof.
  intros Hn. unfold lookQ, cums.
  destruct (padded_cumsum_Q row (Z.to_nat n)) as (q & -> & Hq); [lia|]. exact Hq.
Qed.

Lemma avg_entry_compat n s s' :
  (s == s')%Q -> (avg_entry n s == avg_entry n s')%Q.
Proof.
  intros H. unfold avg_entry. destruct (n =? 0); [reflexivity|].
  by rewrite H.
Qed.

(** One token: the prefix-sum differences give the mean of the voiced
    frames of the token's interval. *)
Lemma tok_avg_mean row (a x : Z) :
  0 <= a -> 0 <= x -> a + x <= Z.of_nat (length row) ->
  (tok_avg row (a + x) a
   == mean_nonzero (take (Z.to_nat x) (drop (Z.to_nat a) row)))%Q.
Proof.
  intros Ha Hx Hlen. unfold tok_avg.
  set (slice := take (Z.to_nat x) (drop (Z.to_nat a) row)).
  assert (lookQ (cums row) (a + x) - lookQ (cums row) a
          == sumQ (List.filter (fun p => negb (Qeq_bool p 0)) slice))%Q as Hs.
  { rewrite !lookQ_prefix by lia.
    rewrite Z2Nat.inj_add, take_add, sumQ_app by lia.
    fold slice. rewrite <- sumQ_voiced. ring. }
  rewrite (avg_entry_compat _ _ _ Hs).
  rewrite !lookZ_prefix by lia.
  rewrite Z2Nat.inj_add, take_add, map_app, sumZ_app by lia. fold slice.
  replace (sumZ (map nonzero (take (Z.to_nat a) row)) + sumZ (map nonzero slice)
           - sumZ (map nonzero (take (Z.to_nat a) row)))
    with (sumZ (map nonzero slice)) by lia.
  rewrite count_voiced.
  unfold mean_nonzero, avg_entry. cbv zeta.
  destruct (List.filter (fun p => negb (Qeq_bool p 0)) slice) as [|v voiced]; [done|].
  destruct (Z.eqb_spec (Z.of_nat (length (v :: voiced))) 0) as [H0|_]; [simpl in H0; lia|].
  reflexivity.
Qed.

Lemma steps_means row acc d :
  0 <= acc -> Forall (fun x => 0 <= x) d ->
  acc + sumZ d <= Z.of_nat (length row) ->
  veq (steps (tok_avg row) acc d) (interval_means (drop (Z.to_nat acc) row) d).
Proof.
  intros Hacc Hd. revert acc Hacc.
  induction Hd as [|x d Hx Hd IH]; intros acc Hacc Hlen; [constructor|].
  cbn [sumZ foldr] in Hlen. fold (sumZ d) in Hlen.
  pose proof (sumZ_nonneg d Hd).
  cbn [steps interval_means]. constructor.
  - apply tok_avg_mean; lia.
  - rewrite drop_drop, <- Z2Nat.inj_add by lia. apply IH; lia.
Qed.

(** One channel of one sample. *)
Lemma row_avg_means row d :
  Forall (fun x => 0 <= x) d -> sumZ d <= Z.of_nat (length row) ->
  veq (row_avg row d) (interval_means row d).
Proof.
  intros Hd Hlen. rewrite row_avg_steps.
  apply (steps_means row 0 d); [lia|done|lia].
Qed.

Lemma scan_bounds acc d :
  Forall (fun x => 0 <= x) d ->
  Forall (fun i => acc <= i <= acc + sumZ d) (scan Z.add acc d).
Proof.
  intros Hd. revert acc. induction Hd as [|x d Hx Hd IH]; intros acc; [constructor|].
  cbn [scan sumZ foldr]. fold (sumZ d). pose proof (sumZ_nonneg d Hd).
  constructor; [lia|]. eapply Forall_impl; [|apply IH]. simpl. intros; lia.
Qed.

Lemma Forall_removelast {A} (P : A -> Prop) l : Forall P l -> Forall P (removelast l).
Proof.
  induction 1 as [|x l Hx Hl IH]; [constructor|].
  destruct l; [constructor|]. by constructor.
Qed.

Lemma ends_bounds d :
  Forall (fun x => 0 <= x) d -> Forall (fun i => 0 <= i <= sumZ d) (cumsum Z.add d).
Proof. intros Hd. rewrite cumsum_Z_scan. by apply (scan_bounds 0). Qed.

Lemma starts_bounds d :
  Forall (fun x => 0 <= x) d ->
  Forall (fun i => 0 <= i <= sumZ d) (0 :: removelast (cumsum Z.add d)).
Proof.
  intros Hd. constructor; [pose proof (sumZ_nonneg d Hd); lia|].
  by apply Forall_removelast, ends_bounds.
Qed.

Lemma length_cumsum {A} (add : A -> A -> A) l : length (cumsum add l) = length l.
Proof. destruct l; [done|]. simpl. by rewrite length_scan. Qed.

Lemma gather3_cond {A} (F : list Q -> list A) (G : list Z -> list Z) durs pitch :
  (forall row, length (F row) = S (length row)) ->
  (forall d, Forall (fun x => 0 <= x) d -> Forall (fun i => 0 <= i <= sumZ d) (G d)) ->
  durs_fit durs pitch ->
  Forall2 (fun idx chans =>
             Forall (fun row => Forall (fun i => 0 <= i < Z.of_nat (length row)) idx) chans)
          (map G durs) (map (map F) pitch).
Proof.
  intros HF HG H. induction H as [|d chans durs pitch [Hd Hc] _ IH]; [constructor|].
  cbn [map]. constructor; [|exact IH].
  apply Forall_map. eapply Forall_impl; [|exact Hc]. intros row Hrow. simpl in Hrow.
  eapply Forall_impl; [|apply (HG d Hd)]. intros i Hi. simpl in Hi. rewrite HF. lia.
Qed.

Lemma length_ncums row : length (ncums row) = S (length row).
Proof. unfold ncums. simpl. by rewrite length_cumsum, length_map. Qed.

Lemma length_cums row : length (cums row) = S (length row).
Proof. unfold cums. simpl. by rewrite length_cumsum. Qed.

(** The four gathers and the entry-wise operations, sample by sample and
    channel by channel. *)
Lemma tensor_rows_eq pitch durs :
  zip_with3 avg_entry
    (zip_with3 Z.sub
       (zip_with (fun idx chans => map (fun row => map (lookZ row) idx) chans)
                 (map (cumsum Z.add) durs) (map (map ncums) pitch))
       (zip_with (fun idx chans => map (fun row => map (lookZ row) idx) chans)
                 (map (fun ends => 0 :: removelast ends) (map (cumsum Z.add) durs))
                 (map (map ncums) pitch)))
    (zip_with3 Qminus
       (zip_with (fun idx chans => map (fun row => map (lookQ row) idx) chans)
                 (map (cumsum Z.add) durs) (map (map cums) pitch))
       (zip_with (fun idx chans => map (fun row => map (lookQ row) idx) chans)
                 (map (fun ends => 0 :: removelast ends) (map (cumsum Z.add) durs))
                 (map (map cums) pitch)))
  = zip_with (fun d chans => map (fun row => row_avg row d) chans) durs pitch.
Proof.
  unfold zip_with3. revert pitch.
  induction durs as [|d durs IH]; intros [|chans pitch]; [done..|].
  cbn [map zip_with]. rewrite IH. f_equal.
  induction chans as [|row chans IHc]; [done|].
  cbn [map zip_with]. by rewrite IHc.
Qed.

Lemma average_pitch_rows pitch durs :
  durs_fit durs pitch ->
  average_pitch pitch durs
  = Ok (zip_with (fun d chans => map (fun row => row_avg row d) chans) durs pitch).
Proof.
  intros H. unfold average_pitch. cbv zeta.
  fold ncums. fold cums.
  change (map (map (fun row => 0 :: cumsum Z.add (map nonzero row))) pitch)
    with (map (map ncums) pitch).
  change (map (map (fun row => 0%Q :: cumsum Qplus row)) pitch)
    with (map (map cums) pitch).
  rewrite (gather3_ok 0%Q (map (map cums) pitch) (map (cumsum Z.add) durs))
    by (apply gather3_cond; [apply length_cums|apply ends_bounds|done]).
  cbn [mbind result_bind].
  rewrite (gather3_ok 0%Q (map (map cums) pitch))
    by (rewrite map_map; apply gather3_cond; [apply length_cums|apply starts_bounds|done]).
  cbn [mbind result_bind].
  rewrite (gather3_ok 0 (map (map ncums) pitch) (map (cumsum Z.add) durs))
    by (apply gather3_cond; [apply length_ncums|apply ends_bounds|done]).
  cbn [mbind result_bind].
  rewrite (gather3_ok 0 (map (map ncums) pitch))
    by (rewrite map_map; apply gather3_cond; [apply length_ncums|apply starts_bounds|done]).
  cbn [mbind result_bind].
  f_equal. apply tensor_rows_eq.
Qed.

Lemma interval_means_lookup row d (k : nat) dk :
  Forall (fun x => 0 <= x) d -> d !! k = Some dk ->
  interval_means row d !! k = Some (mean_nonzero (tok_frames row d k)).
Proof.
  intros Hd. revert row k. induction Hd as [|x d Hx Hd IH]; intros row k Hk; [done|].
  destruct k as [|k].
  - injection Hk as ->. unfold tok_frames. simpl. reflexivity.
  - cbn [interval_means lookup list_lookup]. simpl in Hk.
    rewrite (IH _ _ Hk). unfold tok_frames. cbn [lookup list_lookup].
    rewrite tok_start_cons, drop_drop.
    pose proof (tok_start_nonneg d k Hd).
    by rewrite Z2Nat.inj_add by lia.
Qed.

Lemma mean_nonzero_unvoiced frames :
  Forall (fun p => (p == 0)%Q) frames -> mean_nonzero frames = 0%Q.
Proof.
  intros H. unfold mean_nonzero.
  assert (List.filter (fun p => negb (Qeq_bool p 0)) frames = []) as ->; [|done].
  induction H as [|p frames Hp _ IH]; [done|].
  cbn [List.filter]. apply Qeq_bool_iff in Hp. by rewrite Hp.
Qed.

End AveragePitch.

(** ** Claims about the interval averager *)


(** C2 (as amended): on durations {3, 0, 2} and the signal [1, 1, 1, 0, 5]
    the averages are [1, 0, 5]: the zero frame of the last token is left out
    of the count, so its average is 5 / 1. *)
Theorem average_pitch_worked_example :
  exists out,
    average_pitch [[[1; 1; 1; 0; 5]]]%Q [[3; 0; 2]] = Ok out
    /\ teq out [[[1; 0; 5]]]%Q.
Proof.
  eexists. split; [reflexivity|]. repeat constructor.
Qed.

(** C2 (as stated) fails: the averages are not [1, 0, 2.5]. *)
Lemma average_pitch_worked_example_counterexample :
  ~ exists out,
      average_pitch [[[1; 1; 1; 0; 5]]]%Q [[3; 0; 2]] = Ok out
      /\ teq out [[[1; 0; 5 # 2]]]%Q.
Proof.
  intros (out & H & Ht). vm_compute in H. injection H as <-.
  unfold teq, meq, veq in Ht.
  repeat match goal with
         | H : Forall2 _ (_ :: _) (_ :: _) |- _ => inversion H; clear H; subst
         end.
  match goal with H : (5 == 5 # 2)%Q |- _ => vm_compute in H; discriminate H end.
Qed.

(** ** Training pass: the duration-sum check *)

Section ForwardCheck.

Lemma forallb_zip_eqb (a b : list Z) :
  length a = length b ->
  forallb (fun '(x, y) => x =? y) (zip a b) = true <-> a = b.
Proof.
  revert b. induction a as [|x a IH]; intros [|y b] Hlen; simpl in Hlen; try lia.
  - done.
  - cbn [zip zip_with forallb]. rewrite andb_true_iff, Z.eqb_eq, IH by lia.
    split; [intros [-> ->]; done|intros [= -> ->]; done].
Qed.

Lemma assert_all_eq_same_length (a b : list Z) :
  length a = length b ->
  assert_all_eq a b = if decide (a = b) then Ok tt else Raise AssertionError.
Proof.
  intros Hlen. unfold assert_all_eq. rewrite broadcast_same_length by done.
  cbn [mbind result_bind].
  destruct (forallb _ (zip a b)) eqn:Hf.
  - apply forallb_zip_eqb in Hf; [|done]. by rewrite decide_True.
  - rewrite decide_False; [done|]. intros Heq.
    apply (forallb_zip_eqb a b Hlen) in Heq. congruence.
Qed.

Lemma col_sums_lookup (max_text_len : nat) (attn : list (list Z)) (l : nat) :
  Forall (fun row => length row = max_text_len) attn ->
  (l < max_text_len)%nat ->
  col_sums max_text_len attn !! l
  = Some (sumZ (map (fun row => default 0 (row !! l)) attn)).
Proof.
  intros Hrect Hl. induction Hrect as [|row attn Hrow _ IH].
  - simpl. by rewrite lookup_replicate_2.
  - unfold col_sums in *. cbn [foldr map sumZ]. rewrite lookup_zip_with, IH.
    destruct (lookup_lt_is_Some_2 row l) as [x ->]; [lia|]. reflexivity.
Qed.

End ForwardCheck.

(** C6: the target durations are the column sums of the hard alignment; the
    pass raises at the assertion when the durations of some sample do not
    sum to the sample's mel length, and passes the assertion when they do
    for every sample. *)
Theorem forward_duration_sum_check
    (attn_hard : list (list (list Z))) (max_text_len : nat) (mel_lens : list Z) :
  length attn_hard = length mel_lens ->
  let dur_tgt := map (col_sums max_text_len) attn_hard in
  ((exists b d m, dur_tgt !! b = Some d /\ mel_lens !! b = Some m /\ sumZ d <> m) ->
     forward_dur_tgt attn_hard max_text_len mel_lens = Raise AssertionError)
  /\ ((forall b d m, dur_tgt !! b = Some d -> mel_lens !! b = Some m -> sumZ d = m) ->
      forward_dur_tgt attn_hard max_text_len mel_lens = Ok dur_tgt)
  /\ (forall b sample d (l : nat),
        attn_hard !! b = Some sample -> dur_tgt !! b = Some d ->
        Forall (fun row => length row = max_text_len) sample ->
        (l < max_text_len)%nat ->
        d !! l = Some (sumZ (map (fun row => default 0 (row !! l)) sample))).
Proof.
  intros Hlen dur_tgt. unfold forward_dur_tgt. cbv zeta. fold dur_tgt.
  rewrite assert_all_eq_same_length by (subst dur_tgt; by rewrite !length_map).
  split; [|split].
  - intros (b & d & m & Hd & Hm & Hne).
    rewrite decide_False; [done|]. intros Heq.
    assert (map sumZ dur_tgt !! b = Some (sumZ d)) as Hs
      by (by rewrite list_lookup_fmap, Hd).
    rewrite Heq, Hm in Hs. congruence.
  - intros Hall. rewrite decide_True; [done|].
    apply list_eq_same_length with (length mel_lens);
      [done|subst dur_tgt; by rewrite !length_map|].
    intros b s m _ Hs Hm. rewrite list_lookup_fmap in Hs.
    destruct (dur_tgt !! b) as [d|] eqn:Hd; [|done]. injection Hs as <-.
    by eapply Hall.
  - intros b sample d l Hb Hd Hrect Hl. subst dur_tgt.
    rewrite list_lookup_fmap, Hb in Hd. injection Hd as <-.
    by apply col_sums_lookup.
Qed.

Lemma forward_duration_sum_check_witness :
  forward_dur_tgt [[[1; 0]; [1; 0]; [0; 1]]; [[1; 0]; [0; 1]; [0; 0]]] 2 [3; 2]
  = Ok [[2; 1]; [1; 1]]
  /\ forward_dur_tgt [[[1; 0]; [1; 0]; [0; 1]]; [[1; 0]; [0; 1]; [0; 0]]] 2 [3; 3]
    = Raise AssertionError.
Proof.
  split.
  - apply (forward_duration_sum_check
             [[[1; 0]; [1; 0]; [0; 1]]; [[1; 0]; [0; 1]; [0; 0]]] 2 [3; 2] eq_refl).
    intros [|[|b]] d m Hd Hm; simpl in Hd, Hm; try done;
      injection Hd as <-; injection Hm as <-; reflexivity.
  - apply (forward_duration_sum_check
             [[[1; 0]; [1; 0]; [0; 1]]; [[1; 0]; [0; 1]; [0; 0]]] 2 [3; 3] eq_refl).
    exists 1%nat, [1; 1], 3. repeat split; done.
Defined.

(** ** Inference *)

Section InferenceFacts.

Context {Mask Mel Text : Type}.
Context (self : FastPitch Mask Mel).
Context (plugin_manager : PluginManager Text).

Lemma clamp_bounds x lo hi : (lo <= hi)%Q -> (lo <= clamp x lo hi <= hi)%Q.
Proof.
  intros H. unfold clamp. split.
  - apply Q.min_glb; [apply Q.le_max_r|done].
  - apply Q.le_min_r.
Qed.

Lemma clamp_upper x lo hi : (clamp x lo hi <= hi)%Q.
Proof. unfold clamp. apply Q.le_min_r. Qed.

(** With nothing supplied the first stage returns the own predictions and
    sets no bound. *)
Lemma infer_prosody_own enc_out enc_mask max_duration
    dur_ex pitch_ex energy_ex new_sequence :
  computes_own dur_ex pitch_ex None = true ->
  infer_prosody self enc_out enc_mask max_duration dur_ex pitch_ex energy_ex
    None new_sequence
  = Ok (None, None, own_durations self enc_out enc_mask max_duration,
        own_pitch self enc_out enc_mask, None).
Proof.
  intros H. unfold infer_prosody, predict. cbn [mbind result_bind]. by rewrite H.
Qed.

(** Case analysis on the first step of a computation that is known to
    return. *)
Ltac step_bind :=
  lazymatch goal with
  | |- (?m ≫= _) = Ok _ -> _ =>
      let a := fresh "a" in
      destruct m as [a|] eqn:?; [|done];
      try (destruct a as [? ?]); cbn [mbind result_bind Py.local]
  end.

Lemma infer_using_vals_self_predicted sequence pace enc_out max_duration enc_mask r :
  infer_using_vals self plugin_manager sequence pace enc_out max_duration enc_mask
    None None None None None = Ok r ->
  start_index r = -1 /\ end_index r = -1
  /\ (mid plugin_manager = [] ->
      dur_pred r = own_durations self enc_out enc_mask max_duration
      /\ pitch_pred r = own_pitch self enc_out enc_mask).
Proof.
  unfold infer_using_vals. rewrite infer_prosody_own by done.
  cbn [mbind result_bind is_some is_none negb orb].
  destruct (mid plugin_manager) as [|h hs]; destruct (pre_energy plugin_manager) as [|g gs];
    cbn [mbind result_bind Py.local]; repeat step_bind;
    intros [= <-]; cbn [start_index end_index dur_pred pitch_pred default];
    repeat split; congruence.
Qed.

Lemma usable_false_fallback cleaned_text inputs speaker_i pace pitch_data
    max_duration old_sequence enc_out enc_mask :
  encoder inputs speaker_i = (enc_out, enc_mask) ->
  usable pitch_data = false ->
  infer_advanced self plugin_manager cleaned_text inputs speaker_i pace pitch_data
    max_duration old_sequence
  = infer_using_vals self plugin_manager cleaned_text pace enc_out max_duration enc_mask
      None None None None None.
Proof.
  intros Henc Hu. unfold infer_advanced. rewrite Henc.
  destruct pitch_data as [[[p d] e]|]; [|done]. simpl in Hu. by rewrite Hu.
Qed.

Lemma usable_true_try cleaned_text inputs speaker_i pace pitch dur energy
    max_duration old_sequence enc_out enc_mask :
  encoder inputs speaker_i = (enc_out, enc_mask) ->
  usable (Some (pitch, dur, energy)) = true ->
  infer_advanced self plugin_manager cleaned_text inputs speaker_i pace
    (Some (pitch, dur, energy)) max_duration old_sequence
  = match infer_using_vals self plugin_manager cleaned_text pace enc_out max_duration
            enc_mask dur pitch energy old_sequence (Some inputs) with
    | Ok r => Ok r
    | Raise _ =>
        infer_using_vals self plugin_manager cleaned_text pace enc_out max_duration
          enc_mask None None None None None
    end.
Proof.
  intros Henc Hu. unfold infer_advanced. rewrite Henc. simpl in Hu. by rewrite Hu.
Qed.

End InferenceFacts.

(** ** Claims about inference *)

(** C7: the model's own per-token durations lie in [0.25, max_duration] and
    its own per-token pitch values in [-3, 3], for any [max_duration] of at
    least 0.25; these are the predicted arrays whenever a duration or pitch
    array is missing or an old sequence is given, and the arrays of the
    first stage when moreover no old sequence is given. *)
Theorem own_predictions_clamped {Mask Mel : Type} (self : FastPitch Mask Mel)
    (enc_out : list (list Q)) (enc_mask : Mask) (max_duration : Q) :
  (1 # 4 <= max_duration)%Q ->
  Forall (fun d => (1 # 4 <= d <= max_duration)%Q)
         (own_durations self enc_out enc_mask max_duration)
  /\ Forall (fun p => (-3 <= p <= 3)%Q) (own_pitch self enc_out enc_mask)
  /\ (forall dur_ex pitch_ex energy_ex old_sequence,
        is_none dur_ex = true \/ is_none pitch_ex = true \/ is_some old_sequence = true ->
        predict self enc_out enc_mask max_duration dur_ex pitch_ex energy_ex old_sequence
        = Ok (own_durations self enc_out enc_mask max_duration,
              own_pitch self enc_out enc_mask, None))
  /\ (forall dur_ex pitch_ex energy_ex old_sequence new_sequence,
        computes_own dur_ex pitch_ex old_sequence = true ->
        old_sequence = None ->
        infer_prosody self enc_out enc_mask max_duration dur_ex pitch_ex energy_ex
          old_sequence new_sequence
        = Ok (None, None, own_durations self enc_out enc_mask max_duration,
              own_pitch self enc_out enc_mask, None)).
Proof.
  intros Hmax. split; [|split; [|split]].
  - unfold own_durations. cbv zeta. rewrite map_map. apply Forall_map, Forall_forall.
    intros l _. unfold clamp_min. split.
    + apply Q.le_max_r.
    + apply Q.max_lub; [apply clamp_upper|done].
  - unfold own_pitch. apply Forall_map, Forall_forall.
    intros p _. by apply clamp_bounds.
  - intros dur_ex pitch_ex energy_ex old Hown. unfold predict, computes_own.
    destruct Hown as [-> | [-> | ->]]; [done| |]; by rewrite ?orb_true_r.
  - intros dur_ex pitch_ex energy_ex old new Hown ->. by apply infer_prosody_own.
Qed.

Lemma own_predictions_clamped_witness :
  own_durations toy [[0; 0]; [0; 0]]%Q tt 75 = [2; 2]%Q
  /\ Forall (fun d => (1 # 4 <= d <= 75)%Q) (own_durations toy [[0; 0]; [0; 0]]%Q tt 75)
  /\ Forall (fun p => (-3 <= p <= 3)%Q) (own_pitch toy [[0; 0]; [0; 0]]%Q tt).
Proof.
  split; [reflexivity|].
  destruct (own_predictions_clamped toy [[0; 0]; [0; 0]]%Q tt 75) as (H1 & H2 & _).
  - discriminate.
  - split; [exact H1|exact H2].
Defined.

(** C1 (as amended): for the old sequence [a, b, c, d] and the new sequence
    [a, x, c, d] the start bound is 0 and the end bound is 2; after the
    splice, positions 0, 2 and 3 of the duration and pitch arrays hold the
    existing values and position 1 holds the fresh prediction. *)
Theorem splice_example {Mask Mel : Type} (self : FastPitch Mask Mel)
    (a b c d x : Z) (p0 p1 p2 p3 r0 r1 r2 r3 e0 e1 e2 e3 q0 q1 q2 q3 : Q)
    (enc_out enc' : list (list Q)) (enc_mask : Mask) (max_duration : Q)
    (energy_existing : option (list Q)) :
  NoDup [a; b; c; d; x] ->
  own_durations self enc_out enc_mask max_duration = [p0; p1; p2; p3] ->
  own_pitch self enc_out enc_mask = [r0; r1; r2; r3] ->
  tensor_add enc_out (pitch_emb [q0; r1; q2; q3]) = Ok enc' ->
  splice_bounds [a; b; c; d] [a; x; c; d] = Ok (Some 0, Some 2)
  /\ splice_prosody [a; b; c; d] [a; x; c; d]
       [p0; p1; p2; p3] [r0; r1; r2; r3] [e0; e1; e2; e3] [q0; q1; q2; q3]
     = Ok (Some 0, Some 2, ([e0; p1; e2; e3], [q0; r1; q2; q3]))
  /\ infer_prosody self enc_out enc_mask max_duration
       (Some [e0; e1; e2; e3]) (Some [q0; q1; q2; q3]) energy_existing
       (Some [a; b; c; d]) (Some [a; x; c; d])
     = Ok (Some 0, Some 2, [e0; p1; e2; e3], [q0; r1; q2; q3],
           Some (energy_predictor enc' enc_mask)).
Proof.
  intros Hnd Hdur Hpitch Henc.
  assert (b <> x) as Hbx.
  { intros ->. inversion Hnd as [|? ? _ Hnd']; subst.
    inversion Hnd' as [|? ? Hin _]; subst. apply Hin. repeat constructor. }
  assert (splice_bounds [a; b; c; d] [a; x; c; d] = Ok (Some 0, Some 2)) as Hbounds.
  { unfold splice_bounds. cbn [Py.index Py.norm_index length Z.ltb Z.leb andb Z.of_nat
      mbind result_bind Z.to_nat lookup list_lookup reverse rev_append].
    simpl. rewrite !Z.eqb_refl. simpl.
    apply Z.eqb_neq in Hbx. rewrite Hbx. reflexivity. }
  split; [exact Hbounds|]. split.
  - unfold splice_prosody. rewrite Hbounds. reflexivity.
  - unfold infer_prosody. cbn [Py.deref mbind result_bind]. rewrite Hbounds.
    unfold predict.
    cbn [mbind result_bind computes_own is_none is_some negb orb].
    rewrite Hdur, Hpitch.
    change (splice_values (Some 0) (Some 2) _ _ _ _ _)
      with (@Ok (list Q * list Q) ([e0; p1; e2; e3], [q0; r1; q2; q3])).
    cbn [mbind result_bind]. rewrite Henc. reflexivity.
Qed.

Lemma splice_example_witness :
  infer_prosody toy [[0; 0]; [0; 0]; [0; 0]; [0; 0]]%Q tt 75
    (Some [10; 20; 30; 40]%Q) (Some [11; 21; 31; 41]%Q) None
    (Some [1; 2; 3; 4]) (Some [1; 5; 3; 4])
  = Ok (Some 0, Some 2, [10; 2; 30; 40]%Q, [11; 3; 31; 41]%Q, Some [1; 1; 1; 1]%Q).
Proof.
  apply (splice_example toy 1 2 3 4 5 2 2 2 2 3 3 3 3 10 20 30 40 11 21 31 41
           [[0; 0]; [0; 0]; [0; 0]; [0; 0]]%Q
           [[11; 11]; [3; 3]; [31; 31]; [41; 41]]%Q tt 75 None).
  - apply (bool_decide_unpack _). vm_compute. exact I.
  - reflexivity.
  - reflexivity.
  - reflexivity.
Defined.

(** C1 (as stated) fails: the end bound is not 3 and position 2 does not
    hold the fresh prediction. *)
Lemma splice_example_counterexample :
  splice_prosody [1; 2; 3; 4] [1; 5; 3; 4]
    [2; 2; 2; 2]%Q [3; 3; 3; 3]%Q [10; 20; 30; 40]%Q [11; 21; 31; 41]%Q
  <> Ok (Some 0, Some 3, ([10; 2; 2; 40]%Q, [11; 3; 3; 41]%Q)).
Proof. vm_compute. discriminate. Qed.


(** C9: the bundle is usable exactly when its three arrays are present and
    non-empty; a usable bundle is tried; with any other bundle the call is
    the one with every existing value and the old sequence set to none,
    whose result carries no splice bound and, without hooks, the model's own
    durations and pitch. *)
Theorem side_data_all_or_nothing {Mask Mel Text : Type}
    (self : FastPitch Mask Mel) (plugin_manager : PluginManager Text)
    (cleaned_text : Text) (inputs : list Z) (speaker_i : option Z) (pace : Q)
    (max_duration : Q) (enc_out : list (list Q)) (enc_mask : Mask) :
  encoder inputs speaker_i = (enc_out, enc_mask) ->
  let self_predicted :=
    infer_using_vals self plugin_manager cleaned_text pace enc_out max_duration enc_mask
      None None None None None in
  (forall pitch_data,
     usable pitch_data = true <->
     exists p ps d ds e es,
       pitch_data = Some (Some (p :: ps), Some (d :: ds), Some (e :: es)))
  /\ (forall pitch_data old_sequence,
        usable pitch_data = false ->
        infer_advanced self plugin_manager cleaned_text inputs speaker_i pace
          pitch_data max_duration old_sequence = self_predicted)
  /\ (forall pitch dur energy old_sequence,
        usable (Some (pitch, dur, energy)) = true ->
        infer_advanced self plugin_manager cleaned_text inputs speaker_i pace
          (Some (pitch, dur, energy)) max_duration old_sequence
        = match infer_using_vals self plugin_manager cleaned_text pace enc_out
                  max_duration enc_mask dur pitch energy old_sequence (Some inputs) with
          | Ok r => Ok r
          | Raise _ => self_predicted
          end)
  /\ (forall r, self_predicted = Ok r ->
        start_index r = -1 /\ end_index r = -1
        /\ (mid plugin_manager = [] ->
            dur_pred r = own_durations self enc_out enc_mask max_duration
            /\ pitch_pred r = own_pitch self enc_out enc_mask)).
Proof.
  intros Henc self_predicted. split; [|split; [|split]].
  - intros pitch_data. split.
    + destruct pitch_data as [[[[[|p ps]|] [[|d ds]|]] [[|e es]|]]|]; try done.
      intros _. by exists p, ps, d, ds, e, es.
    + by intros (p & ps & d & ds & e & es & ->).
  - intros pitch_data old Hu. by apply usable_false_fallback.
  - intros pitch dur energy old Hu. by apply usable_true_try.
  - intros r Hr. by eapply infer_using_vals_self_predicted.
Qed.

Lemma side_data_all_or_nothing_witness :
  infer_advanced toy no_plugins tt [1; 5; 3; 4] None 1
    (Some (Some [10; 20; 30; 40]%Q, Some []%Q, Some [7; 7; 7; 7]%Q)) 75
    (Some [1; 2; 3; 4])
  = infer_using_vals toy no_plugins tt 1 [[0; 0]; [0; 0]; [0; 0]; [0; 0]]%Q 75 tt
      None None None None None.
Proof.
  destruct (side_data_all_or_nothing toy no_plugins tt [1; 5; 3; 4] None 1 75
              [[0; 0]; [0; 0]; [0; 0]; [0; 0]]%Q tt eq_refl) as (_ & H & _).
  exact (H (Some (Some [10; 20; 30; 40]%Q, Some []%Q, Some [7; 7; 7; 7]%Q))
           (Some [1; 2; 3; 4]) eq_refl).
Defined.

(** * Further properties of the code *)

(** ** Length regulator *)

Section RegulateLenMore.

Lemma length_expand r e :
  Forall (fun x => 0 <= x) r -> length e = length r ->
  Z.of_nat (length (expand r e)) = sumZ r.
Proof.
  intros Hr. revert e. induction Hr as [|x r Hx Hr IH]; intros e Hlen.
  - by destruct e.
  - destruct e as [|v e]; [done|]. simpl in Hlen.
    unfold expand in *. cbn [zip_with concat sumZ foldr]. fold (sumZ r).
    rewrite length_app, length_replicate, Nat2Z.inj_add, IH by lia. lia.
Qed.

Lemma expand_lookup r e k v (t : Z) :
  Forall (fun x => 0 <= x) r -> length e = length r ->
  e !! k = Some v -> owns r k t ->
  expand r e !! Z.to_nat t = Some v.
Proof.
  intros Hr. revert e k t. induction Hr as [|x r Hx Hr IH]; intros e k t Hlen Hk Hown.
  - destruct e; done.
  - destruct e as [|v0 e]; [done|]. simpl in Hlen.
    unfold expand. cbn [zip_with concat]. fold (expand r e).
    destruct k as [|k].
    + injection Hk as ->. unfold owns, tok_start, tok_end in Hown. simpl in Hown.
      rewrite lookup_app_l by (rewrite length_replicate; lia).
      apply lookup_replicate_2. lia.
    + unfold owns in Hown. rewrite tok_start_cons, tok_end_cons in Hown.
      pose proof (tok_start_nonneg r k Hr).
      rewrite lookup_app_r by (rewrite length_replicate; lia).
      rewrite length_replicate, <- Z2Nat.inj_sub by lia.
      apply (IH e k (t - x)); [lia|done|]. unfold owns. lia.
Qed.

(** The frames of one sample are the repeat of its tokens, padded with
    zero vectors up to the batch length. *)
Lemma frames_of_expand pace mx d e :
  (0 < pace)%Q -> Forall (fun x => (0 <= x)%Q) d ->
  length d = length e -> rect e ->
  let r := map (adjusted pace) d in
  sumZ r <= mx ->
  meq (frames_of pace mx d e)
      (expand r e ++ replicate (Z.to_nat (mx - sumZ r)) (replicate (width e) 0%Q)).
Proof.
  intros Hp Hd Hlen He r Hmx.
  pose proof (reps_nonneg pace d Hp Hd) as Hr. fold r in Hr.
  assert (length e = length r) as Hlen' by (subst r; rewrite length_map; lia).
  pose proof (length_expand r e Hr Hlen') as Hle.
  pose proof (sumZ_nonneg r Hr) as Hs.
  apply Forall2_same_length_lookup. split.
  { unfold frames_of. rewrite length_map, length_seqZ, length_app, length_replicate. lia. }
  intros t row v Hrow Hv.
  apply frames_of_lookup in Hrow as [Ht ->]. fold r.
  destruct (decide (Z.of_nat t < sumZ r)) as [Hlt|Hge].
  - destruct (owner_exists r (Z.of_nat t) Hr) as (k & Hk & Hown); [lia|].
    destruct (lookup_lt_is_Some_2 e k) as [v' Hv']; [lia|].
    pose proof (expand_lookup r e k v' (Z.of_nat t) Hr Hlen' Hv' Hown) as Hex.
    rewrite Nat2Z.id in Hex.
    rewrite lookup_app_l, Hex in Hv by lia. injection Hv as <-.
    by eapply matmul_row_owned.
  - rewrite lookup_app_r in Hv by lia.
    apply lookup_replicate in Hv as [-> _].
    apply matmul_row_outside; [done|lia].
Qed.

Lemma adjusted_inject_Z n : 0 <= n -> adjusted 1 (inject_Z n) = n.
Proof.
  intros Hn. unfold adjusted, to_long. simpl.
  rewrite !Z.mul_1_r. rewrite Z.quot_div_nonneg by lia.
  symmetry. apply (Z.div_unique _ _ _ 1); lia.
Qed.

Lemma regulate_len_only_RuntimeError durations enc_out pace mel_max_len e :
  regulate_len durations enc_out pace mel_max_len = Raise e -> e = RuntimeError.
Proof.
  unfold regulate_len.
  destruct (tensor_max _) as [mx|e1] eqn:Hmax; cbn [mbind result_bind].
  2: { destruct (map sumZ _) in Hmax; simpl in Hmax; congruence. }
  unfold arange. destruct (mx <? 0); cbn [mbind result_bind]; [congruence|].
  destruct (broadcast _ enc_out) as [pairs|e2] eqn:Hb; cbn [mbind result_bind].
  2: { unfold broadcast in Hb. intros [= <-].
       repeat (match type of Hb with context [match ?x with _ => _ end] =>
                 destruct x end; try congruence). }
  destruct (forallb _ pairs); cbn [mbind result_bind]; [|congruence].
  by destruct mel_max_len.
Qed.

(** On well-formed input the regulator returns, and its result is the
    closed form. *)
Lemma regulate_len_wf_run durations enc_out pace mel_max_len :
  (0 < pace)%Q ->
  durations <> [] ->
  Forall (Forall (fun d => (0 <= d)%Q)) durations ->
  Forall2 (fun d e => length d = length e) durations enc_out ->
  exists mx,
    tensor_max (lens_of pace durations) = Ok mx /\ 0 <= mx
    /\ Forall (fun n => 0 <= n <= mx) (lens_of pace durations)
    /\ regulate_len durations enc_out pace mel_max_len =
         Ok (match mel_max_len with
             | None => (zip_with (frames_of pace mx) durations enc_out,
                        lens_of pace durations)
             | Some cap =>
                 (map (take cap) (zip_with (frames_of pace mx) durations enc_out),
                  map (Z.min (Z.of_nat cap)) (lens_of pace durations))
             end).
Proof.
  intros Hp Hne Hd Hshape.
  destruct (tensor_max_ok (lens_of pace durations)) as [mx Hmx].
  { unfold lens_of. by destruct durations. }
  assert (Forall (fun n => 0 <= n <= mx) (lens_of pace durations)) as Hlens.
  { apply Forall_forall. intros n Hn. split.
    - unfold lens_of in Hn. apply in_map_iff in Hn as (d & <- & Hin).
      apply sumZ_nonneg, reps_nonneg; [done|].
      rewrite Forall_forall in Hd. by apply Hd.
    - by eapply tensor_max_ge. }
  assert (0 <= mx) as Hmx0.
  { destruct (lens_of pace durations) as [|n l] eqn:Hl; [done|].
    inversion Hlens; subst. lia. }
  exists mx. repeat split; try done.
  by apply regulate_len_run.
Qed.

Lemma adjusted_zero_iff pace d :
  (0 < pace)%Q -> (0 <= d)%Q -> adjusted pace d = 0 <-> (2 * d < pace)%Q.
Proof.
  intros Hp Hd. rewrite adjusted_floor by done.
  assert (0 <= d / pace)%Q as Hq by (apply Qle_shift_div_l; lra).
  pose proof (Qfloor_le (d / pace + (1 # 2))) as H1.
  pose proof (Qlt_floor (d / pace + (1 # 2))) as H2.
  rewrite inject_Z_plus in H2. change (inject_Z 1) with 1%Q in H2.
  split.
  - intros H0. rewrite H0 in H2. change (inject_Z 0) with 0%Q in H2.
    assert (d / pace < 1 # 2)%Q as Hlt by lra.
    assert (d == d / pace * pace)%Q as Hdq by (field; lra).
    pose proof (Qmult_lt_compat_r _ _ pace Hp Hlt) as Hm.
    rewrite <- Hdq in Hm. lra.
  - intros Hlt.
    assert (d / pace < 1 # 2)%Q as Hlt' by (apply Qlt_shift_div_r; lra).
    assert (0 <= Qfloor (d / pace + (1 # 2))).
    { change 0 with (Qfloor 0). apply Qfloor_resp_le. lra. }
    assert (Qfloor (d / pace + (1 # 2)) < 1); [|lia].
    rewrite Zlt_Qlt. change (inject_Z 1) with 1%Q. lra.
Qed.

Lemma own_durations_lower {Mask Mel} (self : FastPitch Mask Mel) enc_out enc_mask max_duration :
  Forall (fun d => (1 # 4 <= d)%Q) (own_durations self enc_out enc_mask max_duration).
Proof.
  unfold own_durations. cbv zeta. rewrite map_map. apply Forall_map, Forall_forall.
  intros l _. unfold clamp_min. apply Q.le_max_r.
Qed.

End RegulateLenMore.


(** X2: with a frame cap the regulator returns the result without cap with
    each sample cut to its first [cap] frames and each length clamped to
    [cap], and raises when the call without cap raises; so no reported
    length and no sample exceeds the cap. *)
Theorem regulate_len_cap
    (durations : list (list Q)) (enc_out : list (list (list Q))) (pace : Q)
    (cap : nat) :
  regulate_len durations enc_out pace (Some cap)
  = ('(enc_rep, dec_lens) ← regulate_len durations enc_out pace None;
     Ok (map (take cap) enc_rep, map (Z.min (Z.of_nat cap)) dec_lens))
  /\ forall enc_rep dec_lens,
       regulate_len durations enc_out pace (Some cap) = Ok (enc_rep, dec_lens) ->
       Forall (fun n => n <= Z.of_nat cap) dec_lens
       /\ Forall (fun m => (length m <= cap)%nat) enc_rep.
Proof.
  assert (regulate_len durations enc_out pace (Some cap)
          = ('(enc_rep, dec_lens) ← regulate_len durations enc_out pace None;
             Ok (map (take cap) enc_rep, map (Z.min (Z.of_nat cap)) dec_lens))) as Heq.
  { unfold regulate_len.
    destruct (tensor_max _) as [mx|]; cbn [mbind result_bind]; [|done].
    destruct (arange mx) as [range_|]; cbn [mbind result_bind]; [|done].
    destruct (broadcast _ enc_out) as [pairs|]; cbn [mbind result_bind]; [|done].
    by destruct (forallb _ pairs). }
  split; [exact Heq|].
  intros enc_rep dec_lens H. rewrite Heq in H.
  destruct (regulate_len durations enc_out pace None) as [[rep0 lens0]|]; [|done].
  cbn [mbind result_bind] in H. injection H as <- <-. split.
  - apply Forall_map, Forall_forall. intros n _. simpl. lia.
  - apply Forall_map, Forall_forall. intros m _. simpl. rewrite length_take. lia.
Qed.

Lemma regulate_len_cap_witness :
  exists enc_rep,
    regulate_len [[2; 3]]%Q [[[7; 8]; [9; 10]]]%Q 1 (Some 3%nat) = Ok (enc_rep, [3])
    /\ Forall (fun m => (length m <= 3)%nat) enc_rep.
Proof.
  destruct (regulate_len_cap [[2; 3]]%Q [[[7; 8]; [9; 10]]]%Q 1 3) as [_ H].
  eexists. split; [reflexivity|].
  exact (proj2 (H _ _ eq_refl)).
Defined.

(** X3: the regulator fails only with a runtime error; it does fail on an
    empty batch, and on batches of equal size in which some sample has a
    number of durations different from its number of encoder tokens. *)
Theorem regulate_len_shape_errors
    (durations : list (list Q)) (enc_out : list (list (list Q))) (pace : Q)
    (mel_max_len : option nat) :
  (forall e, regulate_len durations enc_out pace mel_max_len = Raise e ->
             e = RuntimeError)
  /\ (durations = [] ->
      regulate_len durations enc_out pace mel_max_len = Raise RuntimeError)
  /\ (length durations = length enc_out ->
      (exists b d e, durations !! b = Some d /\ enc_out !! b = Some e
                     /\ length d <> length e) ->
      regulate_len durations enc_out pace mel_max_len = Raise RuntimeError).
Proof.
  split; [|split].
  - intros e. apply regulate_len_only_RuntimeError.
  - intros ->. reflexivity.
  - intros Hlen (b & d & e & Hb & He & Hne).
    destruct (regulate_len durations enc_out pace mel_max_len) as [r|x] eqn:Hr.
    2: { f_equal. by eapply regulate_len_only_RuntimeError. }
    exfalso. revert Hr. unfold regulate_len.
    destruct (tensor_max _) as [mx|]; cbn [mbind result_bind]; [|done].
    destruct (arange mx) as [range_|]; cbn [mbind result_bind]; [|done].
    rewrite broadcast_same_length by (by rewrite !length_map).
    cbn [mbind result_bind].
    destruct (forallb _ _) eqn:Hf; cbn [mbind result_bind]; [|done].
    intros _. rewrite forallb_forall in Hf.
    set (cs := cumsum Z.add (0 :: map (adjusted pace) d)).
    specialize (Hf (length (tail cs), map (frame_mask cs) range_, e)).
    cbv beta iota in Hf.
    assert ((length (tail cs) =? length e)%nat = true) as Hl.
    { apply Hf. apply list_elem_of_In. apply (list_elem_of_lookup_2 _ b).
      rewrite lookup_zip_with. rewrite !list_lookup_fmap, Hb, He. reflexivity. }
    apply Nat.eqb_eq in Hl. subst cs. cbn [cumsum tail] in Hl.
    rewrite length_scan, length_map in Hl. done.
Qed.

Lemma regulate_len_shape_errors_witness :
  regulate_len [[2; 3]; [1; 1]]%Q [[[7; 8]; [9; 10]]; [[1; 2]]]%Q 1 None
  = Raise RuntimeError.
Proof.
  destruct (regulate_len_shape_errors
              [[2; 3]; [1; 1]]%Q [[[7; 8]; [9; 10]]; [[1; 2]]]%Q 1 None) as (_ & _ & H).
  apply H; [reflexivity|].
  exists 1%nat, [1; 1]%Q, [[1; 2]]%Q. repeat split; try reflexivity. discriminate.
Defined.


(** ** Training pass and length regulator together *)

Section TrainingLengths.

Lemma col_sums_shape (max_text_len : nat) (attn : list (list Z)) :
  Forall (fun row => length row = max_text_len /\ Forall (fun x => 0 <= x) row) attn ->
  length (col_sums max_text_len attn) = max_text_len
  /\ Forall (fun x => 0 <= x) (col_sums max_text_len attn).
Proof.
  induction 1 as [|row attn [Hlen Hrow] _ [IH1 IH2]].
  - simpl. split; [by rewrite length_replicate|].
    apply Forall_forall. intros x Hx. apply list_elem_of_In in Hx.
    apply elem_of_replicate in Hx as [-> _]. lia.
  - unfold col_sums in *. cbn [foldr]. split.
    + rewrite length_zip_with. lia.
    + apply Forall_lookup. intros i x Hx. rewrite lookup_zip_with in Hx.
      destruct (row !! i) as [a|] eqn:Ha; [|done]. simpl in Hx.
      destruct (foldr _ _ attn !! i) as [c|] eqn:Hc; [|done]. injection Hx as <-.
      rewrite Forall_lookup in Hrow, IH2.
      pose proof (Hrow i a Ha). pose proof (IH2 i c Hc). simpl in *. lia.
Qed.

Lemma lens_of_inject_Z (dur : list (list Z)) :
  Forall (Forall (fun x => 0 <= x)) dur ->
  lens_of 1 (map (map inject_Z) dur) = map sumZ dur.
Proof.
  induction 1 as [|d dur Hd _ IH]; [done|].
  unfold lens_of in *. cbn [map]. rewrite IH. f_equal.
  rewrite map_map. f_equal. clear IH.
  induction Hd as [|x d Hx _ IHd]; [done|].
  cbn [map]. by rewrite adjusted_inject_Z, IHd.
Qed.

End TrainingLengths.



(** ** Interval averager: errors, shape and bounds *)

Section AveragePitchMore.

Lemma mapR_Ok_inv {A B} (f : A -> result B) l ys :
  mapR f l = Ok ys -> Forall2 (fun x y => f x = Ok y) l ys.
Proof.
  revert ys. induction l as [|x l IH]; intros ys; simpl.
  - intros [= <-]. constructor.
  - destruct (f x) as [y|] eqn:Hy; cbn [mbind result_bind]; [|done].
    destruct (mapR f l) as [ys'|]; cbn [mbind result_bind]; [|done].
    intros [= <-]. constructor; [done|]. by apply IH.
Qed.

Lemma mapR_only {A B} (f : A -> result B) l e0 e :
  (forall x e', f x = Raise e' -> e' = e0) -> mapR f l = Raise e -> e = e0.
Proof.
  intros Hf. induction l as [|x l IH]; simpl; [done|].
  destruct (f x) as [y|e'] eqn:Hy; cbn [mbind result_bind].
  - destruct (mapR f l) as [ys'|]; cbn [mbind result_bind]; [done|].
    intros [= <-]. by apply IH.
  - intros [= <-]. by eapply Hf.
Qed.

Lemma gather_only {A} (row : list A) index e :
  gather row index = Raise e -> e = RuntimeError.
Proof.
  apply mapR_only. intros i e'. destruct (i <? 0); [congruence|].
  destruct (row !! Z.to_nat i); congruence.
Qed.

Lemma gather3_only {A} (input : list (list (list A))) index e :
  gather3 input index = Raise e -> e = RuntimeError.
Proof.
  unfold gather3. destruct (_ <? _)%nat; [congruence|].
  apply mapR_only. intros [idx chans] e'. apply mapR_only.
  intros row e''. apply gather_only.
Qed.

Lemma average_pitch_only pitch durs e :
  average_pitch pitch durs = Raise e -> e = RuntimeError.
Proof.
  unfold average_pitch. cbv zeta.
  repeat (lazymatch goal with
          | |- (?m ≫= _) = Raise _ -> _ =>
              let H := fresh in
              destruct m eqn:H; cbn [mbind result_bind];
              [|intros [= <-]; by eapply gather3_only]
          end).
  done.
Qed.

(** An entry fetched by [gather] lies inside the row. *)
Lemma gather_in_range {A} (row : list A) index out i :
  gather row index = Ok out -> In i index -> 0 <= i < Z.of_nat (length row).
Proof.
  intros H Hi. apply mapR_Ok_inv in H. apply list_elem_of_In in Hi.
  apply list_elem_of_lookup in Hi as [n Hn].
  destruct (Forall2_lookup_l _ _ _ _ _ H Hn) as (y & _ & Hy). simpl in Hy.
  destruct (Z.ltb_spec i 0); [done|].
  destruct (row !! Z.to_nat i) eqn:Hl; [|done].
  apply lookup_lt_Some in Hl. lia.
Qed.

Lemma gather3_in_range {A} (input : list (list (list A))) index out b idx chans row i :
  gather3 input index = Ok out ->
  index !! b = Some idx -> input !! b = Some chans -> In row chans -> In i idx ->
  0 <= i < Z.of_nat (length row).
Proof.
  unfold gather3. destruct (_ <? _)%nat; [done|]. intros H Hidx Hchans Hrow Hi.
  apply mapR_Ok_inv in H.
  assert (zip index input !! b = Some (idx, chans)) as Hz.
  { rewrite lookup_zip_with, Hidx, Hchans. reflexivity. }
  destruct (Forall2_lookup_l _ _ _ _ _ H Hz) as (y & _ & Hy). simpl in Hy.
  apply mapR_Ok_inv in Hy. apply list_elem_of_In in Hrow.
  apply list_elem_of_lookup in Hrow as [c Hc].
  destruct (Forall2_lookup_l _ _ _ _ _ Hy Hc) as (r & _ & Hr). simpl in Hr.
  by eapply gather_in_range.
Qed.

Lemma scan_last acc d : d <> [] -> In (acc + sumZ d) (scan Z.add acc d).
Proof.
  revert acc. induction d as [|x d IH]; intros acc Hne; [done|].
  cbn [scan sumZ foldr]. fold (sumZ d). destruct d as [|y d].
  - left. simpl. lia.
  - right. replace (acc + (x + sumZ (y :: d))) with (acc + x + sumZ (y :: d)) by lia.
    by apply IH.
Qed.

Lemma cumsum_last d : d <> [] -> In (sumZ d) (cumsum Z.add d).
Proof. intros H. rewrite cumsum_Z_scan. by apply (scan_last 0). Qed.

End AveragePitchMore.

(** X6: the averager fails only with a runtime error, and it does fail when
    the durations have more samples than the signal, or when a cumulative
    duration of some sample is negative or exceeds the frames of one of the
    sample's channels; in particular when the durations of a sample sum to
    more than its frames. *)
Theorem average_pitch_errors (pitch : list (list (list Q))) (durs : list (list Z)) :
  (forall e, average_pitch pitch durs = Raise e -> e = RuntimeError)
  /\ ((length pitch < length durs)%nat ->
      average_pitch pitch durs = Raise RuntimeError)
  /\ (forall b d chans row i,
        durs !! b = Some d -> pitch !! b = Some chans -> In row chans ->
        In i (cumsum Z.add d) -> i < 0 \/ Z.of_nat (length row) < i ->
        average_pitch pitch durs = Raise RuntimeError)
  /\ (forall b d chans row,
        durs !! b = Some d -> pitch !! b = Some chans -> In row chans ->
        Z.of_nat (length row) < sumZ d ->
        average_pitch pitch durs = Raise RuntimeError).
Proof.
  assert (forall b d chans row i,
            durs !! b = Some d -> pitch !! b = Some chans -> In row chans ->
            In i (cumsum Z.add d) -> i < 0 \/ Z.of_nat (length row) < i ->
            average_pitch pitch durs = Raise RuntimeError) as Hrange.
  { intros b d chans row i Hd Hc Hrow Hi Hout.
    destruct (average_pitch pitch durs) as [out|e] eqn:Hr.
    2: { f_equal. by eapply average_pitch_only. }
    exfalso. revert Hr. unfold average_pitch. cbv zeta.
    destruct (gather3 (map (map (fun row => 0%Q :: cumsum Qplus row)) pitch)
                (map (cumsum Z.add) durs)) as [se|] eqn:Hse;
      cbn [mbind result_bind]; [|done].
    intros _.
    pose proof (gather3_in_range _ _ _ b (cumsum Z.add d)
                  (map (fun row => 0%Q :: cumsum Qplus row) chans)
                  (0%Q :: cumsum Qplus row) i Hse) as Hin.
    rewrite !list_lookup_fmap, Hd, Hc in Hin.
    specialize (Hin eq_refl eq_refl (in_map _ _ _ Hrow) Hi).
    simpl in Hin. rewrite length_cumsum in Hin. lia. }
  split; [|split; [|split]].
  - intros e. apply average_pitch_only.
  - intros Hlt. unfold average_pitch, gather3. cbv zeta. rewrite !length_map.
    apply Nat.ltb_lt in Hlt. by rewrite Hlt.
  - exact Hrange.
  - intros b d chans row Hd Hc Hrow Hsum.
    apply (Hrange b d chans row (sumZ d)); try done; [|lia].
    apply cumsum_last. intros ->. simpl in Hsum. lia.
Qed.

Lemma average_pitch_errors_witness :
  average_pitch [[[1; 1; 1; 0; 5]]]%Q [[3; 0; 3]] = Raise RuntimeError.
Proof.
  destruct (average_pitch_errors [[[1; 1; 1; 0; 5]]]%Q [[3; 0; 3]]) as (_ & _ & _ & H).
  apply (H 0%nat [3; 0; 3] [[1; 1; 1; 0; 5]]%Q [1; 1; 1; 0; 5]%Q);
    [reflexivity|reflexivity|by left|simpl; lia].
Defined.

Section AveragePitchShape.

Lemma mapR_length {A B} (f : A -> result B) l ys :
  mapR f l = Ok ys -> length ys = length l.
Proof. intros H. apply mapR_Ok_inv in H. symmetry. by eapply Forall2_length. Qed.

Lemma gather3_shape {A} (input : list (list (list A))) index g :
  gather3 input index = Ok g ->
  length g = length index
  /\ (length index <= length input)%nat
  /\ forall b idx chans gb,
       index !! b = Some idx -> input !! b = Some chans -> g !! b = Some gb ->
       length gb = length chans /\ Forall (fun r => length r = length idx) gb.
Proof.
  unfold gather3.
  destruct (Nat.ltb_spec (length input) (length index)) as [Hlt|Hle]; [done|].
  intros H. pose proof (mapR_length _ _ _ H) as Hlen.
  rewrite length_zip_with in Hlen. split; [lia|]. split; [done|].
  intros b idx chans gb Hidx Hchans Hgb.
  apply mapR_Ok_inv in H.
  assert (zip index input !! b = Some (idx, chans)) as Hz.
  { rewrite lookup_zip_with, Hidx, Hchans. reflexivity. }
  destruct (Forall2_lookup_l _ _ _ _ _ H Hz) as (y & Hy & Hf).
  rewrite Hgb in Hy. injection Hy as <-. simpl in Hf.
  split; [by eapply mapR_length|].
  apply mapR_Ok_inv in Hf. apply Forall_lookup. intros c r Hr.
  destruct (Forall2_lookup_r _ _ _ _ _ Hf Hr) as (row & _ & Hrow).
  by apply mapR_length in Hrow.
Qed.

Lemma length_removelast_pred {A} (l : list A) :
  length (removelast l) = pred (length l).
Proof.
  induction l as [|x l IH]; [done|].
  destruct l as [|y l]; [done|].
  change (removelast (x :: y :: l)) with (x :: removelast (y :: l)).
  cbn [length]. rewrite IH. reflexivity.
Qed.

Lemma length_starts d : d <> [] ->
  length (0 :: removelast (cumsum Z.add d)) = length d.
Proof.
  intros Hne. cbn [length]. rewrite length_removelast_pred, length_cumsum.
  destruct d; [done|]. simpl. lia.
Qed.

Lemma sumQ_bounds lo hi l :
  Forall (fun p => (lo <= p <= hi)%Q) l ->
  (lo * inject_Z (Z.of_nat (length l)) <= sumQ l
   /\ sumQ l <= hi * inject_Z (Z.of_nat (length l)))%Q.
Proof.
  induction 1 as [|p l [Hp1 Hp2] _ [IH1 IH2]].
  - cbn [length sumQ foldr]. change (inject_Z (Z.of_nat 0)) with 0%Q. split; lra.
  - cbn [length sumQ foldr]. fold (sumQ l).
    rewrite Nat2Z.inj_succ. unfold Z.succ. rewrite inject_Z_plus.
    change (inject_Z 1) with 1%Q. split; lra.
Qed.

(** The mean of the voiced frames lies between their bounds. *)
Lemma mean_nonzero_bounds lo hi frames :
  (forall p, In p frames -> ~ (p == 0)%Q -> (lo <= p <= hi)%Q) ->
  (exists p, In p frames /\ ~ (p == 0)%Q) ->
  (lo <= mean_nonzero frames <= hi)%Q.
Proof.
  intros Hall (p & Hp & Hnz). unfold mean_nonzero. cbv zeta.
  set (voiced := List.filter (fun p => negb (Qeq_bool p 0)) frames).
  assert (Forall (fun p => (lo <= p <= hi)%Q) voiced) as Hv.
  { apply Forall_forall. intros q Hq. apply filter_In in Hq as [Hq Hb].
    apply Hall; [done|]. intros H0. apply Qeq_bool_iff in H0. by rewrite H0 in Hb. }
  assert (In p voiced) as Hpv.
  { apply filter_In. split; [done|].
    destruct (Qeq_bool p 0) eqn:Hb; [|done]. by apply Qeq_bool_iff in Hb. }
  destruct (sumQ_bounds lo hi voiced Hv) as [H1 H2].
  destruct voiced as [|v voiced]; [done|].
  set (n := inject_Z (Z.of_nat (length (v :: voiced)))) in *.
  assert (0 < n)%Q as Hn.
  { subst n. change 0%Q with (inject_Z 0). rewrite <- Zlt_Qlt. simpl. lia. }
  split.
  - by apply Qle_shift_div_l.
  - by apply Qle_shift_div_r.
Qed.

(** One entry of the result, under [durs_fit]. *)
Lemma average_pitch_entry pitch durs out b c k chans row d dk ob oc x :
  durs_fit durs pitch -> average_pitch pitch durs = Ok out ->
  pitch !! b = Some chans -> chans !! c = Some row ->
  durs !! b = Some d -> d !! k = Some dk ->
  out !! b = Some ob -> ob !! c = Some oc -> oc !! k = Some x ->
  (x == mean_nonzero (tok_frames row d k))%Q.
Proof.
  intros H Hout Hb Hc Hd Hk Hob Hoc Hx.
  rewrite (average_pitch_rows _ _ H) in Hout. injection Hout as <-.
  rewrite lookup_zip_with, Hd, Hb in Hob. simpl in Hob. injection Hob as <-.
  rewrite list_lookup_fmap, Hc in Hoc. simpl in Hoc. injection Hoc as <-.
  destruct (Forall2_lookup_lr _ _ _ _ _ _ H Hd Hb) as [Hnn Hfit].
  rewrite Forall_lookup in Hfit. pose proof (Hfit c row Hc) as Hlen. simpl in Hlen.
  pose proof (row_avg_means row d Hnn Hlen) as Hveq.
  destruct (Forall2_lookup_l _ _ _ _ _ Hveq Hx) as (y & Hy & Hxy).
  rewrite (interval_means_lookup row d k dk Hnn Hk) in Hy. by injection Hy as <-.
Qed.

End AveragePitchShape.

(** X7: whenever the averager returns, its result has one sample per sample
    of the durations, in each sample one row per channel of the signal, and
    in each row one entry per token. *)
Theorem average_pitch_shape
    (pitch : list (list (list Q))) (durs : list (list Z)) (out : list (list (list Q))) :
  average_pitch pitch durs = Ok out ->
  length out = length durs
  /\ forall b d chans ob,
       durs !! b = Some d -> pitch !! b = Some chans -> out !! b = Some ob ->
       length ob = length chans /\ Forall (fun oc => length oc = length d) ob.
Proof.
  unfold average_pitch. cbv zeta.
  lazymatch goal with |- (?m ≫= _) = Ok _ -> _ =>
    destruct m as [se|] eqn:Hse; cbn [mbind result_bind]; [|done] end.
  lazymatch goal with |- (?m ≫= _) = Ok _ -> _ =>
    destruct m as [ss|] eqn:Hss; cbn [mbind result_bind]; [|done] end.
  lazymatch goal with |- (?m ≫= _) = Ok _ -> _ =>
    destruct m as [ne|] eqn:Hne; cbn [mbind result_bind]; [|done] end.
  lazymatch goal with |- (?m ≫= _) = Ok _ -> _ =>
    destruct m as [ns|] eqn:Hns; cbn [mbind result_bind]; [|done] end.
  intros [= <-].
  destruct (gather3_shape _ _ _ Hse) as (Lse & _ & Sse).
  destruct (gather3_shape _ _ _ Hss) as (Lss & _ & Sss).
  destruct (gather3_shape _ _ _ Hne) as (Lne & _ & Sne).
  destruct (gather3_shape _ _ _ Hns) as (Lns & _ & Sns).
  repeat rewrite length_map in Lse. repeat rewrite length_map in Lss.
  repeat rewrite length_map in Lne. repeat rewrite length_map in Lns.
  split.
  { unfold zip_with3. rewrite !length_zip_with. lia. }
  intros b d chans ob Hd Hc Hob.
  unfold zip_with3 in Hob.
  apply lookup_zip_with_Some in Hob as (nb & sb & -> & Hnb & Hsb).
  apply lookup_zip_with_Some in Hnb as (neb & nsb & -> & Hneb & Hnsb).
  apply lookup_zip_with_Some in Hsb as (seb & ssb & -> & Hseb & Hssb).
  assert (map (cumsum Z.add) durs !! b = Some (cumsum Z.add d)) as He
    by (by rewrite list_lookup_fmap, Hd).
  assert (map (fun ends => 0 :: removelast ends) (map (cumsum Z.add) durs) !! b
          = Some (0 :: removelast (cumsum Z.add d))) as Hs
    by (by rewrite !list_lookup_fmap, Hd).
  assert (forall {A} (F : list Q -> list A),
            map (map F) pitch !! b = Some (map F chans)) as Hp
    by (intros; by rewrite list_lookup_fmap, Hc).
  destruct (Sse b _ _ _ He (Hp _ _) Hseb) as [C1 R1].
  destruct (Sss b _ _ _ Hs (Hp _ _) Hssb) as [C2 R2].
  destruct (Sne b _ _ _ He (Hp _ _) Hneb) as [C3 R3].
  destruct (Sns b _ _ _ Hs (Hp _ _) Hnsb) as [C4 R4].
  rewrite length_map in C1. rewrite length_map in C2.
  rewrite length_map in C3. rewrite length_map in C4.
  split.
  { rewrite !length_zip_with. lia. }
  apply Forall_lookup. intros c oc Hoc.
  apply lookup_zip_with_Some in Hoc as (nc & sc & -> & Hnc & Hsc).
  apply lookup_zip_with_Some in Hnc as (nec & nsc & -> & Hnec & Hnsc).
  apply lookup_zip_with_Some in Hsc as (sec & ssc & -> & Hsec & Hssc).
  rewrite Forall_lookup in R1. rewrite Forall_lookup in R2.
  rewrite Forall_lookup in R3. rewrite Forall_lookup in R4.
  pose proof (R1 _ _ Hsec) as L1. pose proof (R2 _ _ Hssc) as L2.
  pose proof (R3 _ _ Hnec) as L3. pose proof (R4 _ _ Hnsc) as L4.
  simpl in L1, L2, L3, L4. rewrite length_cumsum in L1. rewrite length_cumsum in L3.
  rewrite !length_zip_with.
  destruct d as [|x d'].
  - simpl in *. lia.
  - change (S (length (removelast (cumsum Z.add (x :: d')))))
      with (length (0 :: removelast (cumsum Z.add (x :: d')))) in L2, L4.
    rewrite length_starts in L2 by done. rewrite length_starts in L4 by done. lia.
Qed.

Lemma average_pitch_shape_witness :
  exists out,
    average_pitch [[[1; 1; 1; 0; 5]; [0; 0; 0; 2; 4]]]%Q [[3; 0; 2]] = Ok out
    /\ length out = 1%nat.
Proof.
  eexists. split; [reflexivity|].
  exact (proj1 (average_pitch_shape
                  [[[1; 1; 1; 0; 5]; [0; 0; 0; 2; 4]]]%Q [[3; 0; 2]] _ eq_refl)).
Defined.


(** ** Splice bounds and splice *)

Section Splice.

Lemma for_each_app {A S} (l1 l2 : list A) (s : S) body :
  Py.for_each (l1 ++ l2) s body = (s' ← Py.for_each l1 s body; Py.for_each l2 s' body).
Proof.
  revert s. induction l1 as [|x l1 IH]; intros s; [done|].
  cbn [app Py.for_each]. destruct (body s x) as [s'|]; cbn [mbind result_bind]; [|done].
  apply IH.
Qed.

Lemma index_nonneg {A} (l : list A) (n : nat) v :
  l !! n = Some v -> Py.index l (Z.of_nat n) = Ok v.
Proof.
  intros H. pose proof (lookup_lt_Some _ _ _ H) as Hlt.
  unfold Py.index, Py.norm_index.
  destruct (Z.ltb_spec (Z.of_nat n) 0); [lia|].
  destruct (Z.leb_spec 0 (Z.of_nat n)); [|lia].
  destruct (Z.ltb_spec (Z.of_nat n) (Z.of_nat (length l))); [|lia].
  cbn [andb mbind result_bind]. by rewrite Nat2Z.id, H.
Qed.

Lemma store_nonneg {A} (l : list A) (n : nat) v :
  (n < length l)%nat -> Py.store l (Z.of_nat n) v = Ok (<[n := v]> l).
Proof.
  intros Hlt. unfold Py.store, Py.norm_index.
  destruct (Z.ltb_spec (Z.of_nat n) 0); [lia|].
  destruct (Z.leb_spec 0 (Z.of_nat n)); [|lia].
  destruct (Z.ltb_spec (Z.of_nat n) (Z.of_nat (length l))); [|lia].
  cbn [andb mbind result_bind]. by rewrite Nat2Z.id.
Qed.

Lemma index_from_end {A} (l : list A) (k : nat) v :
  (k < length l)%nat -> l !! (length l - S k)%nat = Some v ->
  Py.index l (- Z.of_nat k - 1) = Ok v.
Proof.
  intros Hlt H. unfold Py.index, Py.norm_index.
  destruct (Z.ltb_spec (- Z.of_nat k - 1) 0); [|lia].
  destruct (Z.leb_spec 0 (- Z.of_nat k - 1 + Z.of_nat (length l))); [|lia].
  destruct (Z.ltb_spec (- Z.of_nat k - 1 + Z.of_nat (length l)) (Z.of_nat (length l)));
    [|lia].
  cbn [andb mbind result_bind].
  replace (Z.to_nat (- Z.of_nat k - 1 + Z.of_nat (length l)))
    with (length l - S k)%nat by lia.
  by rewrite H.
Qed.

Lemma store_from_end {A} (l : list A) (k : nat) v :
  (k < length l)%nat ->
  Py.store l (- Z.of_nat k - 1) v = Ok (<[(length l - S k)%nat := v]> l).
Proof.
  intros Hlt. unfold Py.store, Py.norm_index.
  destruct (Z.ltb_spec (- Z.of_nat k - 1) 0); [|lia].
  destruct (Z.leb_spec 0 (- Z.of_nat k - 1 + Z.of_nat (length l))); [|lia].
  destruct (Z.ltb_spec (- Z.of_nat k - 1 + Z.of_nat (length l)) (Z.of_nat (length l)));
    [|lia].
  cbn [andb mbind result_bind].
  by replace (Z.to_nat (- Z.of_nat k - 1 + Z.of_nat (length l)))
    with (length l - S k)%nat by lia.
Qed.

(** One more leading entry taken from the existing array. *)
Lemma insert_front {A} (ex l : list A) (n : nat) v :
  (n < length l)%nat -> ex !! n = Some v ->
  <[n := v]> (take n ex ++ drop n l) = take (S n) ex ++ drop (S n) l.
Proof.
  intros Hl Hv. pose proof (lookup_lt_Some _ _ _ Hv) as He.
  destruct (lookup_lt_is_Some_2 l n Hl) as [x Hx].
  rewrite insert_app_r_alt by (rewrite length_take; lia).
  rewrite length_take, Nat.min_l, Nat.sub_diag by lia.
  rewrite (drop_S _ _ _ Hx). cbn [insert list_insert].
  rewrite (take_S_r _ _ _ Hv), <- app_assoc. reflexivity.
Qed.

(** One more trailing entry taken from the existing array. *)
Lemma insert_back {A} (ex l : list A) (k : nat) v :
  (k < length l)%nat -> (k < length ex)%nat ->
  ex !! (length ex - S k)%nat = Some v ->
  <[(length l - S k)%nat := v]> (take (length l - k) l ++ drop (length ex - k) ex)
  = take (length l - S k) l ++ drop (length ex - S k) ex.
Proof.
  intros Hl He Hv.
  destruct (lookup_lt_is_Some_2 l (length l - S k)) as [x Hx]; [lia|].
  rewrite insert_app_l by (rewrite length_take; lia).
  replace (length l - k)%nat with (S (length l - S k)) by lia.
  rewrite (take_S_r _ _ _ Hx).
  rewrite insert_app_r_alt by (rewrite length_take; lia).
  rewrite length_take, Nat.min_l, Nat.sub_diag by lia.
  cbn [insert list_insert]. rewrite <- app_assoc. cbn [app].
  rewrite (drop_S _ _ _ Hv). do 3 f_equal. lia.
Qed.

Lemma length_front {A} (ex l : list A) (n : nat) :
  (n <= length ex)%nat -> (n <= length l)%nat ->
  length (take n ex ++ drop n l) = length l.
Proof. intros. rewrite length_app, length_take, length_drop. lia. Qed.

Lemma length_back {A} (ex l : list A) (k : nat) :
  (k <= length ex)%nat -> (k <= length l)%nat ->
  length (take (length l - k) l ++ drop (length ex - k) ex) = length l.
Proof. intros. rewrite length_app, length_take, length_drop. lia. Qed.

Lemma splice_step_front dex pex dur pitch (n : nat) :
  (n < length dex)%nat -> (n < length pex)%nat ->
  (n < length dur)%nat -> (n < length pitch)%nat ->
  splice_step dex pex (take n dex ++ drop n dur, take n pex ++ drop n pitch) (Z.of_nat n)
  = Ok (take (S n) dex ++ drop (S n) dur, take (S n) pex ++ drop (S n) pitch).
Proof.
  intros H1 H2 H3 H4.
  destruct (lookup_lt_is_Some_2 dex n H1) as [d Hd].
  destruct (lookup_lt_is_Some_2 pex n H2) as [q Hq].
  unfold splice_step.
  rewrite (index_nonneg _ _ _ Hd). cbn [mbind result_bind].
  rewrite store_nonneg by (rewrite length_front; lia). cbn [mbind result_bind].
  rewrite (index_nonneg _ _ _ Hq). cbn [mbind result_bind].
  rewrite store_nonneg by (rewrite length_front; lia). cbn [mbind result_bind].
  by rewrite !insert_front.
Qed.

Lemma front_loop dex pex dur pitch (n : nat) :
  (n <= length dex)%nat -> (n <= length pex)%nat ->
  (n <= length dur)%nat -> (n <= length pitch)%nat ->
  Py.for_each (Py.range (Z.of_nat n)) (dur, pitch) (splice_step dex pex)
  = Ok (take n dex ++ drop n dur, take n pex ++ drop n pitch).
Proof.
  induction n as [|n IH]; intros H1 H2 H3 H4; [done|].
  unfold Py.range in *. rewrite seqZ_S, for_each_app, IH by lia.
  cbn [mbind result_bind Py.for_each]. rewrite Z.add_0_l.
  rewrite splice_step_front by lia. reflexivity.
Qed.

Lemma splice_step_back dex pex dur pitch (k : nat) :
  (k < length dex)%nat -> (k < length pex)%nat ->
  (k < length dur)%nat -> (k < length pitch)%nat ->
  splice_step dex pex
    (take (length dur - k) dur ++ drop (length dex - k) dex,
     take (length pitch - k) pitch ++ drop (length pex - k) pex)
    (- Z.of_nat k - 1)
  = Ok (take (length dur - S k) dur ++ drop (length dex - S k) dex,
        take (length pitch - S k) pitch ++ drop (length pex - S k) pex).
Proof.
  intros H1 H2 H3 H4.
  destruct (lookup_lt_is_Some_2 dex (length dex - S k)) as [d Hd]; [lia|].
  destruct (lookup_lt_is_Some_2 pex (length pex - S k)) as [q Hq]; [lia|].
  unfold splice_step.
  rewrite (index_from_end _ _ _ H1 Hd). cbn [mbind result_bind].
  rewrite store_from_end by (rewrite length_back; lia). cbn [mbind result_bind].
  rewrite (index_from_end _ _ _ H2 Hq). cbn [mbind result_bind].
  rewrite store_from_end by (rewrite length_back; lia). cbn [mbind result_bind].
  rewrite !length_back by lia. by rewrite !insert_back.
Qed.

Lemma back_loop dex pex dur pitch (k : nat) :
  (k <= length dex)%nat -> (k <= length pex)%nat ->
  (k <= length dur)%nat -> (k <= length pitch)%nat ->
  Py.for_each (map (fun i => - i - 1) (Py.range (Z.of_nat k))) (dur, pitch)
    (splice_step dex pex)
  = Ok (take (length dur - k) dur ++ drop (length dex - k) dex,
        take (length pitch - k) pitch ++ drop (length pex - k) pex).
Proof.
  induction k as [|k IH]; intros H1 H2 H3 H4.
  - cbn [Py.range seqZ map Py.for_each]. rewrite !Nat.sub_0_r.
    by rewrite !take_ge, !drop_ge, !app_nil_r by lia.
  - unfold Py.range in *. rewrite seqZ_S, map_app, for_each_app, IH by lia.
    cbn [mbind result_bind map Py.for_each]. rewrite Z.add_0_l.
    rewrite splice_step_back by lia. reflexivity.
Qed.

Lemma range_to_nat z : Py.range z = Py.range (Z.of_nat (Z.to_nat z)).
Proof.
  unfold Py.range. destruct (Z.le_gt_cases 0 z).
  - by rewrite Z2Nat.id.
  - rewrite !seqZ_nil by lia. reflexivity.
Qed.

(** The two splice loops replace leading and trailing entries. *)
Lemma splice_values_closed s e len_old dur pitch dex pex :
  let n := front_count s in
  let k := back_count len_old e in
  (n <= length dex)%nat -> (n <= length pex)%nat ->
  (n <= length dur)%nat -> (n <= length pitch)%nat ->
  (k <= length dex)%nat -> (k <= length pex)%nat ->
  (k <= length dur)%nat -> (k <= length pitch)%nat ->
  splice_values s e len_old dur pitch dex pex
  = Ok (spliced n k dex dur, spliced n k pex pitch).
Proof.
  intros n k Hn1 Hn2 Hn3 Hn4 Hk1 Hk2 Hk3 Hk4. unfold splice_values.
  assert (match s with
          | Some s0 => Py.for_each (Py.range (s0 + 1)) (dur, pitch) (splice_step dex pex)
          | None => Ok (dur, pitch)
          end = Ok (take n dex ++ drop n dur, take n pex ++ drop n pitch)) as ->.
  { subst n. destruct s as [sv|]; [|done]. cbn [front_count] in *.
    rewrite range_to_nat. by apply front_loop. }
  cbn [mbind result_bind]. unfold spliced.
  destruct e as [ev|]; subst k; cbn [back_count] in *.
  - rewrite range_to_nat, back_loop by (rewrite ?length_front; lia).
    by rewrite !length_front by lia.
  - rewrite !Nat.sub_0_r.
    rewrite (take_ge (take n dex ++ drop n dur)) by (rewrite length_front; lia).
    rewrite (take_ge (take n pex ++ drop n pitch)) by (rewrite length_front; lia).
    rewrite (drop_ge dex), (drop_ge pex), !app_nil_r by lia.
    reflexivity.
Qed.

Lemma spliced_length {A} (n k : nat) (ex l : list A) :
  (n <= length ex)%nat -> (n <= length l)%nat ->
  (k <= length ex)%nat -> (k <= length l)%nat ->
  length (spliced n k ex l) = length l.
Proof.
  intros. unfold spliced.
  rewrite length_app, length_take, length_drop, length_front by lia. lia.
Qed.

Lemma spliced_lookup {A} (n k : nat) (ex l : list A) (j : nat) :
  (n <= length ex)%nat -> (n <= length l)%nat ->
  (k <= length ex)%nat -> (k <= length l)%nat ->
  (j < length l)%nat ->
  spliced n k ex l !! j =
    if decide (length l - k <= j)%nat then ex !! (j + length ex - length l)%nat
    else if decide (j < n)%nat then ex !! j
    else l !! j.
Proof.
  intros Hn1 Hn2 Hk1 Hk2 Hj. unfold spliced.
  destruct (decide (length l - k <= j)%nat) as [Hge|Hlt].
  - rewrite lookup_app_r by (rewrite length_take, length_front; lia).
    rewrite length_take, length_front, lookup_drop by lia. f_equal. lia.
  - rewrite lookup_app_l by (rewrite length_take, length_front; lia).
    rewrite lookup_take_lt by lia.
    destruct (decide (j < n)%nat) as [Hjn|Hjn].
    + rewrite lookup_app_l by (rewrite length_take; lia). by rewrite lookup_take_lt by lia.
    + rewrite lookup_app_r by (rewrite length_take; lia).
      rewrite length_take, lookup_drop. f_equal. lia.
Qed.

(** What the loop over the two sequences finds. *)
Lemma first_change_spec i0 old new :
  match first_change i0 old new with
  | Some i =>
      exists n : nat,
        i = i0 + Z.of_nat n /\ (n < length old)%nat /\ (n <= length new)%nat
        /\ take n old = take n new
        /\ ~ (exists t, old !! n = Some t /\ new !! n = Some t)
  | None => (length old <= length new)%nat /\ old = take (length old) new
  end.
Proof.
  revert i0 new. induction old as [|o old IH]; intros i0 new.
  - simpl. split; [lia|done].
  - destruct new as [|x new]; cbn [first_change].
    + exists 0%nat. repeat split; try done; [lia|simpl; lia|].
      by intros (t & _ & ?).
    + destruct (Z.eqb_spec o x) as [->|Hne].
      * specialize (IH (i0 + 1) new).
        destruct (first_change (i0 + 1) old new) as [i|].
        -- destruct IH as (n & -> & Hn1 & Hn2 & Htake & Hstop).
           exists (S n). repeat split; [lia|simpl; lia|simpl; lia| |done].
           cbn [take]. by rewrite Htake.
        -- destruct IH as [Hlen Hpre]. split; [simpl; lia|].
           cbn [length take]. by rewrite <- Hpre.
      * exists 0%nat. repeat split; try done; [lia|simpl; lia|simpl; lia|].
        intros (t & Ht1 & Ht2). simpl in Ht1, Ht2. congruence.
Qed.

Lemma index_head {A} (l : list A) v : l !! 0%nat = Some v -> Py.index l 0 = Ok v.
Proof. intros H. by apply (index_nonneg l 0). Qed.

Lemma splice_bounds_empty old new :
  old = [] \/ new = [] -> splice_bounds old new = Raise IndexError.
Proof.
  intros [-> | ->]; [done|]. unfold splice_bounds.
  destruct old as [|o old]; [done|].
  rewrite (index_head (o :: old) o) by done. reflexivity.
Qed.

(** The bounds delimit the common prefix and the common suffix. *)
Lemma splice_bounds_spec old new s e :
  splice_bounds old new = Ok (s, e) ->
  old <> [] /\ new <> []
  /\ match s with
     | Some sv =>
         exists n : nat,
           sv = Z.of_nat n - 1 /\ (1 <= n)%nat
           /\ (n <= length old)%nat /\ (n <= length new)%nat
           /\ take n old = take n new
           /\ ~ (exists t, old !! n = Some t /\ new !! n = Some t)
     | None => old !! 0%nat <> new !! 0%nat
     end
  /\ match e with
     | Some ev =>
         exists k : nat,
           ev = Z.of_nat (length old) - Z.of_nat k /\ (1 <= k)%nat
           /\ (k < length old)%nat /\ (k <= length new)%nat
           /\ drop (length old - k) old = drop (length new - k) new
           /\ ~ (exists t, (k < length new)%nat
                           /\ old !! (length old - S k)%nat = Some t
                           /\ new !! (length new - S k)%nat = Some t)
     | None =>
         old !! (length old - 1)%nat <> new !! (length new - 1)%nat
         \/ ((length old <= length new)%nat
             /\ old = drop (length new - length old) new)
     end.
Proof.
  intros H.
  destruct old as [|o old']; [done|].
  destruct new as [|x new'].
  { by rewrite splice_bounds_empty in H by auto. }
  remember (o :: old') as old eqn:Hold. remember (x :: new') as new eqn:Hnew.
  assert (old !! 0%nat = Some o) as Ho by (by subst).
  assert (new !! 0%nat = Some x) as Hx by (by subst).
  assert (0 < length old)%nat as Hlo by (subst; simpl; lia).
  assert (0 < length new)%nat as Hln by (subst; simpl; lia).
  split; [by subst|]. split; [by subst|].
  destruct (lookup_lt_is_Some_2 (reverse old) 0) as [ro Hro];
    [rewrite length_reverse; lia|].
  destruct (lookup_lt_is_Some_2 (reverse new) 0) as [rn Hrn];
    [rewrite length_reverse; lia|].
  unfold splice_bounds in H.
  rewrite (index_head _ _ Ho), (index_head _ _ Hx) in H. cbn [mbind result_bind] in H.
  rewrite (index_head _ _ Hro), (index_head _ _ Hrn) in H. cbn [mbind result_bind] in H.
  injection H as <- <-. split.
  - destruct (Z.eqb_spec o x) as [->|Hne]; [|rewrite Ho, Hx; congruence].
    pose proof (first_change_spec 0 old new) as Hfc.
    destruct (first_change 0 old new) as [i|].
    + destruct Hfc as (n & -> & Hn1 & Hn2 & Htake & Hstop).
      exists n. repeat split; try done; try lia.
      destruct n; [|lia]. exfalso. apply Hstop. by exists x.
    + destruct Hfc as [Hlen Hpre].
      exists (length old). repeat split; try done; try lia.
      * by rewrite firstn_all.
      * intros (t & Ht & _). apply lookup_lt_Some in Ht. lia.
  - rewrite reverse_lookup in Hro, Hrn by lia.
    replace (length old - 1)%nat with (length old - 1 - 0)%nat by lia.
    replace (length new - 1)%nat with (length new - 1 - 0)%nat by lia.
    replace (length old - 1 - 0)%nat with (length old - 1)%nat in * by lia.
    replace (length new - 1 - 0)%nat with (length new - 1)%nat in * by lia.
    destruct (Z.eqb_spec ro rn) as [->|Hne].
    2: { left. rewrite Hro, Hrn. congruence. }
    pose proof (first_change_spec 0 (reverse old) (reverse new)) as Hfc.
    destruct (first_change 0 (reverse old) (reverse new)) as [i|].
    + destruct Hfc as (k & -> & Hk1 & Hk2 & Htake & Hstop).
      rewrite length_reverse in Hk1, Hk2.
      assert (1 <= k)%nat as Hk0.
      { destruct k; [|lia]. exfalso. apply Hstop. exists rn.
        rewrite !reverse_lookup by lia. by rewrite Hro, Hrn. }
      exists k. repeat split; try done; try lia.
      * rewrite !take_reverse in Htake.
        apply (f_equal reverse) in Htake. by rewrite !reverse_involutive in Htake.
      * intros (t & Hkn & Ht1 & Ht2). apply Hstop. exists t.
        rewrite !reverse_lookup by lia. done.
    + destruct Hfc as [Hlen Hpre]. rewrite !length_reverse in Hlen.
      rewrite length_reverse in Hpre.
      right. split; [done|].
      rewrite take_reverse in Hpre.
      apply (f_equal reverse) in Hpre. by rewrite !reverse_involutive in Hpre.
Qed.

Lemma splice_bounds_total old new :
  old <> [] -> new <> [] -> exists s e, splice_bounds old new = Ok (s, e).
Proof.
  intros Ho Hn.
  destruct (lookup_lt_is_Some_2 old 0) as [o Hlo]; [destruct old; simpl; [done|lia]|].
  destruct (lookup_lt_is_Some_2 new 0) as [x Hlx]; [destruct new; simpl; [done|lia]|].
  destruct (lookup_lt_is_Some_2 (reverse old) 0) as [ro Hro].
  { rewrite length_reverse. apply lookup_lt_Some in Hlo. lia. }
  destruct (lookup_lt_is_Some_2 (reverse new) 0) as [rn Hrn].
  { rewrite length_reverse. apply lookup_lt_Some in Hlx. lia. }
  unfold splice_bounds.
  rewrite (index_head _ _ Hlo), (index_head _ _ Hlx). cbn [mbind result_bind].
  rewrite (index_head _ _ Hro), (index_head _ _ Hrn). cbn [mbind result_bind].
  eauto.
Qed.

Lemma splice_start_none_iff old new s e :
  splice_bounds old new = Ok (s, e) ->
  s = None <-> old !! 0%nat <> new !! 0%nat.
Proof.
  intros H. destruct (splice_bounds_spec _ _ _ _ H) as (_ & _ & Hs & _).
  destruct s as [sv|]; [|done]. split; [done|]. intros Hne. exfalso. apply Hne.
  destruct Hs as (n & _ & Hn & _ & _ & Htake & _).
  rewrite <- (lookup_take_lt old n 0), <- (lookup_take_lt new n 0) by lia.
  by rewrite Htake.
Qed.

Lemma splice_end_none_iff old new s e :
  splice_bounds old new = Ok (s, e) ->
  e = None <->
  old !! (length old - 1)%nat <> new !! (length new - 1)%nat
  \/ ((length old <= length new)%nat /\ old = drop (length new - length old) new).
Proof.
  intros H. destruct (splice_bounds_spec _ _ _ _ H) as (_ & _ & _ & He).
  destruct e as [ev|]; [|done]. split; [done|].
  destruct He as (k & _ & Hk1 & Hk2 & Hk3 & Hdrop & Hstop).
  intros [Hne | [Hlen Hsuf]]; exfalso.
  - apply Hne.
    pose proof (lookup_drop old (length old - k) (k - 1)) as E1.
    pose proof (lookup_drop new (length new - k) (k - 1)) as E2.
    rewrite Hdrop, E2 in E1.
    replace (length new - k + (k - 1))%nat with (length new - 1)%nat in E1 by lia.
    replace (length old - k + (k - 1))%nat with (length old - 1)%nat in E1 by lia.
    done.
  - destruct (lookup_lt_is_Some_2 old (length old - S k)) as [t Ht]; [lia|].
    apply Hstop. exists t. split; [lia|]. split; [done|].
    pose proof (lookup_drop new (length new - length old) (length old - S k)) as E.
    rewrite <- Hsuf, Ht in E.
    by replace (length new - length old + (length old - S k))%nat
      with (length new - S k)%nat in E by lia.
Qed.

Lemma spliced_nothing {A} (ex l : list A) : spliced 0 0 ex l = l.
Proof.
  unfold spliced. rewrite !Nat.sub_0_r.
  change (take 0 ex ++ drop 0 l) with l.
  by rewrite (take_ge l), (drop_ge ex), app_nil_r by lia.
Qed.

(** A prefix that covers everything takes every existing value. *)
Lemma spliced_all {A} (ex l : list A) :
  length l = length ex -> spliced (length ex) 0 ex l = ex.
Proof.
  intros Hl. unfold spliced. rewrite !Nat.sub_0_r.
  rewrite (take_ge ex), (drop_ge l), app_nil_r by lia.
  by rewrite (take_ge ex), (drop_ge ex), app_nil_r by lia.
Qed.

(** With arrays aligned to the sequences, the splice succeeds and is the
    closed form for the bounds found. *)
Lemma splice_prosody_closed old new s e dur pitch dex pex :
  splice_bounds old new = Ok (s, e) ->
  length dex = length old -> length pex = length old ->
  length dur = length new -> length pitch = length new ->
  let n := front_count s in
  let k := back_count (Z.of_nat (length old)) e in
  (n <= length old)%nat /\ (n <= length new)%nat
  /\ (k <= length old)%nat /\ (k <= length new)%nat
  /\ take n old = take n new
  /\ drop (length old - k) old = drop (length new - k) new
  /\ splice_prosody old new dur pitch dex pex
     = Ok (s, e, (spliced n k dex dur, spliced n k pex pitch)).
Proof.
  intros H Hd Hp Hl Hq n k.
  destruct (splice_bounds_spec _ _ _ _ H) as (_ & _ & Hs & He).
  assert ((n <= length old)%nat /\ (n <= length new)%nat /\ take n old = take n new)
    as (Hn1 & Hn2 & Hn3).
  { subst n. destruct s as [sv|]; cbn [front_count]; [|repeat split; lia].
    destruct Hs as (m & -> & ? & ? & ? & ? & _).
    by replace (Z.to_nat (Z.of_nat m - 1 + 1)) with m by lia. }
  assert ((k <= length old)%nat /\ (k <= length new)%nat
          /\ drop (length old - k) old = drop (length new - k) new)
    as (Hk1 & Hk2 & Hk3).
  { subst k. destruct e as [ev|]; cbn [back_count].
    - destruct He as (m & -> & ? & ? & ? & ? & _).
      replace (Z.to_nat (Z.of_nat (length old) - (Z.of_nat (length old) - Z.of_nat m)))
        with m by lia.
      repeat split; try done; lia.
    - rewrite !Nat.sub_0_r, !drop_all. repeat split; lia. }
  repeat split; try done.
  unfold splice_prosody. rewrite H. cbn [mbind result_bind].
  destruct (is_some s || is_some e) eqn:Hb.
  - rewrite splice_values_closed by (fold n; fold k; lia). reflexivity.
  - destruct s, e; try done. subst n k. cbn [front_count back_count].
    by rewrite !spliced_nothing.
Qed.

(** Splicing a sequence with itself takes every existing value. *)
Lemma splice_prosody_same (seq : list Z) (dur pitch dex pex : list Q) :
  seq <> [] ->
  length dex = length seq -> length pex = length seq ->
  length dur = length seq -> length pitch = length seq ->
  splice_prosody seq seq dur pitch dex pex
  = Ok (Some (Z.of_nat (length seq) - 1), None, (dex, pex)).
Proof.
  intros Hne Hd Hp Hl Hq.
  destruct (splice_bounds_total seq seq Hne Hne) as (s & e & H).
  assert (e = None) as ->.
  { apply (splice_end_none_iff _ _ _ _ H). right.
    split; [lia|]. by rewrite Nat.sub_diag. }
  assert (s = Some (Z.of_nat (length seq) - 1)) as ->.
  { destruct (splice_bounds_spec _ _ _ _ H) as (_ & _ & Hs & _).
    destruct s as [sv|]; [|done].
    destruct Hs as (n & -> & Hn0 & Hn1 & _ & _ & Hstop).
    destruct (decide (n = length seq)) as [->|Hn]; [done|].
    exfalso. apply Hstop.
    destruct (lookup_lt_is_Some_2 seq n) as [t Ht]; [lia|]. by exists t. }
  destruct (splice_prosody_closed seq seq _ _ dur pitch dex pex H Hd Hp Hl Hq)
    as (_ & _ & _ & _ & _ & _ & ->).
  cbn [front_count back_count].
  replace (Z.to_nat (Z.of_nat (length seq) - 1 + 1)) with (length seq) by lia.
  pose proof (spliced_all dex dur) as E1. pose proof (spliced_all pex pitch) as E2.
  rewrite Hd in E1. rewrite Hp in E2.
  by rewrite E1, E2 by lia.
Qed.

End Splice.

(** X9: the bounds computation raises an index error exactly on an empty
    old or new sequence; otherwise it returns, with no start bound exactly
    when the first tokens differ, and no end bound exactly when the last
    tokens differ or the old sequence is a suffix of the new one. *)
Theorem splice_bounds_edges (old new : list Z) :
  (old = [] \/ new = [] -> splice_bounds old new = Raise IndexError)
  /\ (old <> [] -> new <> [] ->
      exists s e,
        splice_bounds old new = Ok (s, e)
        /\ (s = None <-> old !! 0%nat <> new !! 0%nat)
        /\ (e = None <->
            old !! (length old - 1)%nat <> new !! (length new - 1)%nat
            \/ ((length old <= length new)%nat
                /\ old = drop (length new - length old) new))).
Proof.
  split; [apply splice_bounds_empty|].
  intros Ho Hn. destruct (splice_bounds_total old new Ho Hn) as (s & e & H).
  exists s, e. split; [done|]. split.
  - by eapply splice_start_none_iff.
  - by eapply splice_end_none_iff.
Qed.

Lemma splice_bounds_edges_witness :
  splice_bounds [] [1; 2] = Raise IndexError
  /\ exists s e, splice_bounds [1; 2; 3] [7; 1; 2; 3] = Ok (s, e) /\ s = None /\ e = None.
Proof.
  destruct (splice_bounds_edges [] [1; 2]) as [H1 _].
  destruct (splice_bounds_edges [1; 2; 3] [7; 1; 2; 3]) as [_ H2].
  split; [apply H1; by left|].
  destruct H2 as (s & e & H & Hs & He); [done|done|].
  exists s, e. split; [exact H|]. split.
  - apply Hs. discriminate.
  - apply He. right. split; [simpl; lia|reflexivity].
Defined.

(** X10: a start bound [s] is the last index of the longest common prefix
    of the two sequences, and an end bound [e] is the index at which their
    longest common suffix, shorter than the old sequence, starts in the old
    sequence: the tokens agree up to the bound and no further. *)
Theorem splice_bounds_delimit (old new : list Z) (s e : option Z) :
  splice_bounds old new = Ok (s, e) ->
  (forall sv, s = Some sv ->
     0 <= sv < Z.of_nat (length old) /\ sv < Z.of_nat (length new)
     /\ take (Z.to_nat (sv + 1)) old = take (Z.to_nat (sv + 1)) new
     /\ ~ (exists t, old !! Z.to_nat (sv + 1) = Some t
                     /\ new !! Z.to_nat (sv + 1) = Some t))
  /\ (forall ev, e = Some ev ->
       let k := Z.to_nat (Z.of_nat (length old) - ev) in
       0 < ev < Z.of_nat (length old) /\ (k <= length new)%nat
       /\ drop (Z.to_nat ev) old = drop (length new - k) new
       /\ ~ (exists t, (k < length new)%nat
                       /\ old !! Z.to_nat (ev - 1) = Some t
                       /\ new !! (length new - S k)%nat = Some t)).
Proof.
  intros H. destruct (splice_bounds_spec _ _ _ _ H) as (_ & _ & Hs & He). split.
  - intros sv ->. destruct Hs as (n & -> & Hn0 & Hn1 & Hn2 & Htake & Hstop).
    replace (Z.to_nat (Z.of_nat n - 1 + 1)) with n by lia.
    repeat split; try done; lia.
  - intros ev -> k. destruct He as (m & -> & Hm0 & Hm1 & Hm2 & Hdrop & Hstop).
    assert (k = m) as -> by (subst k; lia).
    replace (Z.to_nat (Z.of_nat (length old) - Z.of_nat m)) with (length old - m)%nat by lia.
    replace (Z.to_nat (Z.of_nat (length old) - Z.of_nat m - 1))
      with (length old - S m)%nat by lia.
    repeat split; try done; lia.
Qed.

Lemma splice_bounds_delimit_witness :
  take 2 [1; 2; 3; 4; 5] = take 2 [1; 2; 9; 4; 5]
  /\ drop 3 [1; 2; 3; 4; 5] = drop 3 [1; 2; 9; 4; 5].
Proof.
  destruct (splice_bounds_delimit [1; 2; 3; 4; 5] [1; 2; 9; 4; 5] (Some 1) (Some 3) eq_refl)
    as [Hs He].
  split.
  - exact (proj1 (proj2 (proj2 (Hs 1 eq_refl)))).
  - exact (proj1 (proj2 (proj2 (He 3 eq_refl)))).
Defined.

(** X11: with existing arrays as long as the old sequence and predictions as
    long as the new one, the splice never fails; in its result the last
    entries, as many as the common suffix found, are the existing values
    aligned from the end, the first entries, up to the start bound, are the
    existing values, every other entry is the fresh prediction, and an
    existing value is only placed where the old token it belongs to equals
    the new token. *)
Theorem splice_reuses_unchanged
    (old new : list Z) (dur pitch dex pex : list Q) :
  old <> [] -> new <> [] ->
  length dex = length old -> length pex = length old ->
  length dur = length new -> length pitch = length new ->
  exists s e dur' pitch',
    splice_prosody old new dur pitch dex pex = Ok (s, e, (dur', pitch'))
    /\ length dur' = length new /\ length pitch' = length new
    /\ forall j : nat, (j < length new)%nat ->
         let n := front_count s in
         let k := back_count (Z.of_nat (length old)) e in
         if decide (length new - k <= j)%nat then
           let i := (j + length old - length new)%nat in
           dur' !! j = dex !! i /\ pitch' !! j = pex !! i /\ old !! i = new !! j
         else if decide (j < n)%nat then
           dur' !! j = dex !! j /\ pitch' !! j = pex !! j /\ old !! j = new !! j
         else dur' !! j = dur !! j /\ pitch' !! j = pitch !! j.
Proof.
  intros Ho Hn Hd Hp Hl Hq.
  destruct (splice_bounds_total old new Ho Hn) as (s & e & H).
  destruct (splice_prosody_closed old new s e dur pitch dex pex H Hd Hp Hl Hq)
    as (Hn1 & Hn2 & Hk1 & Hk2 & Htake & Hdrop & Heq).
  exists s, e, (spliced (front_count s) (back_count (Z.of_nat (length old)) e) dex dur),
    (spliced (front_count s) (back_count (Z.of_nat (length old)) e) pex pitch).
  split; [exact Heq|].
  split; [rewrite spliced_length; lia|]. split; [rewrite spliced_length; lia|].
  intros j Hj. cbv zeta.
  set (n := front_count s) in *. set (k := back_count (Z.of_nat (length old)) e) in *.
  rewrite !spliced_lookup by lia. rewrite Hd, Hp, Hl, Hq.
  destruct (decide (length new - k <= j)%nat) as [Hge|Hlt].
  - repeat split; try done.
    pose proof (lookup_drop old (length old - k) (j - (length new - k))) as E1.
    pose proof (lookup_drop new (length new - k) (j - (length new - k))) as E2.
    rewrite Hdrop, E2 in E1.
    replace (length new - k + (j - (length new - k)))%nat with j in E1 by lia.
    replace (length old - k + (j - (length new - k)))%nat
      with (j + length old - length new)%nat in E1 by lia.
    by symmetry.
  - destruct (decide (j < n)%nat) as [Hjn|Hjn]; [|done].
    repeat split; try done.
    rewrite <- (lookup_take_lt old n j), <- (lookup_take_lt new n j) by lia.
    by rewrite Htake.
Qed.

Lemma splice_reuses_unchanged_witness :
  exists s e dur' pitch',
    splice_prosody [1; 2; 3; 4] [1; 9; 8; 3; 4]
      [2; 2; 2; 2; 2]%Q [3; 3; 3; 3; 3]%Q [10; 20; 30; 40]%Q [11; 21; 31; 41]%Q
    = Ok (s, e, (dur', pitch'))
    /\ length dur' = 5%nat /\ length pitch' = 5%nat.
Proof.
  destruct (splice_reuses_unchanged [1; 2; 3; 4] [1; 9; 8; 3; 4]
              [2; 2; 2; 2; 2]%Q [3; 3; 3; 3; 3]%Q [10; 20; 30; 40]%Q [11; 21; 31; 41]%Q
              ltac:(discriminate) ltac:(discriminate) eq_refl eq_refl eq_refl eq_refl)
    as (s & e & dur' & pitch' & H & H1 & H2 & _).
  exists s, e, dur', pitch'. repeat split; assumption.
Defined.

(** X12: when the new sequence is the old one, the start bound is the last
    index, there is no end bound, and the splice replaces every predicted
    duration and pitch by the existing one. *)
Theorem splice_identical (seq : list Z) (dur pitch dex pex : list Q) :
  seq <> [] ->
  length dex = length seq -> length pex = length seq ->
  length dur = length seq -> length pitch = length seq ->
  splice_prosody seq seq dur pitch dex pex
  = Ok (Some (Z.of_nat (length seq) - 1), None, (dex, pex)).
Proof. apply splice_prosody_same. Qed.

Lemma splice_identical_witness :
  splice_prosody [5; 6; 7] [5; 6; 7] [2; 2; 2]%Q [3; 3; 3]%Q [10; 20; 30]%Q [11; 21; 31]%Q
  = Ok (Some 2, None, ([10; 20; 30]%Q, [11; 21; 31]%Q)).
Proof.
  exact (splice_identical [5; 6; 7] [2; 2; 2]%Q [3; 3; 3]%Q [10; 20; 30]%Q [11; 21; 31]%Q
           ltac:(discriminate) eq_refl eq_refl eq_refl eq_refl).
Defined.

(** ** Inference with side data *)

Section InferenceMore.

Context {Mask Mel Text : Type}.
Context (self : FastPitch Mask Mel).
Context (plugin_manager : PluginManager Text).

Lemma broadcast_only {A B} (xs : list A) (ys : list B) e :
  broadcast xs ys = Raise e -> e = RuntimeError.
Proof.
  unfold broadcast. intros Hb.
  repeat (match type of Hb with context [match ?x with _ => _ end] =>
            destruct x end; try congruence).
Qed.

Lemma tensor_add_only x y e : tensor_add x y = Raise e -> e = RuntimeError.
Proof.
  unfold tensor_add. destruct (broadcast x y) as [pairs|e1] eqn:Hb; cbn [mbind result_bind].
  - apply mapR_only. intros [u v] e'. unfold vec_add.
    destruct (broadcast u v) eqn:Hb'; cbn [mbind result_bind]; [done|].
    intros [= <-]. by eapply broadcast_only.
  - intros [= <-]. by eapply broadcast_only.
Qed.

(** With an old sequence but no bound, the local energy is never assigned. *)
Lemma infer_using_vals_unbound sequence pace enc_out max_duration enc_mask
    dur_ex pitch_ex energy old new :
  splice_bounds old new = Ok (None, None) ->
  exists e,
    infer_using_vals self plugin_manager sequence pace enc_out max_duration enc_mask
      dur_ex pitch_ex (Some energy) (Some old) (Some new) = Raise e
    /\ (e = UnboundLocalError \/ e = RuntimeError).
Proof.
  intros H. unfold infer_using_vals, infer_prosody, predict, computes_own.
  cbn [Py.deref mbind result_bind]. rewrite H.
  cbn [mbind result_bind is_some is_none negb]. rewrite orb_true_r.
  cbn [mbind result_bind orb].
  destruct (mid plugin_manager) as [|h hs];
    (lazymatch goal with
     | |- context [tensor_add enc_out ?y] =>
         destruct (tensor_add enc_out y) as [enc|e1] eqn:Hadd
     end;
     cbn [mbind result_bind];
     [ destruct (pre_energy plugin_manager); cbn [mbind result_bind Py.local]; eauto
     | exists e1; split; [done|]; right; by eapply tensor_add_only ]).
Qed.

Lemma bounds_none_none old new :
  old <> [] -> new <> [] ->
  old !! 0%nat <> new !! 0%nat ->
  old !! (length old - 1)%nat <> new !! (length new - 1)%nat
  \/ ((length old <= length new)%nat /\ old = drop (length new - length old) new) ->
  splice_bounds old new = Ok (None, None).
Proof.
  intros Ho Hn Hs He. destruct (splice_bounds_total old new Ho Hn) as (s & e & H).
  rewrite H. f_equal. f_equal.
  - by apply (splice_start_none_iff _ _ _ _ H).
  - by apply (splice_end_none_iff _ _ _ _ H).
Qed.

(** Supplied values, no old sequence, no hooks. *)
Lemma infer_using_vals_supplied sequence pace enc_out max_duration enc_mask
    dur pitch energy new_sequence enc1 enc2 :
  mid plugin_manager = [] -> pre_energy plugin_manager = [] ->
  tensor_add enc_out (pitch_emb pitch) = Ok enc1 ->
  tensor_add enc1 (energy_emb energy) = Ok enc2 ->
  (0 < pace)%Q -> Forall (fun d => (0 <= d)%Q) dur -> length dur = length enc2 ->
  exists len_regulated,
    regulate_len [dur] [enc2] pace None
    = Ok (len_regulated, [sumZ (map (adjusted pace) dur)])
    /\ infer_using_vals self plugin_manager sequence pace enc_out max_duration enc_mask
         (Some dur) (Some pitch) (Some energy) None new_sequence
       = Ok (mkInferred (decoder_proj len_regulated [sumZ (map (adjusted pace) dur)])
               [sumZ (map (adjusted pace) dur)] dur pitch energy (-1) (-1)).
Proof.
  intros Hmid Hpre Ha1 Ha2 Hp Hd Hl.
  destruct (regulate_len_wf_run [dur] [enc2] pace None Hp) as (mx & _ & _ & _ & Hrun).
  { done. } { by constructor. } { by repeat constructor. }
  eexists. split; [exact Hrun|].
  unfold infer_using_vals, infer_prosody, predict, computes_own.
  cbn [Py.deref mbind result_bind is_some is_none negb orb].
  rewrite Hmid, Ha1. cbn [mbind result_bind]. rewrite Hpre.
  cbn [mbind result_bind Py.local]. rewrite Ha2. cbn [mbind result_bind].
  rewrite Hrun. reflexivity.
Qed.

Lemma energy_front_loop (eex e : list Q) (n : nat) :
  (n <= length eex)%nat -> (n <= length e)%nat ->
  Py.for_each (Py.range (Z.of_nat n)) e
    (fun (e0 : list Q) (i : Z) => v ← Py.index eex i; Py.store e0 i v)
  = Ok (take n eex ++ drop n e).
Proof.
  induction n as [|n IH]; intros H1 H2; [done|].
  unfold Py.range in *. rewrite seqZ_S, for_each_app, IH by lia.
  cbn [mbind result_bind Py.for_each]. rewrite Z.add_0_l.
  destruct (lookup_lt_is_Some_2 eex n) as [v Hv]; [lia|].
  rewrite (index_nonneg _ _ _ Hv). cbn [mbind result_bind].
  rewrite store_nonneg by (rewrite length_front; lia). cbn [mbind result_bind].
  rewrite insert_front by (done || lia). reflexivity.
Qed.

Lemma energy_back_loop (eex e : list Q) (k : nat) :
  (k <= length eex)%nat -> (k <= length e)%nat ->
  Py.for_each (map (fun i => - i - 1) (Py.range (Z.of_nat k))) e
    (fun (e0 : list Q) (i : Z) => v ← Py.index eex i; Py.store e0 i v)
  = Ok (take (length e - k) e ++ drop (length eex - k) eex).
Proof.
  induction k as [|k IH]; intros H1 H2.
  - cbn [Py.range seqZ map Py.for_each]. rewrite !Nat.sub_0_r.
    by rewrite take_ge, drop_ge, app_nil_r by lia.
  - unfold Py.range in *. rewrite seqZ_S, map_app, for_each_app, IH by lia.
    cbn [mbind result_bind map Py.for_each]. rewrite Z.add_0_l.
    destruct (lookup_lt_is_Some_2 eex (length eex - S k)) as [v Hv]; [lia|].
    rewrite (index_from_end _ _ _ H1 Hv). cbn [mbind result_bind].
    rewrite store_from_end by (rewrite length_back; lia). cbn [mbind result_bind].
    rewrite length_back by lia. rewrite insert_back by (done || lia). reflexivity.
Qed.

Lemma splice_energy_closed s e len_old en eex :
  let n := front_count s in
  let k := back_count len_old e in
  (n <= length eex)%nat -> (n <= length en)%nat ->
  (k <= length eex)%nat -> (k <= length en)%nat ->
  splice_energy s e len_old en eex = Ok (spliced n k eex en).
Proof.
  intros n k Hn1 Hn2 Hk1 Hk2. unfold splice_energy. cbv zeta.
  assert (match s with
          | Some s0 =>
              Py.for_each (Py.range (s0 + 1)) en
                (fun (e0 : list Q) (i : Z) => v ← Py.index eex i; Py.store e0 i v)
          | None => Ok en
          end = Ok (take n eex ++ drop n en)) as ->.
  { subst n. destruct s as [sv|]; [|done]. cbn [front_count] in *.
    rewrite range_to_nat. by apply energy_front_loop. }
  cbn [mbind result_bind]. unfold spliced.
  destruct e as [ev|]; subst k; cbn [back_count] in *.
  - rewrite range_to_nat, energy_back_loop by (rewrite ?length_front; lia).
    by rewrite length_front by lia.
  - rewrite !Nat.sub_0_r.
    rewrite (take_ge (take n eex ++ drop n en)) by (rewrite length_front; lia).
    rewrite (drop_ge eex), app_nil_r by lia.
    reflexivity.
Qed.

Lemma for_each_store_length (eex : list Q) (l : list Z) (e e' : list Q) :
  Py.for_each l e (fun (e0 : list Q) (i : Z) => v ← Py.index eex i; Py.store e0 i v)
  = Ok e' ->
  length e' = length e.
Proof.
  revert e. induction l as [|i l IH]; intros e; cbn [Py.for_each].
  - by intros [= <-].
  - destruct (Py.index eex i) as [v|]; cbn [mbind result_bind]; [|done].
    destruct (Py.store e i v) as [e1|] eqn:Hs; cbn [mbind result_bind]; [|done].
    intros H. rewrite (IH _ H).
    unfold Py.store in Hs.
    destruct (Py.norm_index e i) as [j|]; cbn [mbind result_bind] in Hs; [|done].
    injection Hs as <-. apply length_insert.
Qed.

Lemma splice_energy_length s e len_old en eex out :
  splice_energy s e len_old en eex = Ok out -> length out = length en.
Proof.
  unfold splice_energy. cbv zeta.
  destruct s as [sv|]; cbn [mbind result_bind].
  - destruct (Py.for_each (Py.range (sv + 1)) en _) as [e1|] eqn:H1;
      cbn [mbind result_bind]; [|done].
    apply for_each_store_length in H1.
    destruct e as [ev|]; [|by intros [= <-]].
    intros H2. apply for_each_store_length in H2. congruence.
  - destruct e as [ev|]; [|by intros [= <-]].
    apply for_each_store_length.
Qed.

(** An edit call that returns has spliced all three arrays. *)
Lemma infer_using_vals_edit sequence pace enc_out max_duration enc_mask
    dex pex eex old new r :
  mid plugin_manager = [] -> pre_energy plugin_manager = [] ->
  infer_using_vals self plugin_manager sequence pace enc_out max_duration enc_mask
    (Some dex) (Some pex) (Some eex) (Some old) (Some new) = Ok r ->
  exists s e enc,
    splice_bounds old new = Ok (s, e)
    /\ splice_prosody old new
         (own_durations self enc_out enc_mask max_duration)
         (own_pitch self enc_out enc_mask) dex pex
       = Ok (s, e, (dur_pred r, pitch_pred r))
    /\ is_some s || is_some e = true
    /\ start_index r = default (-1) s /\ end_index r = default (-1) e
    /\ tensor_add enc_out (pitch_emb (pitch_pred r)) = Ok enc
    /\ splice_energy s e (Z.of_nat (length old)) (energy_predictor enc enc_mask) eex
       = Ok (energy_pred r).
Proof.
  intros Hmid Hpre. unfold infer_using_vals, infer_prosody, predict, computes_own, splice_prosody.
  cbn [Py.deref mbind result_bind is_some is_none negb orb default].
  destruct (splice_bounds old new) as [[s e]|] eqn:Hb; cbn [mbind result_bind]; [|done].
  rewrite Hmid, Hpre.
  destruct (is_some s || is_some e) eqn:Hse; cbn [mbind result_bind].
  - destruct (splice_values _ _ _ _ _ _ _) as [[d p]|] eqn:Hv; cbn [mbind result_bind]; [|done].
    destruct (tensor_add enc_out (pitch_emb p)) as [enc|] eqn:Ha; cbn [mbind result_bind];
      [|done].
    rewrite Ha, Hse. unfold id in *. cbn [Py.local mbind result_bind].
    destruct (splice_energy _ _ _ _ _) as [en|] eqn:He; cbn [mbind result_bind Py.local];
      [|done].
    destruct (tensor_add enc (energy_emb en)) as [enc2|]; cbn [mbind result_bind]; [|done].
    destruct (regulate_len _ _ _ _) as [[lr dl]|]; cbn [mbind result_bind]; [|done].
    intros [= <-]. cbn [dur_pred pitch_pred energy_pred start_index end_index].
    exists s, e, enc. by repeat split.
  - destruct (tensor_add enc_out _) as [enc|]; cbn [mbind result_bind Py.local];
      rewrite ?Hse; cbn [mbind result_bind Py.local]; done.
Qed.

Lemma bounds_counts old new s e :
  splice_bounds old new = Ok (s, e) ->
  let n := front_count s in
  let k := back_count (Z.of_nat (length old)) e in
  (n <= length old)%nat /\ (n <= length new)%nat
  /\ (k <= length old)%nat /\ (k <= length new)%nat.
Proof.
  intros H n k. destruct (splice_bounds_spec _ _ _ _ H) as (_ & _ & Hs & He).
  assert ((n <= length old)%nat /\ (n <= length new)%nat) as [Hn1 Hn2].
  { subst n. destruct s as [sv|]; cbn [front_count]; [|split; lia].
    destruct Hs as (m & -> & ? & ? & ? & _). split; lia. }
  assert ((k <= length old)%nat /\ (k <= length new)%nat) as [Hk1 Hk2].
  { subst k. destruct e as [ev|]; cbn [back_count]; [|split; lia].
    destruct He as (m & -> & ? & ? & ? & _). split; lia. }
  done.
Qed.

(** The energy of an edit call, entry by entry. *)
Lemma infer_using_vals_edit_energy sequence pace enc_out max_duration enc_mask
    dex pex eex old new r :
  mid plugin_manager = [] -> pre_energy plugin_manager = [] ->
  length eex = length old -> length (energy_pred r) = length new ->
  infer_using_vals self plugin_manager sequence pace enc_out max_duration enc_mask
    (Some dex) (Some pex) (Some eex) (Some old) (Some new) = Ok r ->
  exists s e enc,
    splice_bounds old new = Ok (s, e)
    /\ (s <> None \/ e <> None)
    /\ start_index r = default (-1) s /\ end_index r = default (-1) e
    /\ splice_prosody old new
         (own_durations self enc_out enc_mask max_duration)
         (own_pitch self enc_out enc_mask) dex pex
       = Ok (s, e, (dur_pred r, pitch_pred r))
    /\ tensor_add enc_out (pitch_emb (pitch_pred r)) = Ok enc
    /\ energy_pred r
       = spliced (front_count s) (back_count (Z.of_nat (length old)) e) eex
           (energy_predictor enc enc_mask)
    /\ length (energy_predictor enc enc_mask) = length new.
Proof.
  intros Hmid Hpre Hle Hlr H.
  destruct (infer_using_vals_edit _ _ _ _ _ _ _ _ _ _ _ Hmid Hpre H)
    as (s & e & enc & Hb & Hsp & Hse & Hs & He & Ha & Hen).
  pose proof (splice_energy_length _ _ _ _ _ _ Hen) as Hlen.
  destruct (bounds_counts _ _ _ _ Hb) as (Hn1 & Hn2 & Hk1 & Hk2).
  rewrite splice_energy_closed in Hen by lia.
  injection Hen as Hen.
  exists s, e, enc. repeat split; try done; [|lia].
  destruct s, e; try done; [left|left|right]; done.
Qed.

End InferenceMore.

(** X13: when side data and an old sequence are supplied and the edit
    changed both ends of the line (the first tokens differ and either the
    last tokens differ or the old line is a suffix of the new one), the call
    that uses the side data always raises, the local energy never having
    been assigned, so that [infer_advanced] returns the self-predicted
    result. *)
Theorem both_ends_changed_discards_side_data {Mask Mel Text : Type}
    (self : FastPitch Mask Mel) (plugin_manager : PluginManager Text)
    (cleaned_text : Text) (inputs : list Z) (speaker_i : option Z) (pace : Q)
    (max_duration : Q) (enc_out : list (list Q)) (enc_mask : Mask)
    (pitch dur energy : option (list Q)) (old : list Z) :
  encoder inputs speaker_i = (enc_out, enc_mask) ->
  usable (Some (pitch, dur, energy)) = true ->
  old <> [] -> inputs <> [] ->
  old !! 0%nat <> inputs !! 0%nat ->
  old !! (length old - 1)%nat <> inputs !! (length inputs - 1)%nat
  \/ ((length old <= length inputs)%nat
      /\ old = drop (length inputs - length old) inputs) ->
  (exists e,
     infer_using_vals self plugin_manager cleaned_text pace enc_out max_duration enc_mask
       dur pitch energy (Some old) (Some inputs) = Raise e
     /\ (e = UnboundLocalError \/ e = RuntimeError))
  /\ infer_advanced self plugin_manager cleaned_text inputs speaker_i pace
       (Some (pitch, dur, energy)) max_duration (Some old)
     = infer_using_vals self plugin_manager cleaned_text pace enc_out max_duration enc_mask
         None None None None None.
Proof.
  intros Henc Hu Ho Hn Hs He.
  assert (exists en, energy = Some en) as [en ->].
  { destruct pitch as [[|? ?]|], dur as [[|? ?]|], energy as [[|? ?]|];
      try discriminate Hu; eauto. }
  pose proof (bounds_none_none old inputs Ho Hn Hs He) as Hb.
  destruct (infer_using_vals_unbound self plugin_manager cleaned_text pace enc_out
              max_duration enc_mask dur pitch en old inputs Hb) as (e & Hraise & Hex).
  split; [by exists e|].
  rewrite (usable_true_try _ _ _ _ _ _ _ _ _ _ _ _ _ Henc Hu), Hraise. reflexivity.
Qed.

Lemma both_ends_changed_discards_side_data_witness :
  infer_advanced toy no_plugins tt [7; 1; 2; 3] None 1
    (Some (Some [11; 21; 31]%Q, Some [10; 20; 30]%Q, Some [7; 7; 7]%Q)) 75
    (Some [1; 2; 3])
  = infer_using_vals toy no_plugins tt 1 [[0; 0]; [0; 0]; [0; 0]; [0; 0]]%Q 75 tt
      None None None None None.
Proof.
  apply (both_ends_changed_discards_side_data toy no_plugins tt [7; 1; 2; 3] None 1 75
           [[0; 0]; [0; 0]; [0; 0]; [0; 0]]%Q tt
           (Some [11; 21; 31]%Q) (Some [10; 20; 30]%Q) (Some [7; 7; 7]%Q) [1; 2; 3]).
  - reflexivity.
  - reflexivity.
  - discriminate.
  - discriminate.
  - simpl. discriminate.
  - right. split; [simpl; lia|reflexivity].
Defined.


(** X15: whenever an edit call (side data, an old sequence, no hooks)
    returns, at least one bound was found, the returned bounds are the ones
    found with -1 for a missing one, the returned durations and pitch are
    the splice of the existing values into the model's own clamped
    predictions, and the returned energy is, entry by entry, the existing
    energy in the unchanged suffix and prefix and elsewhere the energy
    predicted from the encoder output plus the embedding of the returned
    pitch. *)
Theorem edit_splices_all_three {Mask Mel Text : Type}
    (self : FastPitch Mask Mel) (plugin_manager : PluginManager Text)
    (sequence : Text) (pace : Q) (enc_out : list (list Q)) (max_duration : Q)
    (enc_mask : Mask) (dex pex eex : list Q) (old new : list Z) (r : Inferred Mel) :
  mid plugin_manager = [] -> pre_energy plugin_manager = [] ->
  length eex = length old -> length (energy_pred r) = length new ->
  infer_using_vals self plugin_manager sequence pace enc_out max_duration enc_mask
    (Some dex) (Some pex) (Some eex) (Some old) (Some new) = Ok r ->
  exists s e enc,
    splice_bounds old new = Ok (s, e)
    /\ (s <> None \/ e <> None)
    /\ start_index r = default (-1) s /\ end_index r = default (-1) e
    /\ splice_prosody old new
         (own_durations self enc_out enc_mask max_duration)
         (own_pitch self enc_out enc_mask) dex pex
       = Ok (s, e, (dur_pred r, pitch_pred r))
    /\ tensor_add enc_out (pitch_emb (pitch_pred r)) = Ok enc
    /\ forall j : nat, (j < length new)%nat ->
         energy_pred r !! j =
           if decide (length new - back_count (Z.of_nat (length old)) e <= j)%nat
           then eex !! (j + length old - length new)%nat
           else if decide (j < front_count s)%nat then eex !! j
           else energy_predictor enc enc_mask !! j.
Proof.
  intros Hmid Hpre Hle Hlr H.
  destruct (infer_using_vals_edit_energy self plugin_manager _ _ _ _ _ _ _ _ _ _ _
              Hmid Hpre Hle Hlr H)
    as (s & e & enc & Hb & Hse & Hs & He & Hsp & Ha & Hen & Hlen).
  exists s, e, enc. repeat split; try done.
  intros j Hj. destruct (bounds_counts _ _ _ _ Hb) as (Hn1 & Hn2 & Hk1 & Hk2).
  rewrite Hen, spliced_lookup by lia. by rewrite Hle, Hlen.
Qed.

Lemma edit_splices_all_three_witness :
  exists r s e,
    infer_using_vals toy no_plugins tt 1 [[0; 0]; [0; 0]; [0; 0]; [0; 0]; [0; 0]]%Q 75 tt
      (Some [10; 20; 30; 40]%Q) (Some [11; 21; 31; 41]%Q) (Some [7; 7; 7; 7]%Q)
      (Some [1; 2; 3; 4]) (Some [1; 9; 8; 3; 4]) = Ok r
    /\ splice_bounds [1; 2; 3; 4] [1; 9; 8; 3; 4] = Ok (s, e)
    /\ (s <> None \/ e <> None)
    /\ start_index r = default (-1) s /\ end_index r = default (-1) e.
Proof.
  destruct (infer_using_vals toy no_plugins tt 1
              [[0; 0]; [0; 0]; [0; 0]; [0; 0]; [0; 0]]%Q 75 tt
              (Some [10; 20; 30; 40]%Q) (Some [11; 21; 31; 41]%Q) (Some [7; 7; 7; 7]%Q)
              (Some [1; 2; 3; 4]) (Some [1; 9; 8; 3; 4])) as [r|x] eqn:H;
    [|vm_compute in H; discriminate H].
  assert (length (energy_pred r) = 5%nat) as Hlen.
  { pose proof H as H'. vm_compute in H'. injection H' as <-. reflexivity. }
  destruct (edit_splices_all_three toy no_plugins tt 1
              [[0; 0]; [0; 0]; [0; 0]; [0; 0]; [0; 0]]%Q 75 tt
              [10; 20; 30; 40]%Q [11; 21; 31; 41]%Q [7; 7; 7; 7]%Q
              [1; 2; 3; 4] [1; 9; 8; 3; 4] r eq_refl eq_refl eq_refl Hlen H)
    as (s & e & enc & Hb & Hse & Hs & He & _).
  exists r, s, e. repeat split; assumption.
Defined.

(** X16: whenever an edit call (no hooks) whose new sequence is the old one
    returns, it returns the supplied durations, pitch and energy themselves,
    with the last index as start bound and no end bound (each supplied
    array and each predictor output having one value per token). *)
Theorem unchanged_line_reproduces_side_data {Mask Mel Text : Type}
    (self : FastPitch Mask Mel) (plugin_manager : PluginManager Text)
    (sequence : Text) (pace : Q) (enc_out : list (list Q)) (max_duration : Q)
    (enc_mask : Mask) (dex pex eex : list Q) (seq : list Z) (r : Inferred Mel) :
  mid plugin_manager = [] -> pre_energy plugin_manager = [] ->
  length dex = length seq -> length pex = length seq -> length eex = length seq ->
  length (duration_predictor enc_out enc_mask) = length seq ->
  length (pitch_predictor enc_out enc_mask) = length seq ->
  length (energy_pred r) = length seq ->
  infer_using_vals self plugin_manager sequence pace enc_out max_duration enc_mask
    (Some dex) (Some pex) (Some eex) (Some seq) (Some seq) = Ok r ->
  dur_pred r = dex /\ pitch_pred r = pex /\ energy_pred r = eex
  /\ start_index r = Z.of_nat (length seq) - 1 /\ end_index r = -1.
Proof.
  intros Hmid Hpre Hd Hp He Hd' Hp' Hlr H.
  destruct (infer_using_vals_edit_energy self plugin_manager _ _ _ _ _ _ _ _ _ _ _
              Hmid Hpre He Hlr H)
    as (s & e & enc & Hb & Hse & Hs & Hei & Hsp & Ha & Hen & Hlen).
  assert (seq <> []) as Hne.
  { intros ->. rewrite splice_bounds_empty in Hb by (by left). discriminate. }
  rewrite splice_prosody_same in Hsp; [|done|done|done|..].
  2: { unfold own_durations. by rewrite !length_map. }
  2: { unfold own_pitch. by rewrite length_map. }
  injection Hsp as <- <- <- <-.
  cbn [front_count back_count default] in *.
  replace (Z.to_nat (Z.of_nat (length seq) - 1 + 1)) with (length eex) in Hen by lia.
  rewrite spliced_all in Hen by lia.
  by repeat split.
Qed.

Lemma unchanged_line_reproduces_side_data_witness :
  exists r,
    infer_using_vals toy no_plugins tt 1 [[0; 0]; [0; 0]; [0; 0]]%Q 75 tt
      (Some [10; 20; 30]%Q) (Some [11; 21; 31]%Q) (Some [7; 8; 9]%Q)
      (Some [5; 6; 7]) (Some [5; 6; 7]) = Ok r
    /\ dur_pred r = [10; 20; 30]%Q /\ pitch_pred r = [11; 21; 31]%Q
    /\ energy_pred r = [7; 8; 9]%Q /\ start_index r = 2 /\ end_index r = -1.
Proof.
  destruct (infer_using_vals toy no_plugins tt 1 [[0; 0]; [0; 0]; [0; 0]]%Q 75 tt
              (Some [10; 20; 30]%Q) (Some [11; 21; 31]%Q) (Some [7; 8; 9]%Q)
              (Some [5; 6; 7]) (Some [5; 6; 7])) as [r|x] eqn:H;
    [|vm_compute in H; discriminate H].
  assert (length (energy_pred r) = 3%nat) as Hlen.
  { pose proof H as H'. vm_compute in H'. injection H' as <-. reflexivity. }
  exists r. split; [reflexivity|].
  exact (unchanged_line_reproduces_side_data toy no_plugins tt 1
           [[0; 0]; [0; 0]; [0; 0]]%Q 75 tt
           [10; 20; 30]%Q [11; 21; 31]%Q [7; 8; 9]%Q [5; 6; 7] r
           eq_refl eq_refl eq_refl eq_refl eq_refl eq_refl eq_refl Hlen H).
Defined.

(** ** Training pass: the pitch target *)

Section TrainingPitch.

Lemma rows_teq_spec pitch durs :
  durs_fit durs pitch ->
  teq (zip_with (fun d chans => map (fun row => row_avg row d) chans) durs pitch)
      (spec_average_pitch pitch durs).
Proof.
  intros H. unfold spec_average_pitch.
  induction H as [|d chans durs pitch [Hd Hc] _ IH]; [constructor|].
  cbn [zip_with]. constructor; [|exact IH].
  clear IH. induction Hc as [|row chans Hrow _ IHc]; [constructor|].
  cbn [map]. constructor; [|exact IHc]. by apply row_avg_means.
Qed.

Lemma checked_durations_fit attn_hard max_text_len mel_lens pitch_dense dur_tgt :
  length attn_hard = length mel_lens ->
  Forall (Forall (fun row => length row = max_text_len
                             /\ Forall (fun x => 0 <= x) row)) attn_hard ->
  Forall2 (fun m chans => Forall (fun row => m <= Z.of_nat (length row)) chans)
          mel_lens pitch_dense ->
  forward_dur_tgt attn_hard max_text_len mel_lens = Ok dur_tgt ->
  durs_fit dur_tgt pitch_dense.
Proof.
  intros Hlen Hattn Hfr Hfwd.
  unfold forward_dur_tgt in Hfwd. cbv zeta in Hfwd.
  rewrite assert_all_eq_same_length in Hfwd by (by rewrite !length_map).
  destruct (decide _) as [Hsum|]; [|done]. cbn [mbind result_bind] in Hfwd.
  injection Hfwd as <-.
  set (dur_tgt := map (col_sums max_text_len) attn_hard) in *.
  assert (Forall (Forall (fun x => 0 <= x)) dur_tgt) as Hnn.
  { subst dur_tgt. apply Forall_map. eapply Forall_impl; [|exact Hattn].
    intros sample Hs. by apply col_sums_shape. }
  rewrite <- Hsum in Hfr. clear Hsum Hlen Hattn. unfold durs_fit.
  revert pitch_dense Hfr.
  induction Hnn as [|d ds Hd _ IH]; intros pitch_dense Hfr.
  - inversion Hfr; subst. constructor.
  - cbn [map] in Hfr. inversion Hfr as [|? chans ? rest Hc Hrest]; subst.
    constructor; [by split|by apply IH].
Qed.

End TrainingPitch.


(** ** Temporal predictor *)

Section Predictor.

Lemma vec_mul_scalar v m : vec_mul v [m] = Ok (map (fun a => (a * m)%Q) v).
Proof.
  destruct v as [|a [|b v]]; [reflexivity|reflexivity|].
  unfold vec_mul, broadcast. cbn [mbind result_bind]. by rewrite map_map.
Qed.

Lemma mapR_zip_ok {A B C} (f : A * B -> result C) (g : A -> B -> C) xs ys :
  (forall x y, In y ys -> f (x, y) = Ok (g x y)) ->
  mapR f (zip xs ys) = Ok (zip_with g xs ys).
Proof.
  revert ys. induction xs as [|x xs IH]; intros [|y ys] Hf; try done.
  cbn [zip zip_with mapR]. rewrite Hf by (by left). cbn [mbind result_bind].
  rewrite IH by (intros; apply Hf; by right). reflexivity.
Qed.

(** Scaling each time step of one sample by its mask entry. *)
Lemma rows_mul_mask (y ms : list (list Q)) :
  length y = length ms -> Forall (fun m => length m = 1%nat) ms ->
  rows_mul y ms
  = Ok (zip_with (fun v m => map (fun a => (a * default 0 (head m))%Q) v) y ms).
Proof.
  intros Hlen Hms. unfold rows_mul. rewrite broadcast_same_length by done.
  cbn [mbind result_bind]. apply mapR_zip_ok. intros v m Hm.
  rewrite Forall_forall in Hms. specialize (Hms m Hm).
  destruct m as [|c [|? ?]]; try done. apply vec_mul_scalar.
Qed.

Lemma tensor_mul_mask (y mask : list (list (list Q))) :
  Forall2 (fun ys ms => length ys = length ms
                        /\ Forall (fun m => length m = 1%nat) ms) y mask ->
  tensor_mul y mask
  = Ok (zip_with
          (zip_with (fun v m => map (fun a => (a * default 0 (head m))%Q) v)) y mask).
Proof.
  intros H. unfold tensor_mul.
  rewrite broadcast_same_length by (by eapply Forall2_length).
  cbn [mbind result_bind].
  induction H as [|ys ms y mask [Hl Hm] _ IH]; [done|].
  cbn [zip zip_with mapR]. rewrite rows_mul_mask by done.
  cbn [mbind result_bind]. fold (zip y mask). rewrite IH. reflexivity.
Qed.

Lemma scaled_zero v m : (m == 0)%Q -> Forall (fun a => (a == 0)%Q) (map (fun a => (a * m)%Q) v).
Proof.
  intros Hm. apply Forall_map. apply Forall_forall. intros a _. simpl.
  rewrite Hm. ring.
Qed.

Lemma scaled_one v m : (m == 1)%Q -> veq (map (fun a => (a * m)%Q) v) v.
Proof.
  intros Hm. induction v as [|a v IH]; [constructor|].
  cbn [map]. constructor; [|exact IH]. rewrite Hm. ring.
Qed.

End Predictor.

(** X18: for a mask with one entry per sample and time step of the input,
    and a network whose output has as many time steps per sample as the
    mask, the predictor returns, and each output vector is the network's
    output vector (computed from the masked input) scaled by the mask entry
    of its position: all zero where the mask is 0, unchanged where it is 1. *)
Theorem temporal_predictor_masks_output (self : TemporalPredictor)
    (enc_out mask : list (list (list Q))) :
  Forall2 (fun e ms => length e = length ms
                       /\ Forall (fun m => length m = 1%nat) ms) enc_out mask ->
  (forall x, tensor_mul enc_out mask = Ok x ->
     Forall2 (fun (y ms : list (list Q)) => length y = length ms)
             (fc self (transpose12 (layers self (transpose12 x)))) mask) ->
  exists x out,
    tensor_mul enc_out mask = Ok x
    /\ TemporalPredictor_forward self enc_out mask = Ok out
    /\ length out = length mask
    /\ forall (b t : nat) ms m ys v,
         mask !! b = Some ms -> ms !! t = Some [m] ->
         fc self (transpose12 (layers self (transpose12 x))) !! b = Some ys ->
         ys !! t = Some v ->
         exists ob o,
           out !! b = Some ob /\ ob !! t = Some o
           /\ o = map (fun a => (a * m)%Q) v
           /\ ((m == 0)%Q -> Forall (fun a => (a == 0)%Q) o)
           /\ ((m == 1)%Q -> veq o v).
Proof.
  intros Hmask Hnet.
  pose proof (tensor_mul_mask _ _ Hmask) as Hx.
  specialize (Hnet _ Hx).
  set (x := zip_with _ enc_out mask) in *.
  set (y := fc self (transpose12 (layers self (transpose12 x)))) in *.
  assert (Forall2 (fun ys ms => length ys = length ms
                                /\ Forall (fun m => length m = 1%nat) ms) y mask) as Hy.
  { clear Hx. revert Hnet. generalize y. clear y x.
    induction Hmask as [|e ms enc_out mask [_ Hm] _ IH]; intros y Hnet.
    - inversion Hnet; subst. constructor.
    - inversion Hnet as [|ys ? y' ? Hl Hrest]; subst.
      constructor; [by split|by apply IH]. }
  exists x. eexists. split; [exact Hx|].
  split.
  { unfold TemporalPredictor_forward. rewrite Hx. cbn [mbind result_bind].
    fold y. apply (tensor_mul_mask _ _ Hy). }
  split.
  { rewrite length_zip_with. apply Forall2_length in Hy. lia. }
  intros b t ms m ys v Hms Hm Hys Hv. change (y !! b = Some ys) in Hys.
  exists (zip_with (fun v m => map (fun a => (a * default 0 (head m))%Q) v) ys ms),
    (map (fun a => (a * m)%Q) v).
  split; [by rewrite lookup_zip_with, Hys, Hms|].
  split; [by rewrite lookup_zip_with, Hv, Hm|].
  split; [done|]. split; [apply scaled_zero|apply scaled_one].
Qed.

Lemma temporal_predictor_masks_output_witness :
  exists x out,
    tensor_mul [[[1; 2]; [3; 4]]]%Q [[[1]; [0]]]%Q = Ok x
    /\ TemporalPredictor_forward
         (mkTemporalPredictor (fun x => x) (map (map (fun v => [sumQ v]))))
         [[[1; 2]; [3; 4]]]%Q [[[1]; [0]]]%Q = Ok out
    /\ length out = 1%nat.
Proof.
  destruct (temporal_predictor_masks_output
              (mkTemporalPredictor (fun x => x) (map (map (fun v => [sumQ v]))))
              [[[1; 2]; [3; 4]]]%Q [[[1]; [0]]]%Q)
    as (x & out & H1 & H2 & H3 & _).
  - repeat first [reflexivity | constructor].
  - intros x H. vm_compute in H. injection H as <-. repeat constructor.
  - by exists x, out.
Defined.

(** * The length regulator in float32 *)

Section RegulateF32.

(** In exact arithmetic: the frames of [regulate_len] on well-formed input. *)
Lemma regulate_len_padding_exact
    (durations : list (list Q)) (enc_out : list (list (list Q)))
    (pace : Q) (mel_max_len : option nat) :
  (0 < pace)%Q ->
  durations <> [] ->
  Forall (Forall (fun d => (0 <= d)%Q)) durations ->
  Forall2 (fun d e => length d = length e /\ rect e) durations enc_out ->
  exists enc_rep dec_lens max_len,
    regulate_len durations enc_out pace mel_max_len = Ok (enc_rep, dec_lens)
    /\ dec_lens = match mel_max_len with
                  | Some cap => map (Z.min (Z.of_nat cap)) (lens_of pace durations)
                  | None => lens_of pace durations
                  end
    /\ tensor_max dec_lens = Ok max_len
    /\ length enc_rep = length durations
    /\ length dec_lens = length durations
    /\ Forall (fun m => length m = Z.to_nat max_len) enc_rep
    /\ forall b d e m n,
         durations !! b = Some d -> enc_out !! b = Some e ->
         enc_rep !! b = Some m -> dec_lens !! b = Some n ->
         forall (t : nat) row, m !! t = Some row ->
           let r := map (adjusted pace) d in
           (Z.of_nat t < n ->
              exists k v, e !! k = Some v /\ owns r k (Z.of_nat t)
                /\ (forall k', owns r k' (Z.of_nat t) -> k' = k) /\ veq row v)
           /\ (n <= Z.of_nat t -> veq row (replicate (width e) 0%Q)).
Proof.
  intros Hp Hne Hd Hshape.
  assert (Forall2 (fun d e => length d = length e) durations enc_out) as Hshape'.
  { eapply Forall2_impl; [|exact Hshape]. by intros ? ? [? _]. }
  destruct (tensor_max_ok (lens_of pace durations)) as [mx Hmx].
  { unfold lens_of. by destruct durations. }
  assert (Forall (fun n => 0 <= n) (lens_of pace durations)) as Hlens.
  { unfold lens_of. apply Forall_map. eapply Forall_impl; [|exact Hd].
    intros d Hd'. apply sumZ_nonneg. by apply reps_nonneg. }
  assert (0 <= mx) as Hmx0.
  { destruct (lens_of pace durations) as [|n l] eqn:Hl; [done|].
    inversion Hlens; subst. pose proof (tensor_max_ge _ _ n Hmx (or_introl eq_refl)). lia. }
  rewrite (regulate_len_run _ _ _ _ mx Hshape' Hmx Hmx0).
  pose proof (Forall2_length Hshape') as Hlen.
  assert (forall b d e m, durations !! b = Some d -> enc_out !! b = Some e ->
            zip_with (frames_of pace mx) durations enc_out !! b = Some m ->
            m = frames_of pace mx d e) as Hzip.
  { intros b d e m Hb He. rewrite lookup_zip_with, Hb, He. simpl. congruence. }
  assert (forall b d e, durations !! b = Some d -> enc_out !! b = Some e ->
            Forall (fun x => (0 <= x)%Q) d /\ length d = length e /\ rect e) as Hwf.
  { intros b d e Hb He. split.
    - rewrite Forall_lookup in Hd. by eapply Hd.
    - by eapply (Forall2_lookup_lr _ _ _ _ _ _ Hshape). }
  assert (forall b d n, durations !! b = Some d -> lens_of pace durations !! b = Some n ->
            n = sumZ (map (adjusted pace) d)) as Hln.
  { intros b d n Hb. unfold lens_of. rewrite list_lookup_fmap, Hb. simpl. congruence. }
  destruct mel_max_len as [cap|].
  - exists (map (take cap) (zip_with (frames_of pace mx) durations enc_out)),
      (map (Z.min (Z.of_nat cap)) (lens_of pace durations)), (Z.min (Z.of_nat cap) mx).
    split; [done|]. split; [done|]. split; [by apply tensor_max_clamp|].
    split; [rewrite length_map, length_zip_with; lia|].
    split; [unfold lens_of; by rewrite !length_map|].
    split.
    + apply Forall_map. apply Forall_lookup. intros b m Hm.
      rewrite lookup_zip_with in Hm.
      destruct (durations !! b) as [d|]; [|done].
      destruct (enc_out !! b) as [e|]; [|done]. injection Hm as <-.
      rewrite length_take. unfold frames_of. rewrite length_map, length_seqZ. lia.
    + intros b d e m n Hb He Hm Hn t row Hrow r.
      rewrite list_lookup_fmap in Hm.
      destruct (zip_with (frames_of pace mx) durations enc_out !! b) as [m0|] eqn:Hm0; [|done].
      injection Hm as <-. apply (Hzip b d e) in Hm0; [|done..]. subst m0.
      rewrite list_lookup_fmap in Hn.
      destruct (lens_of pace durations !! b) as [n0|] eqn:Hn0; [|done].
      injection Hn as <-. apply (Hln b d) in Hn0; [|done]. subst n0. fold r.
      apply lookup_take_Some in Hrow as [Hrow Hcap].
      destruct (Hwf b d e Hb He) as (Hd' & Hlen' & He').
      destruct (frames_of_spec pace mx d e t row Hp Hd' Hlen' He' Hrow) as [H1 H2].
      fold r in H1, H2. split; intros Ht; [apply H1|apply H2]; lia.
  - exists (zip_with (frames_of pace mx) durations enc_out), (lens_of pace durations), mx.
    split; [done|]. split; [done|]. split; [done|].
    split; [rewrite length_zip_with; lia|].
    split; [unfold lens_of; by rewrite length_map|].
    split.
    + apply Forall_lookup. intros b m Hm.
      rewrite lookup_zip_with in Hm.
      destruct (durations !! b) as [d|]; [|done].
      destruct (enc_out !! b) as [e|]; [|done]. injection Hm as <-.
      unfold frames_of. by rewrite length_map, length_seqZ.
    + intros b d e m n Hb He Hm Hn t row Hrow r.
      apply (Hzip b d e) in Hm; [|done..]. subst m.
      apply (Hln b d) in Hn; [|done]. subst n. fold r.
      destruct (Hwf b d e Hb He) as (Hd' & Hlen' & He').
      apply (frames_of_spec pace mx d e t row Hp Hd' Hlen' He' Hrow).
Qed.

Lemma wrap64_small z : - 2 ^ 63 <= z < 2 ^ 63 -> wrap64 z = z.
Proof. intros H. unfold wrap64. rewrite Z.mod_small by lia. lia. Qed.

Lemma scan_wrap acc r :
  0 <= acc -> Forall (fun x => 0 <= x) r -> acc + sumZ r < 2 ^ 63 ->
  scan (fun a b => wrap64 (a + b)) acc r = scan Z.add acc r.
Proof.
  intros Hacc Hr. revert acc Hacc.
  induction Hr as [|x r Hx Hr IH]; intros acc Hacc Hsum; [done|].
  cbn [sumZ foldr] in Hsum. fold (sumZ r) in Hsum. pose proof (sumZ_nonneg r Hr).
  cbn [scan]. rewrite wrap64_small by lia. f_equal. apply IH; lia.
Qed.

Lemma reps_of_integers (r : list Z) :
  Forall (fun x => 0 <= x) r -> map (adjusted 1) (map inject_Z r) = r.
Proof.
  induction 1 as [|x r Hx _ IH]; [done|].
  cbn [map]. by rewrite adjusted_inject_Z, IH.
Qed.

(** Non-negative adjusted durations without overflow: the float32 regulator
    is the exact one on the adjusted durations taken as durations, at
    pace 1. *)
Lemma regulate_len_f32_exact durations enc_out pace mel_max_len :
  Forall (fun d => Forall (fun x => 0 <= x) (map (adjusted_f32 pace) d)
                   /\ sumZ (map (adjusted_f32 pace) d) < 2 ^ 63) durations ->
  regulate_len_f32 durations enc_out pace mel_max_len
  = regulate_len (map (fun d => map inject_Z (map (adjusted_f32 pace) d)) durations)
      enc_out 1 mel_max_len.
Proof.
  intros H. unfold regulate_len_f32, regulate_len. cbv zeta.
  assert (map (map (adjusted 1))
              (map (fun d => map inject_Z (map (adjusted_f32 pace) d)) durations)
          = map (map (adjusted_f32 pace)) durations) as ->.
  { induction H as [|d ds [Hd _] _ IH]; [done|].
    cbn [map]. by rewrite reps_of_integers, IH. }
  assert (map (fun r => wrap64 (sumZ r)) (map (map (adjusted_f32 pace)) durations)
          = map sumZ (map (map (adjusted_f32 pace)) durations)) as ->.
  { induction H as [|d ds [Hd Hs] _ IH]; [done|].
    cbn [map]. rewrite IH. f_equal. apply wrap64_small.
    pose proof (sumZ_nonneg _ Hd). lia. }
  assert (map (fun r => cumsum (fun a b => wrap64 (a + b)) (0 :: r))
              (map (map (adjusted_f32 pace)) durations)
          = map (fun r => cumsum Z.add (0 :: r))
              (map (map (adjusted_f32 pace)) durations)) as ->.
  { induction H as [|d ds [Hd Hs] _ IH]; [done|].
    cbn [map]. rewrite IH. f_equal. cbn [cumsum]. f_equal.
    apply scan_wrap; [lia|done|lia]. }
  reflexivity.
Qed.

Lemma lens_of_integers (rs : list (list Z)) :
  Forall (Forall (fun x => 0 <= x)) rs ->
  lens_of 1 (map (map inject_Z) rs) = map sumZ rs.
Proof.
  induction 1 as [|r rs Hr _ IH]; [done|].
  unfold lens_of in *. cbn [map]. by rewrite IH, reps_of_integers.
Qed.

End RegulateF32.

Section RegulateF32More.

(** In exact arithmetic: the output as a repeat of the tokens. *)
Lemma regulate_len_expand_exact
    (durations : list (list Q)) (enc_out : list (list (list Q))) (pace : Q) :
  (0 < pace)%Q ->
  durations <> [] ->
  Forall (Forall (fun d => (0 <= d)%Q)) durations ->
  Forall2 (fun d e => length d = length e /\ rect e) durations enc_out ->
  exists enc_rep dec_lens mx,
    regulate_len durations enc_out pace None = Ok (enc_rep, dec_lens)
    /\ tensor_max dec_lens = Ok mx
    /\ dec_lens = map (fun d => sumZ (map (adjusted pace) d)) durations
    /\ forall b d e m,
         durations !! b = Some d -> enc_out !! b = Some e -> enc_rep !! b = Some m ->
         let r := map (adjusted pace) d in
         meq m (expand r e
                ++ replicate (Z.to_nat (mx - sumZ r)) (replicate (width e) 0%Q)).
Proof.
  intros Hp Hne Hd Hshape.
  assert (Forall2 (fun d e => length d = length e) durations enc_out) as Hshape'.
  { eapply Forall2_impl; [|exact Hshape]. by intros ? ? [? _]. }
  destruct (regulate_len_wf_run durations enc_out pace None Hp Hne Hd Hshape')
    as (mx & Hmx & Hmx0 & Hlens & ->).
  exists (zip_with (frames_of pace mx) durations enc_out), (lens_of pace durations), mx.
  split; [done|]. split; [done|]. split; [done|].
  intros b d e m Hb He Hm r.
  rewrite lookup_zip_with, Hb, He in Hm. simpl in Hm. injection Hm as <-.
  destruct (Forall2_lookup_lr _ _ _ _ _ _ Hshape Hb He) as [Hlen Hrect].
  apply frames_of_expand; try done.
  - rewrite Forall_lookup in Hd. by eapply Hd.
  - rewrite Forall_lookup in Hlens. apply (Hlens b).
    unfold lens_of. by rewrite list_lookup_fmap, Hb.
Qed.

(** The adjusted durations of a float32 batch, taken as exact durations. *)
Lemma integer_batch_wf (durations : list (list F32.t)) enc_out pace (bound : Z) :
  durations <> [] ->
  Forall (fun d => Forall (fun x => 0 <= x) (map (adjusted_f32 pace) d)
                   /\ sumZ (map (adjusted_f32 pace) d) <= bound) durations ->
  Forall2 (fun d e => length d = length e /\ rect e) durations enc_out ->
  let D := map (fun d => map inject_Z (map (adjusted_f32 pace) d)) durations in
  D <> []
  /\ Forall (Forall (fun d => (0 <= d)%Q)) D
  /\ Forall2 (fun d e => length d = length e /\ rect e) D enc_out
  /\ lens_of 1 D = map (fun d => sumZ (map (adjusted_f32 pace) d)) durations.
Proof.
  intros Hne Hreps Hshape D. subst D. split; [by destruct durations|]. split; [|split].
  - apply Forall_map. eapply Forall_impl; [|exact Hreps]. intros d [Hd _]. simpl.
    apply Forall_map. eapply Forall_impl; [|exact Hd]. intros x Hx. simpl.
    rewrite Zle_Qle in Hx. exact Hx.
  - clear Hne Hreps. induction Hshape as [|d e ds es [Hl Hr] _ IH]; [constructor|].
    cbn [map]. constructor; [|exact IH]. split; [by rewrite !length_map|done].
  - clear Hne Hshape. induction Hreps as [|d ds [Hd _] _ IH]; [done|].
    unfold lens_of in *. cbn [map]. by rewrite IH, reps_of_integers.
Qed.

End RegulateF32More.



(** C10 (as stated) fails on a batch with a negative duration: with
    durations [3, -2, 2] the adjusted durations are [3, -1, 2], the output
    has 4 frames, and frame 2 is the sum of the vectors of tokens 0 and 2,
    which is the feature vector of no token. *)
Lemma regulate_len_padding_invariant_counterexample :
  exists m row,
    regulate_len_f32 [[F32.of_Z 3; F32.of_Z (-2); F32.of_Z 2]]
      [[[1]; [10]; [100]]]%Q (F32.of_Z 1) None = Ok ([m], [4])
    /\ m !! 2%nat = Some row
    /\ ~ exists k v, [[1]; [10]; [100]]%Q !! k = Some v /\ veq row v.
Proof.
  eexists _, _. split; [vm_compute; reflexivity|]. split; [reflexivity|].
  intros (k & v & Hk & Hv).
  destruct k as [|[|[|k]]]; simpl in Hk; try discriminate Hk;
    injection Hk as <-; inversion Hv as [|? ? ? ? Hq _]; subst;
    vm_compute in Hq; discriminate Hq.
Qed.



Section AdjustedF32.

(** When the float32 quotient and sum are exact, the adjusted duration is
    the exact one. *)
Lemma adjusted_f32_exact pace d (q : Q) :
  F32.is_number (F32.add (F32.div d pace) F32.half) = true ->
  (F32.to_Q (F32.add (F32.div d pace) F32.half) == q + (1 # 2))%Q ->
  (0 <= q)%Q -> (q + (1 # 2) < inject_Z (2 ^ 63))%Q ->
  adjusted_f32 pace d = Qfloor (q + (1 # 2)).
Proof.
  unfold adjusted_f32. set (y := F32.add (F32.div d pace) F32.half).
  intros Hnum Hy Hq Hmax.
  assert (0 <= Qfloor (q + (1 # 2)) < 2 ^ 63) as Hrange.
  { split.
    - change 0 with (Qfloor 0). apply Qfloor_resp_le. lra.
    - pose proof (Qfloor_le (q + (1 # 2))) as Hfl.
      rewrite Zlt_Qlt. lra. }
  destruct y as [s|s| |s m e] eqn:Ey; try discriminate Hnum.
  - exfalso. simpl in Hy. lra.
  - unfold F32.to_long. cbv zeta.
    rewrite to_long_floor by (rewrite Hy; lra).
    rewrite (Qfloor_comp _ _ Hy).
    destruct (Z.leb_spec (- 2 ^ 63) (Qfloor (q + (1 # 2)))) as [_|]; [|lia].
    destruct (Z.ltb_spec (Qfloor (q + (1 # 2))) (2 ^ 63)) as [_|]; [|lia].
    reflexivity.
Qed.

End AdjustedF32.



(** C4 (as stated) fails: the float32 duration 0.49999997 ([16777215 * 2^-25],
    below one half, whose nearest integer is 0) has at pace 1 the adjusted
    duration 1, because the float32 sum with 0.5 rounds to 1. *)
Lemma regulate_len_worked_example_counterexample :
  let d := SpecFloat.S754_finite false 16777215 (-25) in
  (0 <= F32.to_Q d / F32.to_Q (F32.of_Z 1) < 1 # 2)%Q
  /\ round_half_up (F32.to_Q d / F32.to_Q (F32.of_Z 1)) = 0
  /\ adjusted_f32 (F32.of_Z 1) d = 1
  /\ adjusted_f32 (F32.of_Z 1) d <> round_half_up (F32.to_Q d / F32.to_Q (F32.of_Z 1)).
Proof.
  cbv zeta. split; [|split; [|split]].
  - split; vm_compute; [discriminate|reflexivity].
  - vm_compute. reflexivity.
  - vm_compute. reflexivity.
  - vm_compute. discriminate.
Qed.

(** * The averager in float32 *)

Section AveragePitchF32.

Lemma gather3_fit {R A} (F : list R -> list A) (G : list Z -> list Z)
    (durs : list (list Z)) (pitch : list (list (list R))) :
  (forall row, length (F row) = S (length row)) ->
  (forall d, Forall (fun x => 0 <= x) d -> Forall (fun i => 0 <= i <= sumZ d) (G d)) ->
  Forall2 (fun d chans =>
             Forall (fun x => 0 <= x) d
             /\ Forall (fun row => sumZ d <= Z.of_nat (length row)) chans)
          durs pitch ->
  Forall2 (fun idx chans =>
             Forall (fun row => Forall (fun i => 0 <= i < Z.of_nat (length row)) idx) chans)
          (map G durs) (map (map F) pitch).
Proof.
  intros HF HG H. induction H as [|d chans durs pitch [Hd Hc] _ IH]; [constructor|].
  cbn [map]. constructor; [|exact IH].
  apply Forall_map. eapply Forall_impl; [|exact Hc]. intros row Hrow. simpl in Hrow.
  eapply Forall_impl; [|apply (HG d Hd)]. intros i Hi. simpl in Hi. rewrite HF. lia.
Qed.

Lemma length_ncums_f32 row : length (ncums_f32 row) = S (length row).
Proof. unfold ncums_f32. simpl. by rewrite length_cumsum, length_map. Qed.

Lemma length_cums_f32 row : length (cums_f32 row) = S (length row).
Proof. unfold cums_f32. simpl. by rewrite length_cumsum. Qed.

Lemma tensor_rows_eq_f32 pitch durs :
  zip_with3 avg_entry_f32
    (zip_with3 Z.sub
       (zip_with (fun idx chans => map (fun row => map (lookZ row) idx) chans)
                 (map (cumsum Z.add) durs) (map (map ncums_f32) pitch))
       (zip_with (fun idx chans => map (fun row => map (lookZ row) idx) chans)
                 (map (fun ends => 0 :: removelast ends) (map (cumsum Z.add) durs))
                 (map (map ncums_f32) pitch)))
    (zip_with3 F32.sub
       (zip_with (fun idx chans => map (fun row => map (lookF row) idx) chans)
                 (map (cumsum Z.add) durs) (map (map cums_f32) pitch))
       (zip_with (fun idx chans => map (fun row => map (lookF row) idx) chans)
                 (map (fun ends => 0 :: removelast ends) (map (cumsum Z.add) durs))
                 (map (map cums_f32) pitch)))
  = zip_with (fun d chans => map (fun row => row_avg_f32 row d) chans) durs pitch.
Proof.
  unfold zip_with3. revert pitch.
  induction durs as [|d durs IH]; intros [|chans pitch]; [done..|].
  cbn [map zip_with]. rewrite IH. f_equal.
  induction chans as [|row chans IHc]; [done|].
  cbn [map zip_with]. by rewrite IHc.
Qed.

(** On durations that fit, the float32 averager returns, channel by channel. *)
Lemma average_pitch_f32_rows pitch durs :
  durs_fit_f32 durs pitch ->
  average_pitch_f32 pitch durs
  = Ok (zip_with (fun d chans => map (fun row => row_avg_f32 row d) chans) durs pitch).
Proof.
  intros H. unfold average_pitch_f32. cbv zeta.
  change (map (map (fun row => 0 :: cumsum Z.add (map F32.nonzero row))) pitch)
    with (map (map ncums_f32) pitch).
  change (map (map (fun row => F32.zero :: cumsum F32.add row)) pitch)
    with (map (map cums_f32) pitch).
  rewrite (gather3_ok F32.zero (map (map cums_f32) pitch) (map (cumsum Z.add) durs))
    by (apply gather3_fit; [apply length_cums_f32|apply ends_bounds|done]).
  cbn [mbind result_bind].
  rewrite (gather3_ok F32.zero (map (map cums_f32) pitch))
    by (rewrite map_map; apply gather3_fit; [apply length_cums_f32|apply starts_bounds|done]).
  cbn [mbind result_bind].
  rewrite (gather3_ok 0 (map (map ncums_f32) pitch) (map (cumsum Z.add) durs))
    by (apply gather3_fit; [apply length_ncums_f32|apply ends_bounds|done]).
  cbn [mbind result_bind].
  rewrite (gather3_ok 0 (map (map ncums_f32) pitch))
    by (rewrite map_map; apply gather3_fit; [apply length_ncums_f32|apply starts_bounds|done]).
  cbn [mbind result_bind].
  f_equal. apply tensor_rows_eq_f32.
Qed.

Lemma lookup_removelast {A} (l : list A) (j : nat) :
  (S j < length l)%nat -> removelast l !! j = l !! j.
Proof.
  revert j. induction l as [|x l IH]; intros j Hj; [simpl in Hj; lia|].
  destruct l as [|y l]; [simpl in Hj; lia|].
  change (removelast (x :: y :: l)) with (x :: removelast (y :: l)).
  destruct j as [|j]; [done|]. cbn [lookup list_lookup]. apply IH. simpl in *. lia.
Qed.

Lemma ends_lookup d (k : nat) :
  (k < length d)%nat -> cumsum Z.add d !! k = Some (tok_end d k).
Proof.
  intros Hk. rewrite cumsum_Z_scan, scan_lookup_Z by done. by rewrite Z.add_0_l.
Qed.

Lemma starts_lookup d (k : nat) :
  (k < length d)%nat -> (0 :: removelast (cumsum Z.add d)) !! k = Some (tok_start d k).
Proof.
  intros Hk. destruct k as [|j]; [done|].
  change ((0 :: removelast (cumsum Z.add d)) !! S j)
    with (removelast (cumsum Z.add d) !! j).
  rewrite lookup_removelast by (rewrite length_cumsum; lia).
  rewrite ends_lookup by lia. reflexivity.
Qed.

Lemma scan_lookup_foldl {A} (add : A -> A -> A) acc l (i : nat) :
  (i < length l)%nat -> scan add acc l !! i = Some (foldl add acc (take (S i) l)).
Proof.
  revert acc i. induction l as [|x l IH]; intros acc i Hi; [simpl in Hi; lia|].
  destruct i as [|i]; [done|].
  cbn [scan lookup list_lookup]. rewrite IH by (simpl in Hi; lia). reflexivity.
Qed.

(** The padded running sums hold the float32 sum of each prefix. *)
Lemma padded_cums_lookup row (n : nat) :
  (n <= length row)%nat -> cums_f32 row !! n = Some (fsum (take n row)).
Proof.
  intros Hn. unfold cums_f32. destruct n as [|j]; [done|].
  destruct row as [|x l]; [simpl in Hn; lia|].
  destruct j as [|i]; [done|].
  change ((F32.zero :: cumsum F32.add (x :: l)) !! S (S i))
    with (scan F32.add x l !! i).
  rewrite scan_lookup_foldl by (simpl in Hn; lia). reflexivity.
Qed.

Lemma lookF_prefix row (n : Z) :
  0 <= n <= Z.of_nat (length row) ->
  lookF (cums_f32 row) n = fsum (take (Z.to_nat n) row).
Proof.
  intros Hn. unfold lookF. by rewrite padded_cums_lookup by lia.
Qed.

Lemma lookZ_prefix_f32 row (n : Z) :
  0 <= n <= Z.of_nat (length row) ->
  lookZ (ncums_f32 row) n = sumZ (map F32.nonzero (take (Z.to_nat n) row)).
Proof.
  intros Hn. unfold lookZ, ncums_f32.
  rewrite padded_cumsum_Z by (rewrite length_map; lia).
  simpl. by rewrite firstn_map.
Qed.

Lemma tok_end_start d (k : nat) dk :
  d !! k = Some dk -> tok_end d k = tok_start d k + dk.
Proof.
  intros Hk. unfold tok_end, tok_start.
  rewrite (take_S_r _ _ _ Hk), sumZ_app. simpl. lia.
Qed.

Lemma tok_end_le d (k : nat) :
  Forall (fun x => 0 <= x) d -> (k < length d)%nat -> tok_end d k <= sumZ d.
Proof.
  intros Hd Hk. change (tok_end d k) with (tok_start d (S k)).
  rewrite <- (take_ge d (length d)) at 2 by lia.
  apply (tok_start_mono d (S k) (length d) Hd). lia.
Qed.

(** One entry of one channel. *)
Lemma row_avg_f32_lookup row d (k : nat) dk :
  Forall (fun x => 0 <= x) d -> sumZ d <= Z.of_nat (length row) ->
  d !! k = Some dk ->
  row_avg_f32 row d !! k
  = Some (avg_entry_f32
            (sumZ (map F32.nonzero (tok_frames_f32 row d k)))
            (F32.sub (fsum (take (Z.to_nat (tok_end d k)) row))
                     (fsum (take (Z.to_nat (tok_start d k)) row)))).
Proof.
  intros Hd Hlen Hk. pose proof (lookup_lt_Some _ _ _ Hk) as Hkl.
  pose proof (tok_start_nonneg d k Hd) as Hs0.
  pose proof (tok_end_le d k Hd Hkl) as He.
  pose proof (tok_end_start d k dk Hk) as Hes.
  assert (0 <= dk) as Hdk.
  { rewrite Forall_lookup in Hd. by apply (Hd k). }
  unfold row_avg_f32. cbv zeta. rewrite zip_with_quad, lookup_zip_with.
  rewrite ends_lookup, starts_lookup by done. cbn [mbind option_bind].
  f_equal. rewrite !lookF_prefix, !lookZ_prefix_f32 by lia. f_equal.
  unfold tok_frames_f32. rewrite Hk. cbn [default].
  rewrite Hes, Z2Nat.inj_add, take_add, map_app, sumZ_app by lia.
  unfold id. lia.
Qed.

Lemma length_row_avg_f32 row d : length (row_avg_f32 row d) = length d.
Proof.
  unfold row_avg_f32. cbv zeta. rewrite !length_zip_with, !length_map. cbn [length].
  rewrite length_cumsum. destruct d as [|x d]; [done|].
  rewrite length_removelast_pred, length_cumsum. cbn [length]. lia.
Qed.

End AveragePitchF32.

Section AveragePitchExact.

(** On a number the float32 test [x != 0.0] is the test on its value. *)
Lemma nonzero_number p :
  F32.is_number p = true -> F32.nonzero p = nonzero (F32.to_Q p).
Proof.
  destruct p as [s|s| |s m e]; try discriminate; intros _; [by destruct s|].
  assert (F32.nonzero (SpecFloat.S754_finite s m e) = 1) as -> by (by destruct s).
  unfold nonzero. destruct (Qeq_bool _ 0) eqn:Hq; [|done].
  exfalso. apply Qeq_bool_eq in Hq. unfold F32.to_Q in Hq. cbv zeta in Hq.
  destruct (Z.leb_spec 0 e) as [He|He]; unfold Qeq in Hq; simpl in Hq.
  - pose proof (Z.pow_pos_nonneg 2 e ltac:(lia) He). destruct s; nia.
  - destruct s; lia.
Qed.

Lemma count_numbers frames :
  Forall (fun p => F32.is_number p = true) frames ->
  sumZ (map F32.nonzero frames)
  = Z.of_nat (length (List.filter (fun p => negb (Qeq_bool p 0)) (map F32.to_Q frames))).
Proof.
  intros H. rewrite <- count_voiced, map_map. f_equal.
  induction H as [|p frames Hp _ IH]; [done|].
  cbn [map]. by rewrite nonzero_number, IH.
Qed.

(** With an exact difference of the running sums and an exact quotient, the
    entry is the mean of the non-zero frames. *)
Lemma mean_of_exact frames (n : Z) (D x : F32.t) :
  Forall (fun p => F32.is_number p = true) frames ->
  n = sumZ (map F32.nonzero frames) ->
  x = avg_entry_f32 n D ->
  (F32.to_Q D == sumQ (map F32.to_Q frames))%Q ->
  (n <> 0 -> (F32.to_Q (F32.div D (F32.of_Z n)) == F32.to_Q D / inject_Z n)%Q) ->
  (F32.to_Q x == mean_nonzero (map F32.to_Q frames))%Q.
Proof.
  intros Hnum Hn -> HD Hdiv. rewrite (count_numbers _ Hnum) in Hn.
  unfold mean_nonzero, avg_entry_f32. cbv zeta.
  pose proof (sumQ_voiced (map F32.to_Q frames)) as Hv.
  destruct (List.filter _ (map F32.to_Q frames)) as [|v voiced] eqn:Ef.
  - simpl in Hn. subst n. reflexivity.
  - destruct (Z.eqb_spec n 0) as [H0|H0]; [simpl in Hn; lia|].
    rewrite (Hdiv H0), HD, Hv, Hn. reflexivity.
Qed.

End AveragePitchExact.



(** C3 (as stated) fails: on the float32 signal [16777216, 1] with durations
    [1, 1] the entry of the second token is 0, the float32 running sum
    16777216 + 1 being 16777216, while the mean of the token's one frame
    is 1. *)
Lemma average_pitch_contract_counterexample :
  exists x,
    average_pitch_f32 [[[F32.of_Z 16777216; F32.of_Z 1]]] [[1; 1]]
    = Ok [[[F32.of_Z 16777216; x]]]
    /\ (F32.to_Q x == 0)%Q
    /\ (mean_nonzero
          (map F32.to_Q (tok_frames_f32 [F32.of_Z 16777216%Z; F32.of_Z 1%Z] [1%Z; 1%Z] 1%nat))
        == 1)%Q
    /\ ~ (F32.to_Q x
          == mean_nonzero
               (map F32.to_Q (tok_frames_f32 [F32.of_Z 16777216%Z; F32.of_Z 1%Z] [1%Z; 1%Z] 1%nat)))%Q.
Proof.
  eexists. split; [vm_compute; reflexivity|].
  split; [reflexivity|]. split; [reflexivity|].
  vm_compute. discriminate.
Qed.

(** * The error policy on the bundle as passed *)

Section ErrorPolicy.

Context {Mask Mel Text : Type}.
Context (self : FastPitch Mask Mel).
Context (plugin_manager : PluginManager Text).

Lemma infer_advanced_py_unusable cleaned_text inputs speaker_i pace pitch_data
    max_duration old_sequence enc_out enc_mask :
  encoder inputs speaker_i = (enc_out, enc_mask) ->
  py_usable pitch_data = false ->
  infer_advanced_py self plugin_manager cleaned_text inputs speaker_i pace pitch_data
    max_duration old_sequence
  = infer_using_vals self plugin_manager cleaned_text pace enc_out max_duration enc_mask
      None None None None None.
Proof.
  intros Henc Hu. unfold infer_advanced_py. rewrite Henc.
  destruct pitch_data as [[[p d] e]|]; [|done]. simpl in Hu. by rewrite Hu.
Qed.

Lemma infer_advanced_py_usable cleaned_text inputs speaker_i pace pitch dur energy
    max_duration old_sequence enc_out enc_mask :
  encoder inputs speaker_i = (enc_out, enc_mask) ->
  py_usable (Some (pitch, dur, energy)) = true ->
  infer_advanced_py self plugin_manager cleaned_text inputs speaker_i pace
    (Some (pitch, dur, energy)) max_duration old_sequence
  = ('(p, d, e) ← convert_bundle pitch dur energy;
     match infer_using_vals self plugin_manager cleaned_text pace enc_out max_duration
             enc_mask (Some d) (Some p) (Some e) old_sequence (Some inputs) with
     | Ok r => Ok r
     | Raise _ =>
         infer_using_vals self plugin_manager cleaned_text pace enc_out max_duration
           enc_mask None None None None None
     end).
Proof.
  intros Henc Hu. unfold infer_advanced_py. rewrite Henc. simpl in Hu. by rewrite Hu.
Qed.

(** On lists of numbers the conversions change nothing: the call is the one
    on the converted bundle. *)
Lemma infer_advanced_py_flat cleaned_text inputs speaker_i pace p d e
    max_duration old_sequence :
  infer_advanced_py self plugin_manager cleaned_text inputs speaker_i pace
    (Some (Some (PyFlat p), Some (PyFlat d), Some (PyFlat e))) max_duration old_sequence
  = infer_advanced self plugin_manager cleaned_text inputs speaker_i pace
      (Some (Some p, Some d, Some e)) max_duration old_sequence.
Proof.
  unfold infer_advanced_py, infer_advanced.
  destruct (encoder inputs speaker_i) as [enc_out enc_mask].
  by destruct p, d, e.
Qed.

End ErrorPolicy.



(** C5 (as stated) fails: a bundle whose duration array is a 2 x 2 nested
    list makes [infer_advanced] raise the runtime error of the view at
    line 415, although the self-predicted inference succeeds. *)
Lemma infer_advanced_error_policy_counterexample :
  infer_advanced_py toy no_plugins tt [1; 5; 3; 4] None 1
    (Some (Some (PyFlat [10; 20; 30; 40]%Q), Some (PyNested [[1; 2]; [3; 4]]%Q),
           Some (PyFlat [7; 7; 7; 7]%Q))) 75 None
  = Raise RuntimeError
  /\ is_ok (infer_using_vals toy no_plugins tt 1 [[0; 0]; [0; 0]; [0; 0]; [0; 0]]%Q 75 tt
              None None None None None) = true
  /\ encoder (FastPitch := toy) [1; 5; 3; 4] None
     = ([[0; 0]; [0; 0]; [0; 0]; [0; 0]]%Q, tt).
Proof. split; [reflexivity|]. split; reflexivity. Qed.
